(** * An OpenID 2.0 provider (package openid2): shallow embedding and properties

    The Go package is embedded as follows.
    - Go [string] is [string]; Go [[]byte] is [list ascii] (one [ascii] per byte).
    - Go [map[string]string] is [gmap string string]; reading a missing key
      yields the empty string, written [m @ k] below.
    - [range] over a Go map visits the entries in an unspecified order that may
      differ from one loop to the next: every such loop takes the order from an
      oracle [rg : nat -> gmap string string -> list (string * string)], and the
      theorems assume only that the oracle returns a permutation of the entries.
    - The random source, the clock and the association store are threaded
      explicitly as state.
    - HMAC, [strconv.Quote], [url.Parse] and the RFC3339 time format belong to
      the Go standard library and are section variables. *)

From Stdlib Require Import ZArith NArith Ascii String List Lia.
From stdpp Require Import base tactics option list strings gmap pretty.

Local Open Scope Z_scope.
Local Open Scope stdpp_scope.

(** ** Byte strings *)

Abbreviation bytes := (list ascii).

Definition to_bytes (s : string) : bytes := String.list_ascii_of_string s.
Definition to_string (b : bytes) : string := String.string_of_list_ascii b.

(** ** Errors

    Go [error] values.  The two sentinels are compared by identity in the
    source, which is equality of constructors here. *)
Inductive error : Type :=
  | ErrDuplicateAssociation
  | ErrUnauthenticated
  | ErrUnsupportedAssociationType (t : string)
  | ErrCannotStoreAssociation
  | unsupportedSessionTypeError (t : string)
  | ErrInvalidKeyValueLine (b : bytes)
  | ErrPrefixNotAllowed (prefix : string)
  | ErrPrefixMultipleNamespaces (prefix : string)
  | ErrNamespaceMultiplePrefixes (ns : string)
  | ErrUnknownNs (ns : string)
  | ErrUnknownMode (mode : string)
  | ErrNoReturnTo
  | ErrOther (msg : string).

Global Instance error_eq_dec : EqDecision error.
Proof. solve_decision. Defined.

Inductive result (A : Type) : Type :=
  | Ok (a : A)
  | Err (e : error).
Arguments Ok {A} a.
Arguments Err {A} e.

Definition is_Ok {A} (r : result A) : Prop :=
  match r with Ok _ => True | Err _ => False end.

(** ** Go maps *)

(** [m[k]] of a [map[string]string]: the zero value when the key is absent. *)
Definition index (m : gmap string string) (k : string) : string :=
  default "" (m !! k).
Infix "@" := index (at level 25, left associativity).

(** The iteration orders a [range] loop may take. *)
Definition range_order (rg : nat → gmap string string → list (string * string)) : Prop :=
  ∀ i m, rg i m ≡ₚ map_to_list m.

(** ** strings.Split, strings.SplitN, strings.Join (single-byte separators) *)

Module GoStrings.
Section Lists.
Context {A : Type} `{EqDecision A}.

(** The pieces around the first occurrence of [sep], if any. *)
Fixpoint cut (sep : A) (l : list A) : option (list A * list A) :=
  match l with
  | [] => None
  | x :: l' =>
      if decide (x = sep) then Some ([], l')
      else match cut sep l' with
           | Some (a, b) => Some (x :: a, b)
           | None => None
           end
  end.

(** [SplitN(l, sep, 2)] *)
Definition SplitN2 (l : list A) (sep : A) : list (list A) :=
  match cut sep l with
  | Some (a, b) => [a; b]
  | None => [l]
  end.

(** [Split(l, sep)]: all pieces between separators; one piece when there
    is no separator, also for the empty input. *)
Fixpoint Split (l : list A) (sep : A) : list (list A) :=
  match l with
  | [] => [[]]
  | x :: l' =>
      if decide (x = sep) then [] :: Split l' sep
      else match Split l' sep with
           | s :: ss => (x :: s) :: ss
           | [] => [[x]]
           end
  end.
End Lists.

Definition strings_Split (s : string) (sep : ascii) : list string :=
  to_string <$> Split (to_bytes s) sep.

Definition strings_SplitN2 (s : string) (sep : ascii) : list string :=
  to_string <$> SplitN2 (to_bytes s) sep.

Fixpoint strings_Join (l : list string) (sep : string) : string :=
  match l with
  | [] => ""
  | [s] => s
  | s :: l' => s +:+ sep +:+ strings_Join l' sep
  end.
End GoStrings.
Import GoStrings.

(** ** io.Writer *)

Class Writer (W : Type) := Write : W → bytes → W * option error.

(** A [bytes.Buffer]: the write appends and cannot fail. *)
Definition Buffer := bytes.
Global Instance Buffer_Writer : Writer Buffer := λ w b, (w ++ b, None).

(** ** Key-value form (keyvalue.go) *)

Definition Namespace : string := "http://specs.openid.net/auth/2.0".

Definition newline : ascii := "010"%char.

(** [fmt.Fprintf(w, "%s:%s\n", key, value)]: one write of the formatted bytes. *)
Definition WriteKeyValuePair {W} `{Writer W} (w : W) (key value : string) : W * option error :=
  Write w (to_bytes key ++ [":"%char] ++ to_bytes value ++ [newline]).

(** The body of the [range] loop of [EncodeKeyValue], over the entries in the
    order the loop visits them. *)
Fixpoint EncodeKeyValue_loop {W} `{Writer W} (w : W) (kvs : list (string * string))
  : W * option error :=
  match kvs with
  | [] => (w, None)
  | (k, v) :: rest =>
      match WriteKeyValuePair w k v with
      | (w', Some err) => (w', Some err)
      | (w', None) => EncodeKeyValue_loop w' rest
      end
  end.

Definition EncodeKeyValue {W} `{Writer W} (rg : nat → gmap string string → list (string * string))
    (w : W) (p : gmap string string) : W * option error :=
  EncodeKeyValue_loop w (rg 0%nat p).

Fixpoint ParseKeyValue_loop (segs : list bytes) (p : gmap string string)
  : result (gmap string string) :=
  match segs with
  | [] => Ok p
  | b :: rest =>
      match SplitN2 b ":"%char with
      | [k; v] => ParseKeyValue_loop rest (<[to_string k := to_string v]> p)
      | _ => Err (ErrInvalidKeyValueLine b)
      end
  end.

Definition ParseKeyValue (body : bytes) : result (gmap string string) :=
  ParseKeyValue_loop (Split body newline) ∅.

(** ** encoding/base64 (URLEncoding) and encoding/ascii85 *)

Module base64.
Definition encodeURL : bytes :=
  to_bytes "ABCDEFGHIJKLMNOPQRSTUVWXYZabcdefghijklmnopqrstuvwxyz0123456789-_".

Definition StdPadding : ascii := "="%char.

Definition digit (v : N) : ascii :=
  default StdPadding (encodeURL !! N.to_nat (N.land v 63)).

(** [URLEncoding.EncodeToString]: three source bytes give four digits; a
    final group of one or two bytes is padded with [=]. *)
Fixpoint EncodeToString (src : bytes) : bytes :=
  match src with
  | [] => []
  | [a] =>
      let v := N.shiftl (N_of_ascii a) 16 in
      [digit (N.shiftr v 18); digit (N.shiftr v 12); StdPadding; StdPadding]
  | [a; b] =>
      let v := N.lor (N.shiftl (N_of_ascii a) 16) (N.shiftl (N_of_ascii b) 8) in
      [digit (N.shiftr v 18); digit (N.shiftr v 12); digit (N.shiftr v 6); StdPadding]
  | a :: b :: c :: rest =>
      let v := N.lor (N.lor (N.shiftl (N_of_ascii a) 16) (N.shiftl (N_of_ascii b) 8))
                     (N_of_ascii c) in
      [digit (N.shiftr v 18); digit (N.shiftr v 12); digit (N.shiftr v 6); digit v]
        ++ EncodeToString rest
  end.
End base64.

Module ascii85.
(** Five base-85 digits of a 32-bit value, most significant first, from [!]. *)
Definition digits (v : N) : bytes :=
  (λ d, ascii_of_N (33 + d mod 85)%N)
    <$> [v / 52200625; v / 614125; v / 7225; v / 85; v]%N.

Definition word (a b c d : ascii) : N :=
  N.lor (N.lor (N.lor (N.shiftl (N_of_ascii a) 24) (N.shiftl (N_of_ascii b) 16))
               (N.shiftl (N_of_ascii c) 8)) (N_of_ascii d).

Definition zero : ascii := "000"%char.

(** [Encode]: a full group of four zero bytes is the single byte [z]; a
    short final group keeps one digit more than it has bytes. *)
Fixpoint Encode (src : bytes) : bytes :=
  match src with
  | [] => []
  | [a] => take 2 (digits (word a zero zero zero))
  | [a; b] => take 3 (digits (word a b zero zero))
  | [a; b; c] => take 4 (digits (word a b c zero))
  | a :: b :: c :: d :: rest =>
      (if decide (word a b c d = 0%N) then ["z"%char] else digits (word a b c d))
        ++ Encode rest
  end.
End ascii85.

(** ** Associations (association.go) *)

Definition hmacSHA1 : string := "HMAC-SHA1".
Definition hmacSHA256 : string := "HMAC-SHA256".

(** [time.Time] as nanoseconds on one time line; [time.Duration] likewise. *)
Abbreviation Time := Z.
Definition Minute : Z := 60 * 1000000000.

Module Association.
(** [Type_] is the field [Type] of the source. *)
Record t : Type := mk {
  Endpoint : string;
  Handle : string;
  Secret : bytes;
  Type_ : string;
  Expires : Time
}.
End Association.
Import (notations) Association.

Global Instance Association_eq_dec : EqDecision Association.t.
Proof. solve_decision. Defined.

Definition with_Handle (a : Association.t) (handle : string) : Association.t :=
  Association.mk (Association.Endpoint a) handle (Association.Secret a)
                 (Association.Type_ a) (Association.Expires a).

(** [hash.Hash] as returned by [hmac.New]: the hash constructor, the key and
    the bytes written so far. *)
Inductive hashFunc : Type := sha1_New | sha256_New.

Record Hash : Type := mkHash {
  hash_new : hashFunc;
  hash_key : bytes;
  hash_written : bytes
}.

Definition hmac_New (f : hashFunc) (key : bytes) : Hash := mkHash f key [].

Global Instance Hash_Writer : Writer Hash :=
  λ h b, (mkHash (hash_new h) (hash_key h) (hash_written h ++ b), None).

Section Sign.
Variable hmac_Sum : hashFunc → bytes → bytes → bytes.

(** [h.Sum(b)]: the MAC of everything written, appended to [b]. *)
Definition Sum (h : Hash) (b : bytes) : bytes :=
  b ++ hmac_Sum (hash_new h) (hash_key h) (hash_written h).

Definition sign (a : Association.t) (params : gmap string string) (signed : list string)
  : result string :=
  let h :=
    if decide (Association.Type_ a = hmacSHA1) then
      Some (hmac_New sha1_New (Association.Secret a))
    else if decide (Association.Type_ a = hmacSHA256) then
      Some (hmac_New sha256_New (Association.Secret a))
    else None in
  match h with
  | None => Err (ErrUnsupportedAssociationType (Association.Type_ a))
  | Some h =>
      let h := foldl (λ h k, (WriteKeyValuePair h k (params @ k)).1) h signed in
      Ok (to_string (base64.EncodeToString (Sum h [])))
  end.
End Sign.

(** The [AssociationStore] interface.  Every method may change the state of
    the store behind it.  [Find] is not called by the handler and is left out. *)
Class AssociationStore (S : Type) := {
  Add : Association.t → S → option error * S;
  Get : string → string → S → (option Association.t * option error) * S;
  Delete : string → string → S → option error * S
}.

Module MemoryAssociationStore.
Record t : Type := mk { m : gmap string (gmap string Association.t) }.

(** [NewMemoryAssociationStore] *)
Definition New : t := mk ∅.

Definition Get (endpoint handle : string) (s : t) : option Association.t * option error :=
  match m s !! endpoint with
  | None => (None, None)
  | Some assocs =>
      match assocs !! handle with
      | None => (None, None)
      | Some a => (Some a, None)
      end
  end.

Definition Add (a : Association.t) (s : t) : option error * t :=
  match Get (Association.Endpoint a) (Association.Handle a) s with
  | (_, Some err) => (Some err, s)
  | (Some _, None) => (Some ErrDuplicateAssociation, s)
  | (None, None) =>
      let assocs := default ∅ (m s !! Association.Endpoint a) in
      (None, mk (<[Association.Endpoint a := <[Association.Handle a := a]> assocs]> (m s)))
  end.

Definition Delete (endpoint handle : string) (s : t) : option error * t :=
  match Get endpoint handle s with
  | (_, Some err) => (Some err, s)
  | (None, None) => (None, s)
  | (Some _, None) => (None, mk (alter (delete handle) endpoint (m s)))
  end.

(** Every association sits under its own endpoint and handle.  [Add] is the
    only method that stores one, so all states built from [New] satisfy it. *)
Definition wf (s : t) : Prop :=
  ∀ endpoint handle assocs a,
    m s !! endpoint = Some assocs → assocs !! handle = Some a →
    Association.Endpoint a = endpoint ∧ Association.Handle a = handle.
End MemoryAssociationStore.

Global Instance MemoryAssociationStore_AssociationStore
  : AssociationStore MemoryAssociationStore.t := {|
  Add a s := MemoryAssociationStore.Add a s;
  Get endpoint handle s := (MemoryAssociationStore.Get endpoint handle s, s);
  Delete endpoint handle s := MemoryAssociationStore.Delete endpoint handle s
|}.

(** ** The environment of a request *)

(** [crypto/rand]: position [n] of the source holds the next byte or the
    error the read reports there. *)
Record Rand : Type := mkRand { rand_src : nat → result ascii; rand_pos : nat }.

Fixpoint rand_fill (src : nat → result ascii) (pos n : nat) : result bytes :=
  match n with
  | O => Ok []
  | S n' =>
      match src pos with
      | Err err => Err err
      | Ok b =>
          match rand_fill src (S pos) n' with
          | Err err => Err err
          | Ok bs => Ok (b :: bs)
          end
      end
  end.

(** [rand.Read] into a buffer of [n] bytes. *)
Definition rand_Read (n : nat) (r : Rand) : result bytes * Rand :=
  match rand_fill (rand_src r) (rand_pos r) n with
  | Ok b => (Ok b, mkRand (rand_src r) (rand_pos r + n))
  | Err err => (Err err, r)
  end.

(** [time.Now]: the successive readings of the clock. *)
Record Clock : Type := mkClock { clock_src : nat → Time; clock_pos : nat }.

Definition time_Now (c : Clock) : Time * Clock :=
  (clock_src c (clock_pos c), mkClock (clock_src c) (S (clock_pos c))).

(** What reaches the [http.ResponseWriter]: a key-value body with its status,
    a redirect to [return_to] carrying the fields, or output of the login
    collaborator. *)
Inductive Delivery : Type :=
  | Direct (status : nat) (params : gmap string string)
  | Redirect (returnTo : string) (params : gmap string string)
  | Custom (body : string).

Record World (S : Type) : Type := mkWorld {
  store : S;
  rand : Rand;
  clock : Clock;
  written : list Delivery
}.
Arguments mkWorld {S} _ _ _ _.
Arguments store {S} _.
Arguments rand {S} _.
Arguments clock {S} _.
Arguments written {S} _.

Definition with_store {S} (w : World S) (s : S) : World S :=
  mkWorld s (rand w) (clock w) (written w).
Definition with_rand {S} (w : World S) (r : Rand) : World S :=
  mkWorld (store w) r (clock w) (written w).
Definition with_clock {S} (w : World S) (c : Clock) : World S :=
  mkWorld (store w) (rand w) c (written w).
Definition write {S} (w : World S) (d : Delivery) : World S :=
  mkWorld (store w) (rand w) (clock w) (written w ++ [d]).

(** ** Extensions (extension.go) *)

Module Extension.
Record t : Type := mk {
  Namespace : string;
  Prefix : string;
  Params : gmap string string
}.
End Extension.

(** The keys of the map [bannedPrefixes]; every one of them maps to [true]. *)
Definition bannedPrefixes_keys : list string :=
  [ "assoc_handle"; "assoc_type"; "claimed_id"; "contact"; "delegate";
    "dh_consumer_public"; "dh_gen"; "dh_modulus"; "error"; "identity";
    "invalidate_handle"; "mode"; "ns"; "op_endpoint"; "openid"; "realm";
    "reference"; "response_nonce"; "return_to"; "server"; "session_type";
    "sig"; "signed"; "trust_root" ].

Definition bannedPrefixes (prefix : string) : bool :=
  bool_decide (prefix ∈ bannedPrefixes_keys).

Definition dot : ascii := "."%char.

(** [x, ok := m[k]; ok && x != v] *)
Definition assigned_other (m : gmap string string) (k v : string) : bool :=
  match m !! k with
  | Some x => bool_decide (x ≠ v)
  | None => false
  end.

(** First loop of [parseExtensions]: the declarations [ns.<prefix>]. *)
Fixpoint parseExtensions_declare (kvs : list (string * string))
    (prefixes namespaces : gmap string string) : result (gmap string string) :=
  match kvs with
  | [] => Ok prefixes
  | (k, v) :: rest =>
      match strings_SplitN2 k dot with
      | [part0; prefix] =>
          if decide (part0 ≠ "ns") then parseExtensions_declare rest prefixes namespaces
          else if bannedPrefixes prefix then Err (ErrPrefixNotAllowed prefix)
          else if assigned_other prefixes prefix v then
            Err (ErrPrefixMultipleNamespaces prefix)
          else if assigned_other namespaces v prefix then
            Err (ErrNamespaceMultiplePrefixes v)
          else parseExtensions_declare rest (<[prefix := v]> prefixes)
                                       (<[v := prefix]> namespaces)
      | _ => parseExtensions_declare rest prefixes namespaces
      end
  end.

(** Second loop: one extension per declared prefix, stored by position. *)
Fixpoint parseExtensions_place (pns : list (string * string)) (i : nat)
    (extensions : list Extension.t) (positions : gmap string nat)
  : list Extension.t * gmap string nat :=
  match pns with
  | [] => (extensions, positions)
  | (p, ns) :: rest =>
      parseExtensions_place rest (S i)
        (<[i := Extension.mk ns p ∅]> extensions) (<[p := i]> positions)
  end.

Definition set_param (key v : string) (e : Extension.t) : Extension.t :=
  Extension.mk (Extension.Namespace e) (Extension.Prefix e)
               (<[key := v]> (Extension.Params e)).

(** Third loop: the fields [<prefix>.<key>] of the declared prefixes. *)
Fixpoint parseExtensions_collect (kvs : list (string * string))
    (positions : gmap string nat) (extensions : list Extension.t) : list Extension.t :=
  match kvs with
  | [] => extensions
  | (k, v) :: rest =>
      match strings_SplitN2 k dot with
      | [prefix; key] =>
          if decide (prefix = "ns") then parseExtensions_collect rest positions extensions
          else match positions !! prefix with
               | None => parseExtensions_collect rest positions extensions
               | Some pos =>
                   parseExtensions_collect rest positions
                     (alter (set_param key v) pos extensions)
               end
      | _ => parseExtensions_collect rest positions extensions
      end
  end.

Definition parseExtensions (rg : nat → gmap string string → list (string * string))
    (params : gmap string string) : result (list Extension.t) :=
  match parseExtensions_declare (rg 0%nat params) ∅ ∅ with
  | Err err => Err err
  | Ok prefixes =>
      let '(extensions, positions) :=
        parseExtensions_place (rg 1%nat prefixes) 0
          (replicate (size prefixes) (Extension.mk "" "" ∅)) ∅ in
      Ok (parseExtensions_collect (rg 2%nat params) positions extensions)
  end.

(** The state of the loop of [encodeExtensions].  [enc_used] is the key set of
    the map [used]; [enc_chosen] records, in order, the prefix each extension
    was given (it is not a variable of the source). *)
Record encoding : Type := mkEncoding {
  enc_i : nat;
  enc_used : gset string;
  enc_params : gmap string string;
  enc_signed : list string;
  enc_chosen : list string
}.

(** [fmt.Sprintf("ext%d", i)] *)
Definition ext_label (i : nat) : string := "ext" +:+ pretty i.

(** The inner [for] loop, which has no bound in the source; [fuel] bounds the
    number of rejected candidates and [None] stands for a loop still running
    when the fuel is spent. *)
Fixpoint encodeExtensions_prefix (fuel : nat) (used : gset string) (prefix : string)
    (i : nat) : option (string * nat) :=
  if bannedPrefixes prefix || bool_decide (prefix ∈ used) then
    match fuel with
    | O => None
    | S fuel' => encodeExtensions_prefix fuel' used (ext_label i) (S i)
    end
  else Some (prefix, i).

Definition encodeExtensions_param (prefix : string)
    (st : gmap string string * list string) (kv : string * string)
  : gmap string string * list string :=
  let key := prefix +:+ "." +:+ kv.1 in
  (<[key := kv.2]> st.1, st.2 ++ [key]).

Fixpoint encodeExtensions_loop (rg : nat → gmap string string → list (string * string))
    (n : nat) (extensions : list Extension.t) (st : encoding) : option encoding :=
  match extensions with
  | [] => Some st
  | ext :: rest =>
      match encodeExtensions_prefix (S (size (enc_used st))) (enc_used st)
                                    (Extension.Prefix ext) (enc_i st) with
      | None => None
      | Some (prefix, i) =>
          let params := <["ns." +:+ prefix := Extension.Namespace ext]> (enc_params st) in
          let '(params, signed) :=
            foldl (encodeExtensions_param prefix) (params, enc_signed st)
                  (rg n (Extension.Params ext)) in
          encodeExtensions_loop rg (S n) rest
            (mkEncoding i ({[ prefix ]} ∪ enc_used st) params signed
                        (enc_chosen st ++ [prefix]))
      end
  end.

(** The map [params] is updated in place in the source; here the updated map
    is returned next to [signed]. *)
Definition encodeExtensions (rg : nat → gmap string string → list (string * string))
    (params : gmap string string) (extensions : list Extension.t)
  : option (gmap string string * list string) :=
  match encodeExtensions_loop rg 0 extensions (mkEncoding 0 ∅ params [] []) with
  | Some st => Some (enc_params st, enc_signed st)
  | None => None
  end.

(** ** Login requests and responses (login.go) *)

Module LoginRequest.
Record t : Type := mk {
  ClaimedID : string;
  Identity : string;
  ReturnTo : string;
  Realm : string;
  Extensions : list Extension.t
}.
End LoginRequest.

Module LoginResponse.
Record t : Type := mk {
  ClaimedID : string;
  Identity : string;
  OPEndpoint : string;
  Extensions : list Extension.t
}.
End LoginResponse.

(** How a call ends: it returns, it panics, or it is still in a loop when
    the fuel of that loop is spent. *)
Inductive outcome : Type :=
  | Returned
  | Panicked (msg : string)
  | Diverged.

Inductive responder : Type :=
  | directResponder
  | indirectResponder (returnTo : string).

(** ** The handler (association.go, login.go, server.go) *)

Section Handler.
Variable hmac_Sum : hashFunc → bytes → bytes → bytes.
(** [strconv.Quote], the verb [%q]. *)
Variable Quote : string → string.
(** Whether [url.Parse] accepts the string. *)
Variable url_Parse_ok : string → bool.
(** [t.UTC().Format(time.RFC3339)] *)
Variable RFC3339 : Time → string.
Variable rg : nat → gmap string string → list (string * string).
Context {St : Type} `{AssociationStore St}.

(** [LoginHandler.Login]; the flag tells whether a response writer is passed
    ([checkid_setup]) or [nil] ([checkid_immediate]). *)
Definition LoginHandler : Type :=
  bool → LoginRequest.t → World St → (option LoginResponse.t * option error) * World St.

(** [Handler]: the field [Associations], or [DefaultAssociationStore] when it
    is [nil], is the store of the world. *)
Record Handler : Type := mkHandler { Login : option LoginHandler }.

Fixpoint saveAssociation_loop (n : nat) (a : Association.t) (w : World St)
  : (option error * Association.t) * World St :=
  match n with
  | O => ((Some ErrCannotStoreAssociation, a), w)
  | S n' =>
      match rand_Read 16 (rand w) with
      | (Err err, r) => ((Some err, a), with_rand w r)
      | (Ok handle, r) =>
          let a := with_Handle a (to_string (ascii85.Encode handle)) in
          match Add a (store w) with
          | (None, s) => ((None, a), with_store (with_rand w r) s)
          | (Some err, s) =>
              if decide (err ≠ ErrDuplicateAssociation) then
                ((Some err, a), with_store (with_rand w r) s)
              else saveAssociation_loop n' a (with_store (with_rand w r) s)
          end
      end
  end.

(** The association is passed by pointer in the source; the updated value is
    returned next to the error. *)
Definition saveAssociation (a : Association.t) (w : World St)
  : (option error * Association.t) * World St :=
  saveAssociation_loop 10 a w.

(** The part of [getAssociation] after the lookup; [a] is the value the
    result variable holds on entry. *)
Definition getAssociation_new (a : option Association.t) (w : World St)
  : (option Association.t * option error) * World St :=
  match rand_Read 128 (rand w) with
  | (Err err, r) => ((a, Some err), with_rand w r)
  | (Ok secret, r) =>
      let '(now, c) := time_Now (clock w) in
      let a := Association.mk "" "" secret hmacSHA256 (now + Minute) in
      match saveAssociation a (with_clock (with_rand w r) c) with
      | ((Some err, _), w) => ((None, Some err), w)
      | ((None, a), w) => ((Some a, None), w)
      end
  end.

Definition getAssociation (requestHandle nonce : string) (w : World St)
  : (option Association.t * option error) * World St :=
  if decide (requestHandle ≠ "") then
    match Get "" requestHandle (store w) with
    | ((a, Some err), s) => ((a, Some err), with_store w s)
    | ((None, None), s) => getAssociation_new None (with_store w s)
    | ((Some a, None), s) =>
        let '(now, c) := time_Now (clock w) in
        if bool_decide (now < Association.Expires a) then
          ((Some a, None), with_clock (with_store w s) c)
        else
          let '(_, s) := Delete "" requestHandle s in
          getAssociation_new (Some a) (with_clock (with_store w s) c)
    end
  else getAssociation_new None w.

Definition associate (params : gmap string string) : result (gmap string string) :=
  Err (unsupportedSessionTypeError (params @ "session_type")).

Definition is_valid (v : string) : gmap string string :=
  {[ "ns" := Namespace; "is_valid" := v ]}.

Definition checkAuthentication (params : gmap string string) (s : St)
  : result (gmap string string) * St :=
  match Get "" (params @ "assoc_handle") s with
  | ((_, Some err), s) => (Err err, s)
  | ((None, None), s) => (Ok (is_valid "false"), s)
  | ((Some assoc, None), s) =>
      let signed := strings_Split (params @ "signed") ","%char in
      match sign hmac_Sum assoc params signed with
      | Err err => (Err err, s)
      | Ok sig =>
          if decide (params @ "sig" ≠ sig) then (Ok (is_valid "false"), s)
          else
            let '(_, s) := Delete "" (Association.Handle assoc) s in
            (Ok (is_valid "true"), s)
      end
  end.

Definition getNonce (w : World St) : result string * World St :=
  match rand_Read 16 (rand w) with
  | (Err err, r) => (Err err, with_rand w r)
  | (Ok nonce, r) =>
      let '(now, c) := time_Now (clock w) in
      (Ok (RFC3339 now +:+ to_string (ascii85.Encode nonce)),
       with_clock (with_rand w r) c)
  end.

(** [err.Error()] *)
Definition Error (err : error) : string :=
  match err with
  | ErrDuplicateAssociation => "duplicate association"
  | ErrUnauthenticated => "authentication failed"
  | ErrUnsupportedAssociationType t => "unsupported association type " +:+ Quote t
  | ErrCannotStoreAssociation => "cannot store association"
  | unsupportedSessionTypeError t => "session type " +:+ Quote t +:+ " not supported"
  | ErrInvalidKeyValueLine b => "invalid key-value line " +:+ Quote (to_string b)
  | ErrPrefixNotAllowed p => "namespace prefix " +:+ Quote p +:+ " not allowed"
  | ErrPrefixMultipleNamespaces p =>
      "namespace prefix " +:+ Quote p +:+ " assigned to multiple namespaces"
  | ErrNamespaceMultiplePrefixes ns =>
      "namespace " +:+ Quote ns +:+ " assigned to multiple prefixes"
  | ErrUnknownNs ns => "unknown ns " +:+ Quote ns
  | ErrUnknownMode mode => "unknown mode " +:+ Quote mode
  | ErrNoReturnTo => "cannot send id_res message, no return_to parameter"
  | ErrOther msg => msg
  end.

(** [errorParams] of the errors that implement [errorParamser]. *)
Definition errorParams (err : error) : option (gmap string string) :=
  match err with
  | unsupportedSessionTypeError _ => Some {[ "error-code" := "unsupported-type" ]}
  | _ => None
  end.

Definition makeError (err : error) : gmap string string :=
  let e : gmap string string :=
    {[ "ns" := Namespace; "mode" := "error"; "error" := Error err ]} in
  match errorParams err with
  | Some ps => ps ∪ e
  | None => e
  end.

Definition direct : responder := directResponder.

Definition indirect (returnTo : string) : responder :=
  if decide (returnTo = "") then direct
  else if url_Parse_ok returnTo then indirectResponder returnTo
  else direct.

Definition respond (r : responder) (res : result (gmap string string)) (w : World St)
  : World St :=
  match r, res with
  | directResponder, Err err => write w (Direct 400 (makeError err))
  | directResponder, Ok params => write w (Direct 200 params)
  | indirectResponder returnTo, Err err => write w (Redirect returnTo (makeError err))
  | indirectResponder returnTo, Ok params => write w (Redirect returnTo params)
  end.

Definition parseLoginRequest (params : gmap string string) : result LoginRequest.t :=
  match parseExtensions rg params with
  | Err err => Err err
  | Ok extensions =>
      Ok (LoginRequest.mk (params @ "claimed_id") (params @ "identity")
                          (params @ "return_to") (params @ "realm") extensions)
  end.

(** [err != nil && err != ErrUnauthenticated] *)
Definition failure (err : option error) : option error :=
  match err with
  | Some e => if decide (e ≠ ErrUnauthenticated) then Some e else None
  | None => None
  end.

Definition call_Login (h : Handler) (interactive : bool) (req : LoginRequest.t)
    (w : World St) : (option LoginResponse.t * option error) * World St :=
  match Login h with
  | Some l => l interactive req w
  | None => ((None, None), w)
  end.

(** The [switch] of [login]: [inl] when it is left by [break] with a
    response, [inr] when the function ends inside it. *)
Definition login_switch (h : Handler) (params : gmap string string)
    (req : LoginRequest.t) (w : World St)
  : (LoginResponse.t * World St) + (outcome * World St) :=
  let returnTo := params @ "return_to" in
  if decide (params @ "mode" = "checkid_immediate") then
    let '((resp, err), w) := call_Login h false req w in
    match failure err, resp with
    | Some e, _ => inr (Returned, respond (indirect returnTo) (Err e) w)
    | None, Some resp => inl (resp, w)
    | None, None =>
        inr (Returned, respond (indirect returnTo)
                         (Ok {[ "ns" := Namespace; "mode" := "setup_needed" ]}) w)
    end
  else if decide (params @ "mode" = "checkid_setup") then
    let '((resp, err), w) := call_Login h true req w in
    match failure err, resp with
    | Some e, _ => inr (Returned, respond (indirect returnTo) (Err e) w)
    | None, Some resp => inl (resp, w)
    | None, None =>
        match err with
        | None => inr (Returned, w)
        | Some _ =>
            inr (Returned, respond (indirect returnTo)
                             (Ok {[ "ns" := Namespace; "mode" := "cancel" ]}) w)
        end
    end
  else
    inr (Panicked ("login called with unexpected mode " +:+ Quote (params @ "mode")), w).

(** The response fields and the list [signed] as they stand when [sign] is
    called. *)
Definition login_fields (params : gmap string string) (resp : LoginResponse.t)
    (nonce : string) (assoc : Association.t)
  : option (gmap string string * list string) :=
  let signed := ["op_endpoint"; "return_to"; "response_nonce"; "assoc_handle"] in
  let rparams : gmap string string :=
    {[ "ns" := Namespace;
       "mode" := "id_res";
       "return_to" := params @ "return_to";
       "op_endpoint" := LoginResponse.OPEndpoint resp;
       "response_nonce" := nonce;
       "assoc_handle" := Association.Handle assoc ]} in
  let '(signed, rparams) :=
    if decide (LoginResponse.ClaimedID resp ≠ "") then
      (signed ++ ["claimed_id"], <["claimed_id" := LoginResponse.ClaimedID resp]> rparams)
    else (signed, rparams) in
  let '(signed, rparams) :=
    if decide (LoginResponse.Identity resp ≠ "") then
      (signed ++ ["identity"], <["identity" := LoginResponse.Identity resp]> rparams)
    else (signed, rparams) in
  let rparams :=
    if decide (params @ "assoc_handle" ≠ ""
               ∧ params @ "assoc_handle" ≠ Association.Handle assoc) then
      <["invalidate_handle" := params @ "assoc_handle"]> rparams
    else rparams in
  match encodeExtensions (λ n, rg (3 + n)) rparams (LoginResponse.Extensions resp) with
  | None => None
  | Some (rparams, esigned) =>
      let signed := signed ++ esigned in
      Some (<["signed" := strings_Join signed ","]> rparams, signed)
  end.

(** [login] from the end of the [switch] on. *)
Definition login_id_res (params : gmap string string) (resp : LoginResponse.t)
    (w : World St) : outcome * World St :=
  let returnTo := params @ "return_to" in
  if decide (returnTo = "") then (Returned, respond direct (Err ErrNoReturnTo) w)
  else
    match getNonce w with
    | (Err err, w) => (Returned, respond (indirect returnTo) (Err err) w)
    | (Ok nonce, w) =>
        match getAssociation (params @ "assoc_handle") nonce w with
        | ((_, Some err), w) => (Returned, respond (indirect returnTo) (Err err) w)
        | ((None, None), w) => (Panicked "nil pointer dereference", w)
        | ((Some assoc, None), w) =>
            match login_fields params resp nonce assoc with
            | None => (Diverged, w)
            | Some (rparams, signed) =>
                match sign hmac_Sum assoc rparams signed with
                | Err err => (Returned, respond (indirect returnTo) (Err err) w)
                | Ok sig =>
                    (Returned,
                     respond (indirect returnTo) (Ok (<["sig" := sig]> rparams)) w)
                end
            end
        end
    end.

Definition login (h : Handler) (params : gmap string string) (w : World St)
  : outcome * World St :=
  match parseLoginRequest params with
  | Err err => (Returned, respond (indirect (params @ "return_to")) (Err err) w)
  | Ok req =>
      match login_switch h params req w with
      | inr end_ => end_
      | inl (resp, w) => login_id_res params resp w
      end
  end.

(** [ServeHTTP] from the decoded parameter map on ([ParseHTTP] of the query
    or of the posted form). *)
Definition ServeHTTP (h : Handler) (params : gmap string string) (w : World St)
  : outcome * World St :=
  let w :=
    if decide (params @ "ns" = Namespace) then w
    else respond (indirect (params @ "return_to")) (Err (ErrUnknownNs (params @ "ns"))) w in
  let mode := params @ "mode" in
  if decide (mode = "associate") then (Returned, respond direct (associate params) w)
  else if decide (mode = "checkid_immediate" ∨ mode = "checkid_setup") then
    login h params w
  else if decide (mode = "check_authentication") then
    let '(res, s) := checkAuthentication params (store w) in
    (Returned, respond direct res (with_store w s))
  else (Returned, respond (indirect (params @ "return_to")) (Err (ErrUnknownMode mode)) w).
End Handler.

(** ** Notions used in the statements *)

(** The line [sign] writes for one field: ["<field>:<value>\n"], where the
    value is the entry of the map or the empty string. *)
Definition signed_line (params : gmap string string) (field : string) : bytes :=
  to_bytes field ++ [":"%char] ++ to_bytes (default "" (params !! field)) ++ [newline].

(** ** Concrete environments for the examples *)

(** A stand-in for the MAC in the examples: the key followed by the message. *)
Definition example_hmac (f : hashFunc) (key msg : bytes) : bytes := key ++ msg.

(** A map is visited in the order of [map_to_list]. *)
Definition example_range (n : nat) (m : gmap string string) : list (string * string) :=
  map_to_list m.

Definition example_assoc : Association.t :=
  Association.mk "" "h1" (to_bytes "secret") hmacSHA256 2000.

Definition example_store : MemoryAssociationStore.t :=
  (MemoryAssociationStore.Add example_assoc MemoryAssociationStore.New).2.

(** A verification request whose [sig] is the signature of [mode]. *)
Definition example_check_params : gmap string string :=
  {[ "ns" := Namespace; "mode" := "check_authentication"; "assoc_handle" := "h1";
     "signed" := "mode"; "sig" := "c2VjcmV0bW9kZTpjaGVja19hdXRoZW50aWNhdGlvbgo=" ]}.

(** A world whose store holds [example_assoc], with clock readings 1000,
    1001, ... and the random bytes 65, 66, ... *)
Definition example_world : World MemoryAssociationStore.t :=
  mkWorld example_store (mkRand (λ n, Ok (ascii_of_nat (65 + n))) 0)
          (mkClock (λ n, 1000 + Z.of_nat n) 0) [].

(** An unexpired association stored under the empty handle. *)
Definition example_unnamed_assoc : Association.t :=
  Association.mk "" "" (to_bytes "secret") hmacSHA256 2000.

Definition example_unnamed_world : World MemoryAssociationStore.t :=
  mkWorld (MemoryAssociationStore.Add example_unnamed_assoc MemoryAssociationStore.New).2
          (mkRand (λ n, Ok (ascii_of_nat (65 + n))) 0)
          (mkClock (λ n, 1000 + Z.of_nat n) 0) [].


(** ** The prefixes [encodeExtensions] may choose *)

(** [p] is an admissible choice for an extension declaring [declared] when
    the prefixes in [earlier] are taken: it is neither reserved nor taken; it
    is the declared prefix unless that one is reserved or taken, and then it
    is the generated label [ext<n>] with the least [n] that is not taken. *)
Definition prefix_choice (earlier : list string) (declared p : string) : Prop :=
  bannedPrefixes p = false
  ∧ (p ∉ earlier)
  ∧ if bannedPrefixes declared || bool_decide (declared ∈ earlier) then
      ∃ n, p = ext_label n ∧ ∀ n', (n' < n)%nat → ext_label n' ∈ earlier
    else p = declared.

Fixpoint prefix_choices (earlier : list string) (extensions : list Extension.t)
    (chosen : list string) : Prop :=
  match extensions, chosen with
  | [], [] => True
  | ext :: extensions, p :: chosen =>
      prefix_choice earlier (Extension.Prefix ext) p
      ∧ prefix_choices (earlier ++ [p]) extensions chosen
  | _, _ => False
  end.

(** The signable field names of the extensions under the chosen prefixes:
    [<prefix>.<key>] for every parameter, extension by extension. *)
Fixpoint extension_fields (rg : nat → gmap string string → list (string * string))
    (n : nat) (chosen : list string) (extensions : list Extension.t) : list string :=
  match chosen, extensions with
  | p :: chosen, ext :: extensions =>
      ((λ kv, p +:+ "." +:+ kv.1) <$> rg n (Extension.Params ext))
        ++ extension_fields rg (S n) chosen extensions
  | _, _ => []
  end.

(** A field name with a dot in it. *)
Definition has_dot (s : string) : Prop := dot ∈ to_bytes s.

(** A collaborator that always answers with the same identity and one
    extension declaring the reserved prefix [mode]. *)
Definition example_response : LoginResponse.t :=
  LoginResponse.mk "https://example.org/u1" "" "https://op.example/id"
                   [Extension.mk "http://example.org/ext" "mode" {[ "a" := "1" ]}].

Definition example_handler : Handler (St := MemoryAssociationStore.t) :=
  mkHandler (Some (λ _ _ w, ((Some example_response, None), w))).

Definition example_login_params : gmap string string :=
  {[ "ns" := Namespace; "mode" := "checkid_setup";
     "return_to" := "https://rp.example/cb" ]}.

(** [example_check_params] with a namespace that is not the protocol's. *)
Definition example_bad_ns_params : gmap string string :=
  <["ns" := "bogus"]> example_check_params.

(** ** What a parameter map declares *)

(** The map declares the extension prefix [prefix] for the namespace [ns]. *)
Definition declares (params : gmap string string) (prefix ns : string) : Prop :=
  params !! ("ns." +:+ prefix) = Some ns.

(** A declaration of a dotted prefix next to a field under that prefix. *)
Definition example_dotted_params : gmap string string :=
  {[ "ns.a.b" := "http://example.org/ab"; "a.b.c" := "v" ]}.

Definition example_extension_params : gmap string string :=
  {[ "ns.sreg" := "http://openid.net/extensions/sreg/1.1";
     "sreg.required" := "email"; "other.key" := "ignored" ]}.

(** The entries of a map in the order a loop visits them. *)
Record visit (params : gmap string string) (kvs : list (string * string)) : Prop := {
  visit_NoDup : NoDup kvs.*1;
  visit_elem : ∀ k v, (k, v) ∈ kvs ↔ params !! k = Some v
}.

(** [prefix] is declared for [ns] by the map [prefixes] built so far or by
    one of the entries [kvs] still to be visited. *)
Definition declared_by (prefixes : gmap string string) (kvs : list (string * string))
    (prefix ns : string) : Prop :=
  prefixes !! prefix = Some ns ∨ ("ns." +:+ prefix, ns) ∈ kvs.

(** The extension [parseExtensions] creates for a declaration. *)
Definition declared_extension (pn : string * string) : Extension.t :=
  Extension.mk pn.2 pn.1 ∅.

(** A prefix under which [parseExtensions] collects fields: the part of a
    key before its first dot, which is not [ns]. *)
Definition collectable (prefix : string) : Prop :=
  prefix ≠ "ns" ∧ ¬ has_dot prefix.

(** ** The HTTP form of a message (keyvalue.go, first part) *)

(** [strings.CutPrefix]: the rest of [s] after [prefix], when [s] starts
    with it. *)
Fixpoint strings_CutPrefix (s prefix : string) {struct prefix} : option string :=
  match prefix with
  | EmptyString => Some s
  | String c prefix' =>
      match s with
      | EmptyString => None
      | String d s' => if decide (c = d) then strings_CutPrefix s' prefix' else None
      end
  end.

Definition strings_HasPrefix (s prefix : string) : bool :=
  bool_decide (is_Some (strings_CutPrefix s prefix)).

Definition strings_TrimPrefix (s prefix : string) : string :=
  default s (strings_CutPrefix s prefix).

(** [url.Values] *)
Abbreviation Values := (gmap string (list string)).

(** The body of the loop of [ParseHTTP]. *)
Definition ParseHTTP_entry (p : gmap string string) (kv : string * list string)
  : gmap string string :=
  if strings_HasPrefix kv.1 "openid." then
    match kv.2 with
    | x :: _ => <[strings_TrimPrefix kv.1 "openid." := x]> p
    | [] => p
    end
  else p.

(** [ParseHTTP]; [order] is the order in which the loop visits the values. *)
Definition ParseHTTP (order : Values → list (string * list string)) (v : Values)
  : gmap string string :=
  foldl ParseHTTP_entry ∅ (order v).

(** [v.Set(key, value)] *)
Definition Values_Set (v : Values) (key value : string) : Values :=
  <[key := [value]]> v.

(** [EncodeHTTP]: the updated values are returned. *)
Definition EncodeHTTP (rg : nat → gmap string string → list (string * string))
    (v : Values) (p : gmap string string) : Values :=
  foldl (λ v kv, Values_Set v ("openid." +:+ kv.1) kv.2) v (rg 0%nat p).

(** The iteration orders of a loop over [url.Values]. *)
Definition values_order (order : Values → list (string * list string)) : Prop :=
  ∀ v, order v ≡ₚ map_to_list v.

(** ** States of the in-memory store *)

(** The states reached from the new store by its methods. *)
Inductive reachable : MemoryAssociationStore.t → Prop :=
  | reachable_New : reachable MemoryAssociationStore.New
  | reachable_Add a s :
      reachable s → reachable (MemoryAssociationStore.Add a s).2
  | reachable_Delete endpoint handle s :
      reachable s → reachable (MemoryAssociationStore.Delete endpoint handle s).2.

(** Values visited in the order of [map_to_list]. *)
Definition example_values_order (v : Values) : list (string * list string) :=
  map_to_list v.

(** Query values with a field that has two values, a field without value
    and a key outside the protocol. *)
Definition example_values : Values :=
  {[ "openid.mode" := ["associate"; "ignored"]; "openid.empty" := [];
     "state" := ["kept"] ]}.

Definition example_message : gmap string string :=
  {[ "ns" := Namespace; "mode" := "id_res" ]}.

(** A MAC for telling messages apart: empty on [m], one byte elsewhere. *)
Definition indicator_hmac (m : bytes) (f : hashFunc) (key msg : bytes) : bytes :=
  if decide (msg = m) then [] else ["x"%char].

(** Two messages that differ in both fields, the second value of the one
    continuing the first value of the other after a newline. *)
Definition shifted_left (k1 k2 v u t : string) : gmap string string :=
  {[ k1 := v +:+ String newline (k2 +:+ ":" +:+ u); k2 := t ]}.
Definition shifted_right (k1 k2 v u t : string) : gmap string string :=
  {[ k1 := v; k2 := u +:+ String newline (k2 +:+ ":" +:+ t) ]}.

(** The direct verification request a relying party makes of the fields of
    a positive assertion. *)
Definition verification_request (fields : gmap string string) : gmap string string :=
  <["mode" := "check_authentication"]> fields.

(** The fields of an assertion about [example_response], and their
    signature by [example_assoc]. *)
Definition example_assertion : gmap string string * list string :=
  default (∅, [])
    (login_fields example_range example_login_params example_response "n1" example_assoc).

Definition example_sig : string :=
  match sign example_hmac example_assoc example_assertion.1 example_assertion.2 with
  | Ok sig => sig
  | Err _ => ""
  end.

(** A line of the key-value form without its final newline. *)
Definition key_value_line (kv : string * string) : bytes :=
  to_bytes kv.1 ++ ":"%char :: to_bytes kv.2.

(** A message whose second value contains colons. *)
Definition example_colon_message : gmap string string :=
  {[ "mode" := "id_res"; "return_to" := "https://rp.example/cb?x=1:2" ]}.

(** An [associate] request. *)
Definition example_associate_params : gmap string string :=
  {[ "ns" := Namespace; "mode" := "associate"; "session_type" := "DH-SHA256";
     "return_to" := "https://rp.example/cb" ]}.

(** ** What [encodeExtensions] writes *)

(** The entry [key := v] is written for the extension [ext] under the
    prefix [p]: its declaration or one of its fields. *)
Definition extension_entry (p : string) (ext : Extension.t) (key v : string) : Prop :=
  (key = "ns." +:+ p ∧ v = Extension.Namespace ext)
  ∨ ∃ k, key = p +:+ "." +:+ k ∧ Extension.Params ext !! k = Some v.

(** A prefix under which an extension is read back as it was written. *)
Definition plain_prefix (p : string) : Prop :=
  bannedPrefixes p = false ∧ ¬ has_dot p.

(** Two extensions of a response. *)
Definition example_extensions : list Extension.t :=
  [ Extension.mk "http://openid.net/extensions/sreg/1.1" "sreg"
                 {[ "email" := "u1@example.org"; "nickname" := "u1" ]};
    Extension.mk "http://example.org/ext" "" {[ "a.b" := "1" ]} ].

(** The map [encodeExtensions] makes of them, and the fields it lists. *)
Definition example_encoded : gmap string string * list string :=
  default (∅, []) (encodeExtensions example_range ∅ example_extensions).

(** ** Names that can be listed in [signed] *)

(** The field [signed] joins the names with commas. *)
Definition comma_free (s : string) : Prop := ","%char ∉ to_bytes s.

(** Neither the prefix of the extension nor the name of any of its
    parameters contains a comma. *)
Definition extension_comma_free (ext : Extension.t) : Prop :=
  comma_free (Extension.Prefix ext)
  ∧ ∀ k, is_Some (Extension.Params ext !! k) → comma_free k.

(** A login request that declares the reserved prefix [mode]. *)
Definition example_reserved_params : gmap string string :=
  <["ns.mode" := "http://example.org/ext"]> example_login_params.


(** * Properties *)

(** ** Splitting *)

Section SplitFacts.
Context {A : Type} `{EqDecision A}.
Implicit Types (l a b : list A) (sep : A).

Lemma cut_None sep l : cut sep l = None ↔ sep ∉ l.
Proof.
  induction l as [|x l IH]; simpl.
  - split; [intros _; apply not_elem_of_nil | done].
  - case_decide as Hx.
    + subst. split; [done | intros Hn; destruct Hn; left].
    + destruct (cut sep l) as [[a b]|] eqn:Hc.
      * split; [done|]. intros Hn. exfalso.
        assert (sep ∉ l) as Hl by (intros ?; apply Hn; by right).
        apply IH in Hl. done.
      * split; [|done]. intros _ [?|Hin]%elem_of_cons; [congruence|].
        by apply (proj1 IH).
Qed.

Lemma cut_Some sep l a b :
  cut sep l = Some (a, b) ↔ l = a ++ sep :: b ∧ sep ∉ a.
Proof.
  revert a. induction l as [|x l IH]; intros a; simpl.
  - split; [done|]. intros [Hl _]. by destruct a.
  - case_decide as Hx.
    + subst x. split.
      * intros [= <- <-]. split; [done | apply not_elem_of_nil].
      * intros [Hl Hn]. destruct a as [|y a]; simplify_eq/=; [done|].
        destruct Hn. left.
    + destruct (cut sep l) as [[a' b']|] eqn:Hc.
      * split.
        -- intros [= <- <-]. destruct (proj1 (IH a') eq_refl) as [-> Hn].
           split; [done|]. intros [?|?]%elem_of_cons; [congruence | done].
        -- intros [Hl Hn]. destruct a as [|y a]; simplify_eq/=.
           assert (Some (a', b') = Some (a, b)) as [= -> ->]; [|done].
           apply IH. split; [done|]. intros ?; apply Hn; by right.
      * split; [done|]. intros [Hl Hn]. destruct a as [|y a]; simplify_eq/=.
        assert (@None (list A * list A) = Some (a, b)); [|done].
        apply IH. split; [done|]. intros ?; apply Hn; by right.
Qed.

Lemma SplitN2_cases l sep :
  ((sep ∉ l) ∧ SplitN2 l sep = [l])
  ∨ (∃ a b, l = a ++ sep :: b ∧ (sep ∉ a) ∧ SplitN2 l sep = [a; b]).
Proof.
  unfold SplitN2. destruct (cut sep l) as [[a b]|] eqn:Hc.
  - right. exists a, b. apply cut_Some in Hc as [-> ?]. done.
  - left. by apply cut_None in Hc.
Qed.

Lemma SplitN2_app a b sep : sep ∉ a → SplitN2 (a ++ sep :: b) sep = [a; b].
Proof.
  intros Hn. unfold SplitN2.
  by rewrite (proj2 (cut_Some sep (a ++ sep :: b) a b) (conj eq_refl Hn)).
Qed.

Lemma Split_nonempty l sep : Split l sep ≠ [].
Proof.
  destruct l as [|x l]; simpl; [done|].
  case_decide; [done|]. by destruct (Split l sep).
Qed.

Lemma Split_snoc l sep : Split (l ++ [sep]) sep = Split l sep ++ [[]].
Proof.
  induction l as [|x l IH]; simpl.
  - by rewrite decide_True.
  - case_decide; [by rewrite IH|].
    rewrite IH. pose proof (Split_nonempty l sep).
    by destruct (Split l sep).
Qed.
End SplitFacts.

Lemma to_bytes_to_string b : to_bytes (to_string b) = b.
Proof. apply String.list_ascii_of_string_of_list_ascii. Qed.

Lemma to_string_to_bytes s : to_string (to_bytes s) = s.
Proof. apply String.string_of_list_ascii_of_string. Qed.

Lemma to_bytes_app s1 s2 : to_bytes (s1 +:+ s2) = to_bytes s1 ++ to_bytes s2.
Proof. induction s1 as [|c s1 IH]; simpl; [done|]. unfold to_bytes in *. simpl. by rewrite IH. Qed.

Global Instance to_bytes_inj : Inj (=) (=) to_bytes.
Proof. intros s1 s2 Hs. by rewrite <- (to_string_to_bytes s1), Hs, to_string_to_bytes. Qed.

(** ** Key-value form *)

Lemma ParseKeyValue_loop_Ok segs p :
  is_Ok (ParseKeyValue_loop segs p) ↔ Forall (λ seg, ":"%char ∈ seg) segs.
Proof.
  revert p. induction segs as [|b segs IH]; intros p; simpl.
  - split; [constructor | done].
  - destruct (SplitN2_cases b ":"%char) as [[Hn ->]|(k & v & -> & Hn & ->)].
    + split; [done|]. by intros [? _]%Forall_cons.
    + rewrite IH, Forall_cons. split; [|by intros [_ ?]].
      intros ?. split; [|done]. apply elem_of_app. right. left.
Qed.

Lemma WriteKeyValuePair_Buffer (w : Buffer) k v :
  WriteKeyValuePair w k v = (w ++ to_bytes k ++ ":"%char :: to_bytes v ++ [newline], None).
Proof. reflexivity. Qed.

Lemma EncodeKeyValue_loop_Buffer (w : Buffer) kvs :
  ∃ out, EncodeKeyValue_loop w kvs = (w ++ out, None)
         ∧ (kvs = [] ∧ out = [] ∨ kvs ≠ [] ∧ ∃ body, out = body ++ [newline]).
Proof.
  revert w. induction kvs as [|[k v] kvs IH]; intros w.
  - exists []. simpl. rewrite app_nil_r. auto.
  - cbn [EncodeKeyValue_loop]. rewrite WriteKeyValuePair_Buffer.
    destruct (IH (w ++ to_bytes k ++ ":"%char :: to_bytes v ++ [newline]))
      as (out & -> & Hout).
    exists ((to_bytes k ++ ":"%char :: to_bytes v ++ [newline]) ++ out).
    split; [by rewrite <- (assoc_L (++)) |].
    right. split; [done|].
    destruct Hout as [[_ ->]|[_ [body ->]]].
    + exists (to_bytes k ++ ":"%char :: to_bytes v).
      rewrite app_nil_r. by rewrite <- !(assoc_L (++)).
    + exists ((to_bytes k ++ ":"%char :: to_bytes v ++ [newline]) ++ body).
      by rewrite <- !(assoc_L (++)).
Qed.

(** C10: [ParseKeyValue] succeeds exactly when every newline-separated
    segment of its input, the one after the last newline included, contains
    a colon.  Every line [EncodeKeyValue] writes ends with a newline, so the
    last segment of its output is empty and [ParseKeyValue] rejects the
    bytes written for any parameter map, in whatever order the entries are
    visited. *)
Theorem ParseKeyValue_rejects_EncodeKeyValue :
  (∀ body, is_Ok (ParseKeyValue body)
           ↔ Forall (λ seg, ":"%char ∈ seg) (Split body newline))
  ∧ (∀ body, last (Split (body ++ [newline]) newline) = Some [])
  ∧ (∀ rg (p : gmap string string),
       let out := (EncodeKeyValue rg ([] : Buffer) p).1 in
       (EncodeKeyValue rg ([] : Buffer) p).2 = None
       ∧ (rg 0%nat p ≠ [] → ∃ body, out = body ++ [newline])
       ∧ ∃ b, ParseKeyValue out = Err (ErrInvalidKeyValueLine b)).
Proof.
  split; [|split].
  - intros body. apply ParseKeyValue_loop_Ok.
  - intros body. rewrite Split_snoc. apply last_snoc.
  - intros rg p. unfold EncodeKeyValue. simpl.
    destruct (EncodeKeyValue_loop_Buffer [] (rg 0%nat p)) as (out & -> & Hout).
    simpl. split; [done|]. split.
    + intros Hne. destruct Hout as [[? _]|[_ ?]]; done.
    + assert (¬ is_Ok (ParseKeyValue out)) as Hnot.
      { unfold ParseKeyValue. rewrite ParseKeyValue_loop_Ok.
        destruct Hout as [[_ ->]|[_ [body ->]]].
        - simpl. intros [Hc _]%Forall_cons. by apply not_elem_of_nil in Hc.
        - rewrite Split_snoc, Forall_app. intros [_ [Hc _]%Forall_cons].
          by apply not_elem_of_nil in Hc. }
      unfold ParseKeyValue in *.
      revert Hnot. generalize (∅ : gmap string string).
      induction (Split out newline) as [|b segs IH]; intros p0 Hnot; simpl in *.
      * by destruct Hnot.
      * destruct (SplitN2_cases b ":"%char) as [[Hn ->]|(k & v & -> & Hn & ->)];
          [by eexists|]. rewrite SplitN2_app in Hnot by done. by apply IH in Hnot.
Qed.

(** ** Signing *)

Lemma base64_digit_alphabet v :
  base64.digit v ∈ base64.encodeURL ∨ base64.digit v = base64.StdPadding.
Proof.
  unfold base64.digit.
  destruct (base64.encodeURL !! N.to_nat (N.land v 63)) as [c|] eqn:Hc; simpl.
  - left. by eapply list_elem_of_lookup_2.
  - by right.
Qed.

Lemma base64_EncodeToString_alphabet src :
  Forall (λ c, c ∈ base64.encodeURL ∨ c = base64.StdPadding) (base64.EncodeToString src).
Proof.
  induction src as [src IH] using (induction_ltof1 _ (@length ascii)).
  unfold ltof in IH.
  destruct src as [|a [|b [|c rest]]]; simpl.
  - constructor.
  - repeat apply Forall_cons_2; try apply base64_digit_alphabet; try (by right).
    constructor.
  - repeat apply Forall_cons_2; try apply base64_digit_alphabet; try (by right).
    constructor.
  - do 4 (apply Forall_cons_2; [apply base64_digit_alphabet|]).
    apply IH. simpl. lia.
Qed.

Section SignFacts.
Variable hmac_Sum : hashFunc → bytes → bytes → bytes.

Lemma sign_writes params signed h :
  foldl (λ h k, (WriteKeyValuePair h k (params @ k)).1) h signed
  = mkHash (hash_new h) (hash_key h)
           (hash_written h ++ concat (signed_line params <$> signed)).
Proof.
  revert h. induction signed as [|k signed IH]; intros h; simpl.
  - rewrite app_nil_r. by destruct h.
  - rewrite IH. simpl. f_equal. by rewrite <- (assoc_L (++)).
Qed.

Lemma sign_unfold (a : Association.t) (params : gmap string string) (signed : list string) :
  sign hmac_Sum a params signed =
    (if decide (Association.Type_ a = "HMAC-SHA1") then
       Ok (to_string (base64.EncodeToString
             (hmac_Sum sha1_New (Association.Secret a)
                       (concat (signed_line params <$> signed)))))
     else if decide (Association.Type_ a = "HMAC-SHA256") then
       Ok (to_string (base64.EncodeToString
             (hmac_Sum sha256_New (Association.Secret a)
                       (concat (signed_line params <$> signed)))))
     else Err (ErrUnsupportedAssociationType (Association.Type_ a))).
Proof.
  unfold sign, hmacSHA1, hmacSHA256.
  repeat case_decide; try done; rewrite sign_writes; done.
Qed.

(** [sign] reads the map only at the signed fields. *)
Lemma sign_ext a (p1 p2 : gmap string string) signed :
  Forall (λ k, p1 !! k = p2 !! k) signed →
  sign hmac_Sum a p1 signed = sign hmac_Sum a p2 signed.
Proof.
  intros Hsame. rewrite !sign_unfold.
  assert (signed_line p1 <$> signed = signed_line p2 <$> signed) as ->; [|done].
  apply Forall_fmap_ext_1. eapply Forall_impl; [done|].
  intros k Hk. unfold signed_line. by rewrite Hk.
Qed.

(** C1: for the types HMAC-SHA1 and HMAC-SHA256, [sign] returns the URL-safe
    base64 text of the HMAC, with the matching hash and keyed by the secret,
    of the lines ["<field>:<value>\n"] of the fields in the order given, the
    value being the entry of the map or the empty string when absent; for
    any other type it fails with the unsupported-type error. *)
Theorem sign_spec (a : Association.t) (params : gmap string string) (signed : list string) :
  let message := concat (signed_line params <$> signed) in
  let encode mac := to_string (base64.EncodeToString mac) in
  sign hmac_Sum a params signed =
    (if decide (Association.Type_ a = "HMAC-SHA1") then
       Ok (encode (hmac_Sum sha1_New (Association.Secret a) message))
     else if decide (Association.Type_ a = "HMAC-SHA256") then
       Ok (encode (hmac_Sum sha256_New (Association.Secret a) message))
     else Err (ErrUnsupportedAssociationType (Association.Type_ a)))
  ∧ ∀ sig, sign hmac_Sum a params signed = Ok sig →
      Forall (λ c, c ∈ base64.encodeURL ∨ c = "="%char) (to_bytes sig).
Proof.
  intros message encode.
  pose proof (sign_unfold a params signed) as Heq. fold message in Heq.
  split; [done|].
  intros sig. rewrite Heq. unfold encode.
  repeat case_decide; intros [= <-]; rewrite to_bytes_to_string;
    apply base64_EncodeToString_alphabet.
Qed.
End SignFacts.

(** ** The in-memory store *)

Module MemoryAssociationStoreFacts.
Import MemoryAssociationStore.

Lemma Get_Some endpoint handle s a err :
  Get endpoint handle s = (Some a, err) ↔
  err = None ∧ ∃ assocs, m s !! endpoint = Some assocs ∧ assocs !! handle = Some a.
Proof.
  unfold Get. destruct (m s !! endpoint) as [assocs|] eqn:He.
  - destruct (assocs !! handle) as [a'|] eqn:Hh.
    + split; [intros [= <- <-]; eauto|]. intros (-> & ? & [= <-] & Ha).
      rewrite Hh in Ha. by injection Ha as ->.
    + split; [done|]. intros (_ & ? & [= <-] & Ha). by rewrite Hh in Ha.
  - split; [done|]. by intros (_ & ? & ? & _).
Qed.

Lemma Get_no_error endpoint handle s : (Get endpoint handle s).2 = None.
Proof.
  unfold Get. destruct (m s !! endpoint) as [assocs|]; [|done].
  by destruct (assocs !! handle).
Qed.

Lemma Get_cases endpoint handle s :
  Get endpoint handle s = (None, None) ∨ ∃ a, Get endpoint handle s = (Some a, None).
Proof.
  unfold Get. destruct (m s !! endpoint) as [assocs|]; [|by left].
  destruct (assocs !! handle); eauto.
Qed.

Lemma wf_New : wf New.
Proof. intros endpoint handle assocs a Hm. simpl in Hm. by rewrite lookup_empty in Hm. Qed.

Lemma wf_Add a s : wf s → wf (Add a s).2.
Proof.
  intros Hwf. unfold Add.
  destruct (Get_cases (Association.Endpoint a) (Association.Handle a) s)
    as [->|[a' ->]]; simpl; [|done].
  intros endpoint handle assocs b. simpl.
  destruct (decide (Association.Endpoint a = endpoint)) as [<-|Hne].
  - rewrite lookup_insert_eq. intros [= <-].
    destruct (decide (Association.Handle a = handle)) as [<-|Hnh].
    + rewrite lookup_insert_eq. by intros [= <-].
    + rewrite lookup_insert_ne by done.
      destruct (m s !! Association.Endpoint a) as [assocs|] eqn:He; simpl.
      * intros Hb. by eapply Hwf.
      * by rewrite lookup_empty.
  - rewrite lookup_insert_ne by done. apply Hwf.
Qed.

Lemma wf_Delete endpoint handle s : wf s → wf (Delete endpoint handle s).2.
Proof.
  intros Hwf. unfold Delete.
  destruct (Get_cases endpoint handle s) as [->|[a' ->]]; simpl; [done|].
  intros e h assocs b. simpl.
  destruct (decide (endpoint = e)) as [<-|Hne].
  - rewrite lookup_alter_eq.
    destruct (m s !! endpoint) as [assocs0|] eqn:He; simpl; [|done].
    intros [= <-]. intros Hb.
    destruct (decide (handle = h)) as [<-|Hnh].
    + by rewrite lookup_delete_eq in Hb.
    + rewrite lookup_delete_ne in Hb by done. by eapply Hwf.
  - rewrite lookup_alter_ne by done. apply Hwf.
Qed.

Lemma Get_Delete_eq endpoint handle s :
  Get endpoint handle (Delete endpoint handle s).2 = (None, None).
Proof.
  unfold Delete.
  destruct (Get_cases endpoint handle s) as [Hg|[a Hg]]; rewrite Hg; simpl; [done|].
  apply Get_Some in Hg as (_ & assocs & He & Hh).
  unfold Get. simpl. rewrite lookup_alter_eq, He. simpl.
  by rewrite lookup_delete_eq.
Qed.

Lemma Get_Delete_ne endpoint handle e h s :
  (e, h) ≠ (endpoint, handle) →
  Get e h (Delete endpoint handle s).2 = Get e h s.
Proof.
  intros Hne. unfold Delete.
  destruct (Get_cases endpoint handle s) as [Hg|[a Hg]]; rewrite Hg; simpl; [done|].
  unfold Get. simpl.
  destruct (decide (endpoint = e)) as [<-|Hne'].
  - rewrite lookup_alter_eq.
    destruct (m s !! endpoint) as [assocs|]; simpl; [|done].
    rewrite lookup_delete_ne; [done|]. congruence.
  - by rewrite lookup_alter_ne.
Qed.

Lemma Delete_no_error endpoint handle s : (Delete endpoint handle s).1 = None.
Proof.
  unfold Delete. by destruct (Get_cases endpoint handle s) as [->|[a ->]].
Qed.
End MemoryAssociationStoreFacts.

(** ** Verification of an assertion *)

Section CheckAuthentication.
Variable hmac_Sum : hashFunc → bytes → bytes → bytes.

(** C2: [checkAuthentication] on the in-memory store answers absence and
    mismatch with [{ns, is_valid: false}], never with an error, and leaves
    the store as it is; on a match it deletes the association and answers
    [{ns, is_valid: true}], after which the same call answers
    [is_valid: false]. *)
Theorem checkAuthentication_spec (params : gmap string string)
    (s : MemoryAssociationStore.t) :
  MemoryAssociationStore.wf s →
  let handle := params @ "assoc_handle" in
  let signed := strings_Split (params @ "signed") ","%char in
  let invalid : gmap string string := {[ "ns" := Namespace; "is_valid" := "false" ]} in
  let valid : gmap string string := {[ "ns" := Namespace; "is_valid" := "true" ]} in
  match (MemoryAssociationStore.Get "" handle s).1 with
  | None => checkAuthentication hmac_Sum params s = (Ok invalid, s)
  | Some assoc =>
      match sign hmac_Sum assoc params signed with
      | Err err => checkAuthentication hmac_Sum params s = (Err err, s)
      | Ok sig =>
          if decide (params @ "sig" = sig) then
            ∃ s', checkAuthentication hmac_Sum params s = (Ok valid, s')
              ∧ MemoryAssociationStore.Get "" handle s' = (None, None)
              ∧ (∀ e h, (e, h) ≠ ("", handle) →
                   MemoryAssociationStore.Get e h s' = MemoryAssociationStore.Get e h s)
              ∧ checkAuthentication hmac_Sum params s' = (Ok invalid, s')
          else checkAuthentication hmac_Sum params s = (Ok invalid, s)
      end
  end.
Proof.
  intros Hwf handle signed invalid valid.
  unfold checkAuthentication. cbn [Get Delete MemoryAssociationStore_AssociationStore].
  fold handle. fold signed.
  destruct (MemoryAssociationStoreFacts.Get_cases "" handle s) as [Hg|[assoc Hg]];
    rewrite Hg; simpl; [done|].
  destruct (sign hmac_Sum assoc params signed) as [sig|err]; [|done].
  destruct (decide (params @ "sig" = sig)) as [Heq|Hne].
  - rewrite decide_False by (intros Hn; by apply Hn).
    assert (Association.Handle assoc = handle) as ->.
    { apply MemoryAssociationStoreFacts.Get_Some in Hg as (_ & assocs & He & Hh).
      by destruct (Hwf _ _ _ _ He Hh). }
    destruct (MemoryAssociationStore.Delete "" handle s) as [e s'] eqn:Hd.
    assert (s' = (MemoryAssociationStore.Delete "" handle s).2) as Hs' by by rewrite Hd.
    exists s'. split; [done|].
    assert (MemoryAssociationStore.Get "" handle s' = (None, None)) as Hg'.
    { rewrite Hs'. apply MemoryAssociationStoreFacts.Get_Delete_eq. }
    split; [done|]. split.
    + intros e' h Hneq. rewrite Hs'.
      by apply MemoryAssociationStoreFacts.Get_Delete_ne.
    + by rewrite Hg'.
  - by rewrite decide_True.
Qed.
End CheckAuthentication.

Lemma checkAuthentication_spec_witness :
  MemoryAssociationStore.wf example_store
  ∧ ∃ s', checkAuthentication example_hmac example_check_params example_store
            = (Ok {[ "ns" := Namespace; "is_valid" := "true" ]}, s')
      ∧ MemoryAssociationStore.Get "" "h1" s' = (None, None)
      ∧ (∀ e h, (e, h) ≠ ("", "h1") →
           MemoryAssociationStore.Get e h s' = MemoryAssociationStore.Get e h example_store)
      ∧ checkAuthentication example_hmac example_check_params s'
          = (Ok {[ "ns" := Namespace; "is_valid" := "false" ]}, s').
Proof.
  assert (MemoryAssociationStore.wf example_store) as Hwf.
  { apply MemoryAssociationStoreFacts.wf_Add, MemoryAssociationStoreFacts.wf_New. }
  split; [exact Hwf|].
  exact (checkAuthentication_spec example_hmac example_check_params example_store Hwf).
Defined.

(** ** The random source *)

Lemma rand_fill_length src pos n b : rand_fill src pos n = Ok b → length b = n.
Proof.
  revert pos b. induction n as [|n IH]; intros pos b; simpl.
  - by intros [= <-].
  - destruct (src pos); [|done].
    destruct (rand_fill src (S pos) n) eqn:Hf; [|done].
    intros [= <-]. simpl. f_equal. by eapply IH.
Qed.

Lemma rand_Read_Ok n r b r' :
  rand_Read n r = (Ok b, r') ↔
  rand_fill (rand_src r) (rand_pos r) n = Ok b
  ∧ r' = mkRand (rand_src r) (rand_pos r + n).
Proof.
  unfold rand_Read. destruct (rand_fill (rand_src r) (rand_pos r) n).
  - split; [by intros [= <- <-] | by intros [[= <-] ->]].
  - split; [done | by intros [? _]].
Qed.

Lemma rand_Read_Err n r e r' :
  rand_Read n r = (Err e, r') ↔
  rand_fill (rand_src r) (rand_pos r) n = Err e ∧ r' = r.
Proof.
  unfold rand_Read. destruct (rand_fill (rand_src r) (rand_pos r) n).
  - split; [done | by intros [? _]].
  - split; [by intros [= <- <-] | by intros [[= <-] ->]].
Qed.

(** ** Storing a new association *)

Section SaveAssociationAnyStore.
Context {St : Type} `{AssociationStore St}.

Lemma saveAssociation_loop_attempt n a (w : World St) handle r :
  rand_Read 16 (rand w) = (Ok handle, r) →
  let a1 := with_Handle a (to_string (ascii85.Encode handle)) in
  let w1 s := with_store (with_rand w r) s in
  match Add a1 (store w) with
  | (None, s) => saveAssociation_loop (S n) a w = ((None, a1), w1 s)
  | (Some err, s) =>
      if decide (err = ErrDuplicateAssociation) then
        saveAssociation_loop (S n) a w = saveAssociation_loop n a1 (w1 s)
      else saveAssociation_loop (S n) a w = ((Some err, a1), w1 s)
  end.
Proof.
  intros Hr a1 w1. cbn [saveAssociation_loop]. rewrite Hr. fold a1.
  destruct (Add a1 (store w)) as [[err|] s]; [|done].
  destruct (decide (err = ErrDuplicateAssociation)) as [->|Hne].
  - by rewrite decide_False by (intros Hn; by apply Hn).
  - by rewrite decide_True.
Qed.

Lemma saveAssociation_loop_rand n a (w : World St) :
  ∃ k, (k ≤ n)%nat
       ∧ rand (saveAssociation_loop n a w).2
         = mkRand (rand_src (rand w)) (rand_pos (rand w) + 16 * k).
Proof.
  revert a w. induction n as [|n IH]; intros a w.
  - exists 0%nat. split; [lia|]. simpl. rewrite Nat.add_0_r. by destruct (rand w).
  - cbn [saveAssociation_loop].
    destruct (rand_Read 16 (rand w)) as [[handle|err] r] eqn:Hr.
    + apply rand_Read_Ok in Hr as [_ ->].
      destruct (Add _ (store w)) as [[err|] s].
      * case_decide.
        -- exists 1%nat. split; [lia|]. simpl. f_equal; lia.
        -- destruct (IH (with_Handle a (to_string (ascii85.Encode handle)))
                       (with_store (with_rand w
                          (mkRand (rand_src (rand w)) (rand_pos (rand w) + 16))) s))
             as (k & Hk & ->).
           exists (S k). split; [lia|]. simpl. f_equal; lia.
      * exists 1%nat. split; [lia|]. simpl. f_equal; lia.
    + apply rand_Read_Err in Hr as [_ ->].
      exists 0%nat. split; [lia|]. simpl. rewrite Nat.add_0_r. by destruct (rand w).
Qed.
End SaveAssociationAnyStore.

Module MemoryAddFacts.
Import MemoryAssociationStore MemoryAssociationStoreFacts.

Lemma Add_present a b s :
  Get (Association.Endpoint a) (Association.Handle a) s = (Some b, None) →
  Add a s = (Some ErrDuplicateAssociation, s).
Proof. intros Hg. unfold Add. by rewrite Hg. Qed.

Lemma Add_cases a s :
  (Add a s = (Some ErrDuplicateAssociation, s)
   ∧ ∃ b, Get (Association.Endpoint a) (Association.Handle a) s = (Some b, None))
  ∨ ((Add a s).1 = None
     ∧ Get (Association.Endpoint a) (Association.Handle a) s = (None, None)).
Proof.
  unfold Add.
  destruct (Get_cases (Association.Endpoint a) (Association.Handle a) s)
    as [Hg|[b Hg]]; rewrite Hg; [right|left]; eauto.
Qed.

Lemma Get_Add_eq a s :
  (Add a s).1 = None →
  Get (Association.Endpoint a) (Association.Handle a) (Add a s).2 = (Some a, None).
Proof.
  intros Hadd. destruct (Add_cases a s) as [[Hd _]|[_ Hg]].
  { by rewrite Hd in Hadd. }
  unfold Add. rewrite Hg. unfold Get. simpl.
  by rewrite !lookup_insert_eq.
Qed.

Lemma Get_Add_ne a s e h :
  (e, h) ≠ (Association.Endpoint a, Association.Handle a) →
  Get e h (Add a s).2 = Get e h s.
Proof.
  intros Hne. unfold Add.
  destruct (Get_cases (Association.Endpoint a) (Association.Handle a) s)
    as [Hg|[b Hg]]; rewrite Hg; simpl; [|done].
  unfold Get. simpl.
  destruct (decide (Association.Endpoint a = e)) as [<-|Hne'].
  - rewrite lookup_insert_eq.
    rewrite lookup_insert_ne by congruence.
    destruct (m s !! Association.Endpoint a) as [assocs|]; simpl; [done|].
    by rewrite lookup_empty.
  - by rewrite lookup_insert_ne.
Qed.
End MemoryAddFacts.

Section SaveAssociationMemory.
Import MemoryAssociationStoreFacts MemoryAddFacts.
Implicit Types (w : World MemoryAssociationStore.t) (a : Association.t).

(** What a run of the loop leaves behind on the in-memory store. *)
Lemma saveAssociation_loop_memory n a w :
  match saveAssociation_loop n a w with
  | ((None, a'), w') =>
      a' = with_Handle a (Association.Handle a')
      ∧ MemoryAssociationStore.Get (Association.Endpoint a) (Association.Handle a') (store w) = (None, None)
      ∧ (MemoryAssociationStore.Add a' (store w)).1 = None
      ∧ store w' = (MemoryAssociationStore.Add a' (store w)).2
      ∧ clock w' = clock w ∧ written w' = written w
  | ((Some err, _), w') =>
      store w' = store w ∧ clock w' = clock w ∧ written w' = written w
  end.
Proof.
  revert a w. induction n as [|n IH]; intros a w; cbn [saveAssociation_loop].
  - done.
  - destruct (rand_Read 16 (rand w)) as [[handle|err] r]; [|done].
    set (a1 := with_Handle a (to_string (ascii85.Encode handle))).
    cbn [Add MemoryAssociationStore_AssociationStore].
    destruct (Add_cases a1 (store w)) as [[Hd _]|[Hn Hg]].
    + rewrite Hd. rewrite decide_False by (intros Hne; by apply Hne).
      specialize (IH a1 (with_store (with_rand w r) (store w))).
      destruct (saveAssociation_loop n a1 _) as [[[err|] a'] w']; [done|].
      simpl in IH. destruct IH as (Ha' & IH). split; [|done].
      rewrite Ha'. by destruct a.
    + destruct (MemoryAssociationStore.Add a1 (store w)) as [e s] eqn:Hadd.
      simpl in Hn. subst e. simpl. rewrite Hadd. simpl.
      split; [by destruct a|]. done.
Qed.

(** When every one of the [n] handles the source would yield is taken, the
    loop gives up after generating all of them. *)
Lemma saveAssociation_loop_taken n a w :
  (∀ k, (k < n)%nat → ∃ b,
     rand_fill (rand_src (rand w)) (rand_pos (rand w) + 16 * k) 16 = Ok b
     ∧ (MemoryAssociationStore.Get (Association.Endpoint a) (to_string (ascii85.Encode b)) (store w)).1 ≠ None) →
  (saveAssociation_loop n a w).1.1 = Some ErrCannotStoreAssociation
  ∧ store (saveAssociation_loop n a w).2 = store w
  ∧ rand_pos (rand (saveAssociation_loop n a w).2) = (rand_pos (rand w) + 16 * n)%nat.
Proof.
  revert a w. induction n as [|n IH]; intros a w Htaken; cbn [saveAssociation_loop].
  - simpl. split; [done|]. split; [done|]. lia.
  - destruct (Htaken 0%nat) as (b & Hb & Hpresent); [lia|].
    rewrite Nat.mul_0_r, Nat.add_0_r in Hb.
    unfold rand_Read. rewrite Hb.
    set (a1 := with_Handle a (to_string (ascii85.Encode b))).
    cbn [Add MemoryAssociationStore_AssociationStore].
    destruct (Get_cases (Association.Endpoint a) (to_string (ascii85.Encode b)) (store w))
      as [Hg|[c Hg]]; [by rewrite Hg in Hpresent|].
    rewrite (Add_present a1 c (store w)) by (by destruct a).
    rewrite decide_False by (intros Hne; by apply Hne).
    destruct (IH a1 (with_store (with_rand w
                (mkRand (rand_src (rand w)) (rand_pos (rand w) + 16))) (store w)))
      as (He & Hs & Hp).
    { intros k Hk. destruct (Htaken (S k)) as (b' & Hb' & Hp'); [lia|].
      exists b'. cbn [rand store with_store with_rand rand_src rand_pos].
      split; [|done]. rewrite <- Hb'. f_equal. lia. }
    rewrite He, Hs, Hp. simpl. split; [done|]. split; [done|]. lia.
Qed.
End SaveAssociationMemory.

(** C9: storing a new association generates at most ten handles, each the
    ascii85 text of 16 fresh random bytes tried with [Add]; a reported
    duplicate leads to the next attempt, any other error of the store ends
    the operation with that error, and after ten duplicates the operation
    fails.  On the in-memory store a success puts the association under a
    handle that was free, leaving every other entry as it was, and a
    failure leaves the store unchanged. *)
Theorem saveAssociation_spec :
  (∀ St (H : AssociationStore St) a (w : World St),
      ∃ k, (k ≤ 10)%nat
           ∧ rand (saveAssociation a w).2
             = mkRand (rand_src (rand w)) (rand_pos (rand w) + 16 * k))
  ∧ (∀ St (H : AssociationStore St) n a (w : World St) handle r,
      rand_Read 16 (rand w) = (Ok handle, r) →
      length handle = 16%nat
      ∧ let a1 := with_Handle a (to_string (ascii85.Encode handle)) in
        let w1 s := with_store (with_rand w r) s in
        match Add a1 (store w) with
        | (None, s) => saveAssociation_loop (S n) a w = ((None, a1), w1 s)
        | (Some err, s) =>
            if decide (err = ErrDuplicateAssociation) then
              saveAssociation_loop (S n) a w = saveAssociation_loop n a1 (w1 s)
            else saveAssociation_loop (S n) a w = ((Some err, a1), w1 s)
        end)
  ∧ (∀ St (H : AssociationStore St) n a (w : World St) err r,
      rand_Read 16 (rand w) = (Err err, r) →
      saveAssociation_loop (S n) a w = ((Some err, a), w))
  ∧ (∀ St (H : AssociationStore St) a (w : World St),
      saveAssociation_loop 0 a w = ((Some ErrCannotStoreAssociation, a), w))
  ∧ (∀ a (w : World MemoryAssociationStore.t),
      (∀ k, (k < 10)%nat → ∃ b,
         rand_fill (rand_src (rand w)) (rand_pos (rand w) + 16 * k) 16 = Ok b
         ∧ (MemoryAssociationStore.Get (Association.Endpoint a)
              (to_string (ascii85.Encode b)) (store w)).1 ≠ None) →
      (saveAssociation a w).1.1 = Some ErrCannotStoreAssociation
      ∧ store (saveAssociation a w).2 = store w
      ∧ rand_pos (rand (saveAssociation a w).2) = (rand_pos (rand w) + 160)%nat)
  ∧ (∀ a (w : World MemoryAssociationStore.t),
      match saveAssociation a w with
      | ((None, a'), w') =>
          a' = with_Handle a (Association.Handle a')
          ∧ MemoryAssociationStore.Get (Association.Endpoint a) (Association.Handle a')
              (store w) = (None, None)
          ∧ MemoryAssociationStore.Get (Association.Endpoint a) (Association.Handle a')
              (store w') = (Some a', None)
          ∧ ∀ e h, (e, h) ≠ (Association.Endpoint a, Association.Handle a') →
              MemoryAssociationStore.Get e h (store w')
              = MemoryAssociationStore.Get e h (store w)
      | ((Some err, _), w') => store w' = store w
      end).
Proof.
  repeat split.
  - intros St H a w. apply saveAssociation_loop_rand.
  - apply rand_Read_Ok in H0 as [Hf _]. by eapply rand_fill_length.
  - by apply saveAssociation_loop_attempt.
  - intros St H n a w err r Hr. cbn [saveAssociation_loop]. rewrite Hr.
    apply rand_Read_Err in Hr as [_ ->]. by destruct w.
  - by apply saveAssociation_loop_taken.
  - by apply saveAssociation_loop_taken.
  - apply (saveAssociation_loop_taken 10). done.
  - intros a w. unfold saveAssociation.
    pose proof (saveAssociation_loop_memory 10 a w) as Hm.
    destruct (saveAssociation_loop 10 a w) as [[[err|] a'] w']; [by destruct Hm|].
    destruct Hm as (Ha' & Hfree & Hadd & Hs & _).
    assert (Association.Endpoint a' = Association.Endpoint a) as He
      by (rewrite Ha'; by destruct a).
    split; [done|]. split; [done|]. rewrite Hs. split.
    + rewrite <- He. by apply MemoryAddFacts.Get_Add_eq.
    + intros e h Hne. apply MemoryAddFacts.Get_Add_ne. by rewrite He.
Qed.

(** ** Getting or creating an association *)

Section GetAssociation.
Implicit Types (w : World MemoryAssociationStore.t) (a : Association.t).



End GetAssociation.



(** The guard on the empty handle shows only in a store that was given an
    association under the empty handle through [Add], which
    [getAssociation] itself never does: that association is not returned,
    a new one is generated. *)
Lemma getAssociation_empty_handle_no_lookup :
  ¬ (∀ (requestHandle nonce : string) (w : World MemoryAssociationStore.t) a,
       MemoryAssociationStore.Get "" requestHandle (store w) = (Some a, None) →
       clock_src (clock w) (clock_pos (clock w)) < Association.Expires a →
       (getAssociation requestHandle nonce w).1 = (Some a, None)).
Proof.
  intros Hclaim.
  specialize (Hclaim "" "" example_unnamed_world example_unnamed_assoc eq_refl eq_refl).
  vm_compute in Hclaim. discriminate Hclaim.
Qed.

(** ** Encoding extensions *)

Lemma ext_label_inj i j : ext_label i = ext_label j → i = j.
Proof.
  unfold ext_label. intros Heq.
  apply (inj (String.app "ext")) in Heq. by apply (inj pretty) in Heq.
Qed.

Lemma bannedPrefixes_ext_label i : bannedPrefixes (ext_label i) = false.
Proof.
  unfold bannedPrefixes, bannedPrefixes_keys. apply bool_decide_eq_false_2.
  unfold ext_label. generalize (pretty i). intros s Hin.
  repeat (apply elem_of_cons in Hin as [Hin|Hin]; [by vm_compute in Hin|]).
  by apply not_elem_of_nil in Hin.
Qed.

(** The search through the generated labels ends before the taken ones
    are exhausted. *)
Lemma encodeExtensions_prefix_search fuel (used X : gset string) i :
  (size X ≤ fuel)%nat →
  (∀ j, (i ≤ j)%nat → ext_label j ∈ used → ext_label j ∈ X) →
  ∃ k, encodeExtensions_prefix fuel used (ext_label i) (S i)
       = Some (ext_label (i + k), S (i + k))
     ∧ (ext_label (i + k) ∉ used)
     ∧ ∀ k', (k' < k)%nat → ext_label (i + k') ∈ used.
Proof.
  revert X i. induction fuel as [|fuel IH]; intros X i Hsize HX.
  - exists 0%nat. rewrite Nat.add_0_r.
    assert (ext_label i ∉ used) as Hn.
    { intros Hin. apply HX in Hin; [|lia].
      assert (size X = 0%nat) as Hs by lia.
      apply size_empty_iff in Hs. set_solver. }
    cbn [encodeExtensions_prefix].
    rewrite bannedPrefixes_ext_label, bool_decide_eq_false_2 by done.
    split; [done|]. split; [done|]. intros; lia.
  - destruct (decide (ext_label i ∈ used)) as [Hin|Hn].
    + cbn [encodeExtensions_prefix].
      rewrite bannedPrefixes_ext_label, bool_decide_eq_true_2 by done. simpl.
      destruct (IH (X ∖ {[ ext_label i ]}) (S i)) as (k & Hk & Hfree & Hbelow).
      { assert (ext_label i ∈ X) as HiX by (apply HX; [lia|done]).
        pose proof (size_difference X {[ ext_label i ]}) as Hd.
        rewrite size_singleton in Hd.
        assert ({[ext_label i]} ⊆ X) as Hsub by set_solver.
        specialize (Hd Hsub).
        assert (size X ≠ 0%nat).
        { intros Hz. apply size_empty_iff in Hz. set_solver. }
        lia. }
      { intros j Hj Hju. apply elem_of_difference. split; [apply HX; [lia|done]|].
        intros ->%elem_of_singleton%ext_label_inj. lia. }
      exists (S k). replace (i + S k)%nat with (S i + k)%nat by lia.
      split; [done|]. split; [done|].
      intros k' Hk'. destruct k' as [|k']; [by rewrite Nat.add_0_r|].
      replace (i + S k')%nat with (S i + k')%nat by lia. apply Hbelow. lia.
    + exists 0%nat. rewrite Nat.add_0_r. cbn [encodeExtensions_prefix].
      rewrite bannedPrefixes_ext_label, bool_decide_eq_false_2 by done.
      split; [done|]. split; [done|]. intros; lia.
Qed.

Lemma encodeExtensions_prefix_spec (used : gset string) (earlier : list string)
    (declared : string) (i : nat) :
  (∀ s, s ∈ used ↔ s ∈ earlier) →
  (∀ j, (j < i)%nat → ext_label j ∈ used) →
  ∃ p i', encodeExtensions_prefix (S (size used)) used declared i = Some (p, i')
    ∧ prefix_choice earlier declared p
    ∧ ∀ j, (j < i')%nat → ext_label j ∈ ({[ p ]} ∪ used : gset string).
Proof.
  intros Hused Hbelow. unfold prefix_choice.
  assert (bool_decide (declared ∈ earlier) = bool_decide (declared ∈ used)) as Hdec.
  { apply bool_decide_ext. symmetry. apply Hused. }
  rewrite Hdec.
  cbn [encodeExtensions_prefix].
  destruct (bannedPrefixes declared || bool_decide (declared ∈ used)) eqn:Htest.
  - destruct (encodeExtensions_prefix_search (size used) used used i)
      as (k & -> & Hfree & Hk); [done..|].
    eexists _, _. split; [done|]. split.
    + split; [apply bannedPrefixes_ext_label|]. split; [by rewrite <- Hused|].
      exists (i + k)%nat. split; [done|]. intros n' Hn'. apply Hused.
      destruct (decide (n' < i)%nat); [by apply Hbelow|].
      replace n' with (i + (n' - i))%nat by lia. apply Hk. lia.
    + intros j Hj. destruct (decide (j = i + k)%nat) as [->|].
      { by apply elem_of_union_l, elem_of_singleton. }
      apply elem_of_union_r.
      destruct (decide (j < i)%nat); [by apply Hbelow|].
      replace j with (i + (j - i))%nat by lia. apply Hk. lia.
  - apply orb_false_iff in Htest as [Hb Hu]. apply bool_decide_eq_false in Hu.
    exists declared, i. split; [done|]. split.
    + split; [done|]. split; [by rewrite <- Hused | done].
    + intros j Hj. apply elem_of_union_r. by apply Hbelow.
Qed.

Lemma encodeExtensions_param_foldl prefix kvs (params : gmap string string) signed :
  foldl (encodeExtensions_param prefix) (params, signed) kvs
  = (foldl (λ m kv, <[prefix +:+ "." +:+ kv.1 := kv.2]> m) params kvs,
     signed ++ ((λ kv, prefix +:+ "." +:+ kv.1) <$> kvs)).
Proof.
  revert params signed. induction kvs as [|kv kvs IH]; intros params signed; simpl.
  - by rewrite app_nil_r.
  - unfold encodeExtensions_param at 2. simpl. rewrite IH.
    by rewrite <- (assoc_L (++)).
Qed.

Lemma foldl_insert_is_Some {B} (f : B → string) (g : B → string) (l : list B)
    (m : gmap string string) key :
  is_Some (m !! key) → is_Some (foldl (λ m x, <[f x := g x]> m) m l !! key).
Proof.
  revert m. induction l as [|x l IH]; intros m Hm; simpl; [done|].
  apply IH. rewrite lookup_insert. case_decide; [by eexists | done].
Qed.

Lemma encodeExtensions_loop_spec rg extensions n st0 :
  (∀ s, s ∈ enc_used st0 ↔ s ∈ enc_chosen st0) →
  (∀ j, (j < enc_i st0)%nat → ext_label j ∈ enc_used st0) →
  ∃ st new, encodeExtensions_loop rg n extensions st0 = Some st
    ∧ enc_chosen st = enc_chosen st0 ++ new
    ∧ prefix_choices (enc_chosen st0) extensions new
    ∧ enc_signed st = enc_signed st0 ++ extension_fields rg n new extensions
    ∧ (∀ key, is_Some (enc_params st0 !! key) → is_Some (enc_params st !! key))
    ∧ (∀ p, p ∈ new → is_Some (enc_params st !! ("ns." +:+ p))).
Proof.
  revert n st0. induction extensions as [|ext extensions IH]; intros n st0 Hused Hbelow.
  - exists st0, []. simpl. rewrite !app_nil_r. repeat split; try done.
    intros p Hp. by apply not_elem_of_nil in Hp.
  - cbn [encodeExtensions_loop].
    destruct (encodeExtensions_prefix_spec (enc_used st0) (enc_chosen st0)
                (Extension.Prefix ext) (enc_i st0) Hused Hbelow)
      as (p & i' & -> & Hchoice & Hbelow').
    rewrite encodeExtensions_param_foldl.
    set (params' := foldl _ _ _).
    destruct (IH (S n) (mkEncoding i' ({[ p ]} ∪ enc_used st0) params'
                     (enc_signed st0 ++ ((λ kv, p +:+ "." +:+ kv.1)
                                           <$> rg n (Extension.Params ext)))
                     (enc_chosen st0 ++ [p])))
      as (st & new & -> & Hchosen & Hchoices & Hsigned & Hkeep & Hns).
    { intros s. simpl. rewrite elem_of_union, elem_of_singleton, elem_of_app,
        list_elem_of_singleton, Hused. tauto. }
    { done. }
    simpl in *. exists st, (p :: new). split; [done|].
    split; [by rewrite Hchosen, <- (assoc_L (++))|].
    split; [done|].
    split; [by rewrite Hsigned, <- (assoc_L (++))|].
    assert (∀ key, is_Some (<["ns." +:+ p := Extension.Namespace ext]> (enc_params st0) !! key)
                   → is_Some (enc_params st !! key)) as Hkeep'.
    { intros key Hkey. apply Hkeep. unfold params'.
      by apply (foldl_insert_is_Some (λ kv, p +:+ "." +:+ kv.1) snd). }
    split.
    + intros key Hkey. apply Hkeep'. rewrite lookup_insert.
      case_decide; [by eexists | done].
    + intros q [->|Hq]%elem_of_cons; [|by apply Hns].
      apply Hkeep'. rewrite lookup_insert_eq. by eexists.
Qed.

Lemma prefix_choices_length earlier extensions chosen :
  prefix_choices earlier extensions chosen → length chosen = length extensions.
Proof.
  revert earlier chosen.
  induction extensions as [|ext extensions IH]; intros earlier [|p chosen]; simpl; try done.
  intros [_ Hrest]. f_equal. by eapply IH.
Qed.

Lemma prefix_choices_not_banned earlier extensions chosen :
  prefix_choices earlier extensions chosen →
  Forall (λ p, bannedPrefixes p = false) chosen.
Proof.
  revert earlier chosen.
  induction extensions as [|ext extensions IH]; intros earlier [|p chosen]; simpl; try done.
  intros [[Hb _] Hrest]. constructor; [done|]. by eapply IH.
Qed.

Lemma prefix_choices_NoDup earlier extensions chosen :
  NoDup earlier → prefix_choices earlier extensions chosen → NoDup (earlier ++ chosen).
Proof.
  revert earlier chosen.
  induction extensions as [|ext extensions IH]; intros earlier [|p chosen] Hnd; simpl;
    try done.
  - by rewrite app_nil_r.
  - intros [(_ & Hfresh & _) Hrest].
    rewrite (cons_middle p earlier chosen), (assoc_L (++)).
    apply IH; [|done]. apply NoDup_app. split; [done|]. split.
    + intros x Hx ->%list_elem_of_singleton. done.
    + apply NoDup_singleton.
Qed.

(** C8: [encodeExtensions] always finishes, and the prefixes it gives to the
    extensions are never reserved and pairwise different; each one is the
    declared prefix unless that is reserved or was given to an earlier
    extension of the same call, and is then the first label among [ext0],
    [ext1], ... that has not been given yet.  The emitted fields are the key
    [ns.<prefix>] of every chosen prefix and the signable names
    [<prefix>.<key>]. *)
Theorem encodeExtensions_prefixes rg (params : gmap string string)
    (extensions : list Extension.t) :
  ∃ st, encodeExtensions_loop rg 0 extensions (mkEncoding 0 ∅ params [] []) = Some st
    ∧ encodeExtensions rg params extensions = Some (enc_params st, enc_signed st)
    ∧ length (enc_chosen st) = length extensions
    ∧ Forall (λ p, bannedPrefixes p = false) (enc_chosen st)
    ∧ NoDup (enc_chosen st)
    ∧ prefix_choices [] extensions (enc_chosen st)
    ∧ enc_signed st = extension_fields rg 0 (enc_chosen st) extensions
    ∧ ∀ p, p ∈ enc_chosen st → is_Some (enc_params st !! ("ns." +:+ p)).
Proof.
  destruct (encodeExtensions_loop_spec rg extensions 0 (mkEncoding 0 ∅ params [] []))
    as (st & new & Hloop & Hchosen & Hchoices & Hsigned & _ & Hns).
  { intros s. simpl. set_solver. }
  { simpl. intros; lia. }
  simpl in *. subst new. exists st. split; [done|].
  split; [unfold encodeExtensions; by rewrite Hloop|].
  split; [by eapply prefix_choices_length|].
  split; [by eapply prefix_choices_not_banned|].
  split; [by apply (prefix_choices_NoDup [] extensions); [apply NoDup_nil|]|].
  done.
Qed.

(** Keys without a dot are out of reach of [encodeExtensions]. *)
Lemma has_dot_ns p : has_dot ("ns." +:+ p).
Proof.
  unfold has_dot. rewrite to_bytes_app. apply elem_of_app. left.
  cbv [to_bytes String.list_ascii_of_string]. repeat constructor.
Qed.

Lemma has_dot_field p k : has_dot (p +:+ "." +:+ k).
Proof.
  unfold has_dot. rewrite !to_bytes_app. apply elem_of_app. right.
  apply elem_of_app. left. cbv [to_bytes String.list_ascii_of_string]. constructor.
Qed.

Lemma foldl_insert_other {B} (f g : B → string) (l : list B)
    (m : gmap string string) key :
  (∀ x, f x ≠ key) → foldl (λ m x, <[f x := g x]> m) m l !! key = m !! key.
Proof.
  intros Hne. revert m. induction l as [|x l IH]; intros m; simpl; [done|].
  rewrite IH. by rewrite lookup_insert_ne.
Qed.

Lemma encodeExtensions_loop_dotless rg extensions n st0 st key :
  encodeExtensions_loop rg n extensions st0 = Some st →
  ¬ has_dot key → enc_params st !! key = enc_params st0 !! key.
Proof.
  intros Hloop Hkey. revert n st0 Hloop.
  induction extensions as [|ext extensions IH]; intros n st0; cbn [encodeExtensions_loop].
  - by intros [= ->].
  - destruct (encodeExtensions_prefix _ _ _ _) as [[p i]|]; [|done].
    rewrite encodeExtensions_param_foldl. intros Hloop.
    rewrite (IH _ _ Hloop). cbn [enc_params].
    rewrite (foldl_insert_other (λ kv, p +:+ "." +:+ kv.1) snd).
    + rewrite lookup_insert_ne; [done|]. intros <-. apply Hkey, has_dot_ns.
    + intros kv <-. apply Hkey, has_dot_field.
Qed.

Lemma extension_fields_has_dot rg n chosen extensions :
  Forall has_dot (extension_fields rg n chosen extensions).
Proof.
  revert n extensions. induction chosen as [|p chosen IH]; intros n [|ext extensions];
    simpl; try constructor.
  apply Forall_app. split; [|apply IH].
  apply Forall_fmap, Forall_forall. intros kv _. apply has_dot_field.
Qed.


Ltac solve_dotless :=
  unfold has_dot; cbv [to_bytes String.list_ascii_of_string];
  let Hd := fresh "Hd" in
  intros Hd; repeat (apply elem_of_cons in Hd as [Hd|Hd]; [discriminate Hd|]);
  by apply not_elem_of_nil in Hd.

Lemma encodeExtensions_spec rg (params : gmap string string) extensions :
  ∃ params' chosen,
    encodeExtensions rg params extensions
    = Some (params', extension_fields rg 0 chosen extensions)
    ∧ prefix_choices [] extensions chosen
    ∧ ∀ key, ¬ has_dot key → params' !! key = params !! key.
Proof.
  destruct (encodeExtensions_loop_spec rg extensions 0 (mkEncoding 0 ∅ params [] []))
    as (st & new & Hloop & Hchosen & Hchoices & Hsigned & _ & _).
  { intros s. simpl. set_solver. }
  { simpl. intros; lia. }
  simpl in *. exists (enc_params st), new.
  unfold encodeExtensions. rewrite Hloop, Hsigned. split; [done|]. split; [done|].
  intros key Hkey. by rewrite (encodeExtensions_loop_dotless _ _ _ _ _ _ Hloop Hkey).
Qed.

(** ** The positive assertion *)

Section Login.
Variable hmac_Sum : hashFunc → bytes → bytes → bytes.
Variable Quote : string → string.
Variable url_Parse_ok : string → bool.
Variable RFC3339 : Time → string.
Variable rg : nat → gmap string string → list (string * string).
Context {St : Type} `{AssociationStore St}.

Lemma login_fields_spec (params : gmap string string) (resp : LoginResponse.t)
    (nonce : string) (assoc : Association.t) :
  ∃ rparams chosen,
    let signed :=
      ["op_endpoint"; "return_to"; "response_nonce"; "assoc_handle"]
      ++ (if decide (LoginResponse.ClaimedID resp ≠ "") then ["claimed_id"] else [])
      ++ (if decide (LoginResponse.Identity resp ≠ "") then ["identity"] else [])
      ++ extension_fields (λ n, rg (3 + n)) 0 chosen (LoginResponse.Extensions resp) in
    login_fields rg params resp nonce assoc = Some (rparams, signed)
    ∧ prefix_choices [] (LoginResponse.Extensions resp) chosen
    ∧ rparams !! "ns" = Some Namespace
    ∧ rparams !! "mode" = Some "id_res"
    ∧ rparams !! "signed" = Some (strings_Join signed ",")
    ∧ rparams !! "sig" = None
    ∧ rparams !! "op_endpoint" = Some (LoginResponse.OPEndpoint resp)
    ∧ rparams !! "return_to" = Some (params @ "return_to")
    ∧ rparams !! "response_nonce" = Some nonce
    ∧ rparams !! "assoc_handle" = Some (Association.Handle assoc)
    ∧ Forall (λ k, k ≠ "sig") signed.
Proof.
  unfold login_fields.
  set (rparams0 := ({[ "ns" := Namespace; "mode" := "id_res";
                       "return_to" := params @ "return_to";
                       "op_endpoint" := LoginResponse.OPEndpoint resp;
                       "response_nonce" := nonce;
                       "assoc_handle" := Association.Handle assoc ]} : gmap string string)).
  assert (∀ (signed0 : list string) (rp : gmap string string),
    Forall (λ k, k ≠ "sig") signed0 →
    rp !! "ns" = Some Namespace → rp !! "mode" = Some "id_res" → rp !! "sig" = None →
    rp !! "op_endpoint" = Some (LoginResponse.OPEndpoint resp) →
    rp !! "return_to" = Some (params @ "return_to") →
    rp !! "response_nonce" = Some nonce →
    rp !! "assoc_handle" = Some (Association.Handle assoc) →
    ∃ rparams chosen,
      let signed := signed0 ++ extension_fields (λ n, rg (3 + n)) 0 chosen
                                 (LoginResponse.Extensions resp) in
      match encodeExtensions (λ n, rg (3 + n)) rp (LoginResponse.Extensions resp) with
      | Some (rparams, esigned) =>
          Some (<["signed" := strings_Join (signed0 ++ esigned) ","]> rparams,
                signed0 ++ esigned)
      | None => None
      end = Some (rparams, signed)
      ∧ prefix_choices [] (LoginResponse.Extensions resp) chosen
      ∧ rparams !! "ns" = Some Namespace
      ∧ rparams !! "mode" = Some "id_res"
      ∧ rparams !! "signed" = Some (strings_Join signed ",")
      ∧ rparams !! "sig" = None
      ∧ rparams !! "op_endpoint" = Some (LoginResponse.OPEndpoint resp)
      ∧ rparams !! "return_to" = Some (params @ "return_to")
      ∧ rparams !! "response_nonce" = Some nonce
      ∧ rparams !! "assoc_handle" = Some (Association.Handle assoc)
      ∧ Forall (λ k, k ≠ "sig") signed) as Hencode.
  { intros signed0 rp Hsigned0 Hns Hmode Hsig Hop Hrt Hrn Hah.
    destruct (encodeExtensions_spec (λ n, rg (3 + n)) rp (LoginResponse.Extensions resp))
      as (params' & chosen & -> & Hchoices & Hkeep).
    eexists _, chosen. split; [reflexivity|]. split; [done|].
    rewrite lookup_insert_eq.
    rewrite !lookup_insert_ne by done.
    rewrite !Hkeep by solve_dotless.
    repeat (split; [done|]).
    apply Forall_app. split; [done|].
    apply (Forall_impl _ _ _ (extension_fields_has_dot _ _ _ _)).
    intros k Hk ->. revert Hk. solve_dotless. }
  set (base := ["op_endpoint"; "return_to"; "response_nonce"; "assoc_handle"]) in *.
  destruct (decide (LoginResponse.ClaimedID resp ≠ "")) as [Hc|Hc];
    destruct (decide (LoginResponse.Identity resp ≠ "")) as [Hi|Hi];
    destruct (decide (params @ "assoc_handle" ≠ ""
                      ∧ params @ "assoc_handle" ≠ Association.Handle assoc)) as [Hh|Hh];
    lazymatch goal with
    | |- context [encodeExtensions _ ?rp _] =>
        first
          [ destruct (Hencode base rp) as (rparams & chosen & Heq & Hrest);
            [try (by repeat constructor); by simplify_map_eq ..|];
            exists rparams, chosen; cbn [app] in Heq, Hrest |- *;
            split; [exact Heq | exact Hrest]
          | destruct (Hencode (base ++ ["claimed_id"]) rp)
              as (rparams & chosen & Heq & Hrest);
            [try (by repeat constructor); by simplify_map_eq ..|];
            exists rparams, chosen; cbn [app] in Heq, Hrest |- *;
            split; [exact Heq | exact Hrest]
          | destruct (Hencode (base ++ ["identity"]) rp)
              as (rparams & chosen & Heq & Hrest);
            [try (by repeat constructor); by simplify_map_eq ..|];
            exists rparams, chosen; cbn [app] in Heq, Hrest |- *;
            split; [exact Heq | exact Hrest]
          | destruct (Hencode ((base ++ ["claimed_id"]) ++ ["identity"]) rp)
              as (rparams & chosen & Heq & Hrest);
            [try (by repeat constructor); by simplify_map_eq ..|];
            exists rparams, chosen; cbn [app] in Heq, Hrest |- *;
            split; [exact Heq | exact Hrest] ]
    end.
Qed.

(** C5: when the login flow reaches the assertion with a response of the
    collaborator, the list [signed] is [op_endpoint], [return_to],
    [response_nonce], [assoc_handle], then [claimed_id] and [identity] when
    the response has them, then the extension fields as the encoder emits
    them; the fields carry [ns], [mode=id_res] and [signed] as that list
    joined by commas; and [sig] is the signature over exactly that list, so
    that signing the delivered fields again gives the delivered [sig]. *)
Theorem login_signed_fields (h : Handler) (params : gmap string string) (w : World St)
    req resp err w1 nonce w2 assoc w3 :
  let returnTo := params @ "return_to" in
  params @ "mode" = "checkid_immediate" ∨ params @ "mode" = "checkid_setup" →
  parseLoginRequest rg params = Ok req →
  call_Login h (bool_decide (params @ "mode" = "checkid_setup")) req w
    = ((Some resp, err), w1) →
  failure err = None →
  returnTo ≠ "" →
  getNonce RFC3339 w1 = (Ok nonce, w2) →
  getAssociation (params @ "assoc_handle") nonce w2 = ((Some assoc, None), w3) →
  ∃ rparams chosen,
    let signed :=
      ["op_endpoint"; "return_to"; "response_nonce"; "assoc_handle"]
      ++ (if decide (LoginResponse.ClaimedID resp ≠ "") then ["claimed_id"] else [])
      ++ (if decide (LoginResponse.Identity resp ≠ "") then ["identity"] else [])
      ++ extension_fields (λ n, rg (3 + n)) 0 chosen (LoginResponse.Extensions resp) in
    prefix_choices [] (LoginResponse.Extensions resp) chosen
    ∧ rparams !! "ns" = Some Namespace
    ∧ rparams !! "mode" = Some "id_res"
    ∧ rparams !! "signed" = Some (strings_Join signed ",")
    ∧ rparams !! "op_endpoint" = Some (LoginResponse.OPEndpoint resp)
    ∧ rparams !! "return_to" = Some returnTo
    ∧ rparams !! "response_nonce" = Some nonce
    ∧ rparams !! "assoc_handle" = Some (Association.Handle assoc)
    ∧ match sign hmac_Sum assoc rparams signed with
      | Ok sig =>
          login hmac_Sum Quote url_Parse_ok RFC3339 rg h params w
          = (Returned,
             respond Quote (indirect url_Parse_ok returnTo)
                     (Ok (<["sig" := sig]> rparams)) w3)
          ∧ sign hmac_Sum assoc (<["sig" := sig]> rparams) signed = Ok sig
      | Err e =>
          login hmac_Sum Quote url_Parse_ok RFC3339 rg h params w
          = (Returned, respond Quote (indirect url_Parse_ok returnTo) (Err e) w3)
      end.
Proof.
  intros returnTo Hmode Hparse Hcall Hfail Hreturn Hnonce Hassoc.
  destruct (login_fields_spec params resp nonce assoc)
    as (rparams & chosen & Hfields & Hchoices & Hns & Hm & Hsigned & Hsig
        & Hop & Hrt & Hrn & Hah & Hnosig).
  exists rparams, chosen. cbv zeta in *.
  set (signed := _ ++ _) in *.
  do 8 (split; [done|]).
  assert (login hmac_Sum Quote url_Parse_ok RFC3339 rg h params w
          = login_id_res hmac_Sum Quote url_Parse_ok RFC3339 rg params resp w1) as ->.
  { unfold login. rewrite Hparse. unfold login_switch.
    destruct Hmode as [Hmode|Hmode]; rewrite Hmode in *.
    - rewrite decide_True by done.
      rewrite bool_decide_eq_false_2 in Hcall by done.
      by rewrite Hcall, Hfail.
    - rewrite decide_False by done. rewrite decide_True by done.
      rewrite bool_decide_eq_true_2 in Hcall by done.
      by rewrite Hcall, Hfail. }
  unfold login_id_res. fold returnTo. rewrite decide_False by done.
  rewrite Hnonce, Hassoc, Hfields.
  destruct (sign hmac_Sum assoc rparams signed) as [sig|e] eqn:Hs; [|done].
  split; [done|]. rewrite <- Hs. apply sign_ext.
  eapply Forall_impl; [exact Hnosig|].
  intros k Hk. simpl. by rewrite lookup_insert_ne.
Qed.
End Login.

Lemma login_signed_fields_witness :
  ∃ rparams w3 sig,
    rparams !! "mode" = Some "id_res"
    ∧ rparams !! "op_endpoint" = Some "https://op.example/id"
    ∧ login example_hmac id (λ _, true) (λ _, "2026-01-01T00:00:00Z") example_range
            example_handler example_login_params example_world
      = (Returned,
         respond id (indirect (λ _, true) "https://rp.example/cb")
                 (Ok (<["sig" := sig]> rparams)) w3).
Proof.
  edestruct (login_signed_fields example_hmac id (λ _, true)
               (λ _, "2026-01-01T00:00:00Z") example_range
               example_handler example_login_params example_world)
    as (rparams & chosen & _ & _ & Hmode & _ & Hop & _ & _ & _ & Hsign).
  - right. reflexivity.
  - vm_compute. reflexivity.
  - reflexivity.
  - reflexivity.
  - discriminate.
  - vm_compute. reflexivity.
  - vm_compute. reflexivity.
  - cbv zeta in Hsign. rewrite sign_unfold in Hsign.
    destruct (decide _) as [Hsha1|_] in Hsign; [discriminate Hsha1|].
    destruct (decide _) as [_|Hsha256] in Hsign; [|by destruct Hsha256].
    destruct Hsign as [Hlogin _].
    eexists rparams, _, _. split; [exact Hmode|]. split; [exact Hop|]. exact Hlogin.
Defined.

(** ** The dispatcher *)

Section ServeHTTP.
Variable hmac_Sum : hashFunc → bytes → bytes → bytes.
Variable Quote : string → string.
Variable url_Parse_ok : string → bool.
Variable RFC3339 : Time → string.
Variable rg : nat → gmap string string → list (string * string).
Context {St : Type} `{AssociationStore St}.

(** After the error for a wrong [ns] is written, the [switch] on the mode
    is still executed: the first [switch] has no [return]. *)
Lemma ServeHTTP_unknown_ns_check (h : Handler) (params : gmap string string)
    (w : World St) :
  params @ "ns" ≠ Namespace →
  params @ "mode" = "check_authentication" →
  let w1 := respond Quote (indirect url_Parse_ok (params @ "return_to"))
                    (Err (ErrUnknownNs (params @ "ns"))) w in
  ServeHTTP hmac_Sum Quote url_Parse_ok RFC3339 rg h params w
  = (Returned,
     respond Quote direct (checkAuthentication hmac_Sum params (store w)).1
             (with_store w1 (checkAuthentication hmac_Sum params (store w)).2)).
Proof.
  intros Hns Hmode w1. unfold ServeHTTP.
  destruct (decide (params @ "ns" = Namespace)) as [|_]; [done|].
  fold w1. rewrite Hmode.
  destruct (decide ("check_authentication" = "associate")) as [|_]; [done|].
  destruct (decide (_ ∨ _)) as [[|]|_]; [done..|].
  destruct (decide ("check_authentication" = "check_authentication")) as [_|]; [|done].
  assert (store w1 = store w) as ->.
  { unfold w1, respond.
    by destruct (indirect url_Parse_ok (params @ "return_to")). }
  by destruct (checkAuthentication hmac_Sum params (store w)).
Qed.
End ServeHTTP.

(** C6 does not hold of the code: a request whose [ns] is not the protocol
    namespace gets the error response, and then its mode is acted upon all
    the same.  Here the mode is [check_authentication] with a valid
    signature: a second response [{ns, is_valid: true}] is written and the
    association is deleted from the store. *)
Theorem ServeHTTP_unknown_ns_runs_mode :
  let w' := (ServeHTTP example_hmac id (λ _, true) (λ _, "") example_range
               (mkHandler None) example_bad_ns_params example_world).2 in
  example_bad_ns_params @ "ns" ≠ Namespace
  ∧ written w'
    = [ Direct 400 (makeError id (ErrUnknownNs "bogus"));
        Direct 200 {[ "ns" := Namespace; "is_valid" := "true" ]} ]
  ∧ MemoryAssociationStore.Get "" "h1" (store example_world) = (Some example_assoc, None)
  ∧ MemoryAssociationStore.Get "" "h1" (store w') = (None, None).
Proof. split; [discriminate|]. vm_compute. done. Qed.

(** ** Parsing extensions *)

Lemma to_string_inj b1 b2 : to_string b1 = to_string b2 → b1 = b2.
Proof. intros Hs. by rewrite <- (to_bytes_to_string b1), Hs, to_bytes_to_string. Qed.

Lemma to_bytes_dot_app a b :
  to_bytes (a +:+ "." +:+ b) = to_bytes a ++ dot :: to_bytes b.
Proof. by rewrite !to_bytes_app. Qed.

Lemma strings_SplitN2_cases k :
  (¬ has_dot k ∧ strings_SplitN2 k dot = [k])
  ∨ (∃ a b, k = a +:+ "." +:+ b ∧ ¬ has_dot a ∧ strings_SplitN2 k dot = [a; b]).
Proof.
  unfold strings_SplitN2, has_dot.
  destruct (SplitN2_cases (to_bytes k) dot) as [[Hn ->]|(a & b & Hk & Hn & ->)].
  - left. split; [done|]. simpl. by rewrite to_string_to_bytes.
  - right. exists (to_string a), (to_string b).
    split; [|split; [by rewrite to_bytes_to_string | done]].
    apply (inj to_bytes). by rewrite to_bytes_dot_app, !to_bytes_to_string.
Qed.

Lemma strings_SplitN2_app a b :
  ¬ has_dot a → strings_SplitN2 (a +:+ "." +:+ b) dot = [a; b].
Proof.
  intros Hn. unfold has_dot in Hn. unfold strings_SplitN2. rewrite to_bytes_dot_app.
  rewrite SplitN2_app by done. simpl. by rewrite !to_string_to_bytes.
Qed.

Lemma dot_app_inj a1 b1 a2 b2 :
  ¬ has_dot a1 → ¬ has_dot a2 →
  a1 +:+ "." +:+ b1 = a2 +:+ "." +:+ b2 → a1 = a2 ∧ b1 = b2.
Proof.
  intros H1 H2 Heq.
  pose proof (strings_SplitN2_app a1 b1 H1) as Hs1.
  rewrite Heq, (strings_SplitN2_app a2 b2 H2) in Hs1. by injection Hs1 as -> ->.
Qed.

Lemma not_has_dot_ns : ¬ has_dot "ns".
Proof. solve_dotless. Qed.

Lemma ns_key_eq prefix : "ns" +:+ "." +:+ prefix = "ns." +:+ prefix.
Proof. reflexivity. Qed.

Lemma range_order_visit rg i params : range_order rg → visit params (rg i params).
Proof.
  intros Hrg. split.
  - rewrite (Hrg i params). apply NoDup_fst_map_to_list.
  - intros k v. rewrite (Hrg i params). apply elem_of_map_to_list.
Qed.

Lemma visit_length rg i (params : gmap string string) :
  range_order rg → length (rg i params) = size params.
Proof. intros Hrg. by rewrite (Hrg i params), length_map_to_list. Qed.

Ltac pair_eq Heq Hq Hv :=
  pose proof (f_equal fst Heq) as Hq; pose proof (f_equal snd Heq) as Hv;
  cbn [fst snd] in Hq, Hv.

Lemma ns_key_inj p1 p2 : "ns." +:+ p1 = "ns." +:+ p2 → p1 = p2.
Proof. apply (inj (String.app "ns.")). Qed.

Lemma declared_by_skip prefixes k v rest p ns :
  (∀ q, k ≠ "ns." +:+ q) →
  declared_by prefixes ((k, v) :: rest) p ns ↔ declared_by prefixes rest p ns.
Proof.
  intros Hk. unfold declared_by. rewrite elem_of_cons.
  split; [|tauto]. intros [?|[Heq|?]]; [tauto| |tauto].
  pair_eq Heq Hq Hv. by destruct (Hk p).
Qed.

Lemma declared_by_insert prefixes b v rest p ns :
  prefixes !! b = None →
  declared_by (<[b := v]> prefixes) rest p ns
  ↔ declared_by prefixes (("ns." +:+ b, v) :: rest) p ns.
Proof.
  intros Hfresh. unfold declared_by. rewrite elem_of_cons, lookup_insert.
  case_decide as Hb.
  - subst p. split.
    + intros [Heq|?]; [|right; by right].
      injection Heq as <-. right. by left.
    + intros [Hp|[Heq|?]]; [congruence | | by right].
      pair_eq Heq Hq Hv. subst ns. by left.
  - split.
    + intros [?|?]; [by left | right; by right].
    + intros [?|[Heq|?]]; [by left | | by right].
      pair_eq Heq Hq Hv. apply ns_key_inj in Hq. congruence.
Qed.

Lemma parseExtensions_declare_spec kvs (prefixes namespaces : gmap string string) :
  NoDup kvs.*1 →
  (∀ p ns, prefixes !! p = Some ns ↔ namespaces !! ns = Some p) →
  (∀ p v, ("ns." +:+ p, v) ∈ kvs → prefixes !! p = None) →
  match parseExtensions_declare kvs prefixes namespaces with
  | Ok prefixes' =>
      (∀ p ns, prefixes' !! p = Some ns ↔ declared_by prefixes kvs p ns)
      ∧ (∀ p v, ("ns." +:+ p, v) ∈ kvs → bannedPrefixes p = false)
      ∧ (∀ p1 p2 ns, prefixes' !! p1 = Some ns → prefixes' !! p2 = Some ns → p1 = p2)
  | Err err =>
      (∀ p, err ≠ ErrPrefixMultipleNamespaces p)
      ∧ ((∃ p v, ("ns." +:+ p, v) ∈ kvs ∧ bannedPrefixes p = true)
         ∨ (∃ p1 p2 ns, p1 ≠ p2 ∧ declared_by prefixes kvs p1 ns
                        ∧ declared_by prefixes kvs p2 ns))
  end.
Proof.
  revert prefixes namespaces.
  induction kvs as [|[k v] rest IH]; intros prefixes namespaces Hnd Hinv Hfresh.
  { simpl. split; [|split].
    - intros p ns. unfold declared_by. rewrite elem_of_nil. tauto.
    - intros p v Hin. by apply elem_of_nil in Hin.
    - intros p1 p2 ns H1%Hinv H2%Hinv. congruence. }
  apply NoDup_cons in Hnd as [Hk Hnd]. simpl in Hk.
  assert (∀ p v', ("ns." +:+ p, v') ∈ rest → prefixes !! p = None) as Hfresh'.
  { intros p v' Hin. eapply Hfresh. by right. }
  (* an entry that declares nothing *)
  assert ((∀ q, k ≠ "ns." +:+ q) →
          match parseExtensions_declare rest prefixes namespaces with
          | Ok prefixes' =>
              (∀ p ns, prefixes' !! p = Some ns ↔ declared_by prefixes ((k, v) :: rest) p ns)
              ∧ (∀ p v0, ("ns." +:+ p, v0) ∈ (k, v) :: rest → bannedPrefixes p = false)
              ∧ (∀ p1 p2 ns, prefixes' !! p1 = Some ns → prefixes' !! p2 = Some ns → p1 = p2)
          | Err err =>
              (∀ p, err ≠ ErrPrefixMultipleNamespaces p)
              ∧ ((∃ p v0, ("ns." +:+ p, v0) ∈ (k, v) :: rest ∧ bannedPrefixes p = true)
                 ∨ (∃ p1 p2 ns, p1 ≠ p2 ∧ declared_by prefixes ((k, v) :: rest) p1 ns
                                ∧ declared_by prefixes ((k, v) :: rest) p2 ns))
          end) as Hskip.
  { intros Hkq. specialize (IH prefixes namespaces Hnd Hinv Hfresh').
    destruct (parseExtensions_declare rest prefixes namespaces) as [prefixes'|err].
    - destruct IH as (Ha & Hb & Hc). split; [|split; [|done]].
      + intros p ns. by rewrite Ha, declared_by_skip.
      + intros p v0 [Heq|Hin]%elem_of_cons; [|by eapply Hb].
        pair_eq Heq Hq Hv. by destruct (Hkq p).
    - destruct IH as (Ha & Hb). split; [done|].
      destruct Hb as [(p & v0 & Hin & Hban)|(p1 & p2 & ns & Hne & H1 & H2)].
      + left. exists p, v0. split; [by right|done].
      + right. exists p1, p2, ns. by rewrite !declared_by_skip. }
  cbn [parseExtensions_declare].
  destruct (strings_SplitN2_cases k) as [[Hdot ->]|(a & b & -> & Hdot & ->)].
  { apply Hskip. intros q ->. apply Hdot, has_dot_ns. }
  destruct (decide (a ≠ "ns")) as [Ha|Ha].
  { apply Hskip. intros q Hq. apply Ha.
    by destruct (dot_app_inj a b "ns" q Hdot not_has_dot_ns Hq). }
  apply dec_stable in Ha. subst a. rewrite ns_key_eq in *.
  destruct (bannedPrefixes b) eqn:Hban.
  { split; [done|]. left. exists b, v. split; [by left|done]. }
  assert (prefixes !! b = None) as Hb by (eapply Hfresh; by left).
  unfold assigned_other at 1. rewrite Hb.
  unfold assigned_other.
  destruct (namespaces !! v) as [p'|] eqn:Hv.
  - case_bool_decide as Hp'.
    + split; [done|]. right. exists p', b, v. split; [done|]. split.
      * left. by apply Hinv.
      * right. by left.
    + subst p'. apply Hinv in Hv. congruence.
  - assert (∀ p ns, <[b := v]> prefixes !! p = Some ns
                    ↔ <[v := b]> namespaces !! ns = Some p) as Hinv'.
    { intros p ns. rewrite !lookup_insert.
      destruct (decide (b = p)) as [<-|Hbp]; destruct (decide (v = ns)) as [<-|Hvn].
      - done.
      - split; [congruence|]. intros Hn. apply Hinv in Hn. congruence.
      - split; [|congruence]. intros Hp. apply Hinv in Hp. congruence.
      - apply Hinv. }
    assert (∀ p v', ("ns." +:+ p, v') ∈ rest → <[b := v]> prefixes !! p = None) as Hfresh''.
    { intros p v' Hin. rewrite lookup_insert_ne; [by eapply Hfresh'|].
      intros <-. apply Hk. apply list_elem_of_fmap. by exists ("ns." +:+ b, v'). }
    specialize (IH _ _ Hnd Hinv' Hfresh'').
    destruct (parseExtensions_declare rest _ _) as [prefixes'|err].
    + destruct IH as (Ha & Hb' & Hc). split; [|split; [|done]].
      * intros p ns. by rewrite Ha, declared_by_insert.
      * intros p v0 [Heq|Hin]%elem_of_cons; [|by eapply Hb'].
        pair_eq Heq Hq Hv0. apply ns_key_inj in Hq. by subst.
    + destruct IH as (Ha & Hb'). split; [done|].
      destruct Hb' as [(p & v0 & Hin & Hbn)|(p1 & p2 & ns & Hne & H1 & H2)].
      * left. exists p, v0. split; [by right|done].
      * right. exists p1, p2, ns. by rewrite <- !declared_by_insert.
Qed.

Lemma parseExtensions_place_spec pns pre suffix (positions : gmap string nat) :
  NoDup pns.*1 →
  length suffix = length pns →
  ∃ positions',
    parseExtensions_place pns (length pre) (pre ++ suffix) positions
    = (pre ++ (declared_extension <$> pns), positions')
    ∧ ∀ p j, positions' !! p = Some j ↔
        (∃ i ns, pns !! i = Some (p, ns) ∧ j = (length pre + i)%nat)
        ∨ ((p ∉ pns.*1) ∧ positions !! p = Some j).
Proof.
  revert pre suffix positions.
  induction pns as [|[p ns] pns IH]; intros pre suffix positions Hnd Hlen.
  - destruct suffix; [|done]. exists positions. simpl. split; [done|].
    intros q j. split; [intros Hq; right; split; [apply not_elem_of_nil|done]|].
    intros [(i & ns & Hi & _)|[_ Hq]]; [done|done].
  - destruct suffix as [|x suffix]; [done|]. simpl in Hlen.
    apply NoDup_cons in Hnd as [Hp Hnd]. cbn [parseExtensions_place].
    rewrite insert_app_r_alt by lia. rewrite Nat.sub_diag. cbn [insert list_insert].
    rewrite (cons_middle _ pre suffix), (assoc_L (++)).
    replace (S (length pre)) with (length (pre ++ [Extension.mk ns p ∅]))
      by (rewrite length_app; simpl; lia).
    destruct (IH (pre ++ [Extension.mk ns p ∅]) suffix (<[p := length pre]> positions))
      as (positions' & -> & Hpos); [done|lia|].
    exists positions'. split.
    { by rewrite <- (assoc_L (++)). }
    intros q j. rewrite Hpos. rewrite length_app. simpl. split.
    + intros [(i & ns' & Hi & ->)|[Hq Hins]].
      * left. exists (S i), ns'. split; [done|lia].
      * rewrite lookup_insert in Hins. case_decide as Hpq.
        -- injection Hins as <-. subst q. left. exists 0%nat, ns. split; [done|lia].
        -- right. split; [|done]. intros [?|?]%elem_of_cons; [congruence|done].
    + intros [(i & ns' & Hi & ->)|[Hq Hins]].
      * destruct i as [|i]; simpl in Hi.
        -- injection Hi as <- <-. right. split; [done|].
           rewrite lookup_insert_eq. f_equal. lia.
        -- left. exists i, ns'. split; [done|lia].
      * right. apply not_elem_of_cons in Hq as [Hqp Hq]. split; [done|].
        by rewrite lookup_insert_ne.
Qed.

Lemma parseExtensions_collect_spec kvs (positions : gmap string nat) extensions :
  NoDup kvs.*1 →
  (∀ p i, positions !! p = Some i
          ↔ ∃ e, extensions !! i = Some e ∧ Extension.Prefix e = p) →
  ∀ i e, extensions !! i = Some e →
    ∃ e', parseExtensions_collect kvs positions extensions !! i = Some e'
      ∧ Extension.Namespace e' = Extension.Namespace e
      ∧ Extension.Prefix e' = Extension.Prefix e
      ∧ ∀ key v, Extension.Params e' !! key = Some v ↔
          (collectable (Extension.Prefix e)
           ∧ (Extension.Prefix e +:+ "." +:+ key, v) ∈ kvs)
          ∨ (Extension.Params e !! key = Some v
             ∧ ∀ v', ¬ (collectable (Extension.Prefix e)
                        ∧ (Extension.Prefix e +:+ "." +:+ key, v') ∈ kvs)).
Proof.
  revert extensions.
  induction kvs as [|[k v0] rest IH]; intros extensions Hnd Hpos i e He.
  { exists e. simpl. split; [done|]. split; [done|]. split; [done|].
    intros key v. split; [|intros [[_ Hin]|[? _]]; [by apply elem_of_nil in Hin|done]].
    intros Hv. right. split; [done|]. intros v' [_ Hin]. by apply elem_of_nil in Hin. }
  apply NoDup_cons in Hnd as [Hk Hnd]. simpl in Hk.
  (* an entry that is not collected into the extension at [i] *)
  assert ((∀ key, collectable (Extension.Prefix e) → k ≠ Extension.Prefix e +:+ "." +:+ key) →
          ∀ e0, (∀ key v, Extension.Params e0 !! key = Some v
                          ↔ Extension.Params e !! key = Some v) →
          Extension.Prefix e0 = Extension.Prefix e →
          ∀ e' , (∀ key v, Extension.Params e' !! key = Some v ↔
              (collectable (Extension.Prefix e0)
               ∧ (Extension.Prefix e0 +:+ "." +:+ key, v) ∈ rest)
              ∨ (Extension.Params e0 !! key = Some v
                 ∧ ∀ v', ¬ (collectable (Extension.Prefix e0)
                            ∧ (Extension.Prefix e0 +:+ "." +:+ key, v') ∈ rest))) →
          ∀ key v, Extension.Params e' !! key = Some v ↔
              (collectable (Extension.Prefix e)
               ∧ (Extension.Prefix e +:+ "." +:+ key, v) ∈ (k, v0) :: rest)
              ∨ (Extension.Params e !! key = Some v
                 ∧ ∀ v', ¬ (collectable (Extension.Prefix e)
                            ∧ (Extension.Prefix e +:+ "." +:+ key, v') ∈ (k, v0) :: rest)))
    as Hskip.
  { intros Hkne e0 Hparams Hprefix e' He' key v. rewrite He', Hprefix, Hparams.
    assert (∀ v', collectable (Extension.Prefix e)
                  ∧ (Extension.Prefix e +:+ "." +:+ key, v') ∈ (k, v0) :: rest
                  ↔ collectable (Extension.Prefix e)
                    ∧ (Extension.Prefix e +:+ "." +:+ key, v') ∈ rest) as Hin.
    { intros v'. rewrite elem_of_cons. split; [|tauto].
      intros [Hc [Heq|?]]; [|tauto]. pair_eq Heq Hq Hv. by destruct (Hkne key Hc). }
    rewrite Hin. by setoid_rewrite Hin. }
  assert ((∀ key, collectable (Extension.Prefix e) → k ≠ Extension.Prefix e +:+ "." +:+ key) →
          ∃ e', parseExtensions_collect rest positions extensions !! i = Some e'
            ∧ Extension.Namespace e' = Extension.Namespace e
            ∧ Extension.Prefix e' = Extension.Prefix e
            ∧ ∀ key v, Extension.Params e' !! key = Some v ↔
                (collectable (Extension.Prefix e)
                 ∧ (Extension.Prefix e +:+ "." +:+ key, v) ∈ (k, v0) :: rest)
                ∨ (Extension.Params e !! key = Some v
                   ∧ ∀ v', ¬ (collectable (Extension.Prefix e)
                              ∧ (Extension.Prefix e +:+ "." +:+ key, v') ∈ (k, v0) :: rest)))
    as Hunchanged.
  { intros Hkne. destruct (IH extensions Hnd Hpos i e He) as (e' & He' & Hn & Hp & Hparams).
    exists e'. split; [done|]. split; [done|]. split; [done|].
    by apply (Hskip Hkne e). }
  cbn [parseExtensions_collect].
  destruct (strings_SplitN2_cases k) as [[Hdot ->]|(a & b & -> & Hdot & ->)].
  { apply Hunchanged. intros key _ ->. apply Hdot, has_dot_field. }
  destruct (decide (a = "ns")) as [->|Ha].
  { apply Hunchanged. intros key [Hns Hd] Heq.
    apply dot_app_inj in Heq as [Heq _]; [congruence|apply not_has_dot_ns|done]. }
  destruct (positions !! a) as [pos|] eqn:Hpa.
  2:{ apply Hunchanged. intros key [Hns Hd] Heq.
      apply dot_app_inj in Heq as [-> _]; [|done..].
      assert (positions !! Extension.Prefix e = Some i) as Hi by (apply Hpos; eauto).
      congruence. }
  assert (∀ p j, positions !! p = Some j
                 ↔ ∃ e1, alter (set_param b v0) pos extensions !! j = Some e1
                         ∧ Extension.Prefix e1 = p) as Hpos'.
  { intros p j. rewrite Hpos. rewrite list_lookup_alter. case_decide as Hj; [|done].
    subst j. destruct (extensions !! pos) as [e1|]; simpl.
    - split; intros (e2 & [= <-] & <-); eexists; split; done.
    - split; intros (e2 & ? & _); done. }
  destruct (decide (pos = i)) as [->|Hne].
  - assert (Extension.Prefix e = a) as Hea.
    { apply Hpos in Hpa as (e1 & He1 & <-). congruence. }
    destruct (IH _ Hnd Hpos' i (set_param b v0 e)) as (e' & He' & Hn & Hp & Hparams).
    { by rewrite list_lookup_alter_eq, He. }
    exists e'. split; [done|]. split; [done|]. split; [done|].
    intros key v. rewrite Hparams. cbn [set_param Extension.Prefix Extension.Params].
    rewrite Hea. rewrite elem_of_cons.
    assert (∀ v', (a +:+ "." +:+ b, v') ∉ rest) as Hfresh.
    { intros v' Hin. apply Hk. apply list_elem_of_fmap. by exists (a +:+ "." +:+ b, v'). }
    assert (collectable a) as Hc by done.
    destruct (decide (key = b)) as [->|Hkb].
    + rewrite lookup_insert_eq. split.
      * intros [[_ Hin]|[[= <-] _]]; [by destruct (Hfresh v)|]. left. split; [done|by left].
      * intros [[_ [Heq|Hin]]|[_ Hno]].
        -- pair_eq Heq Hq Hv. subst v. right. split; [done|].
           intros v' [_ Hin]. by destruct (Hfresh v').
        -- by destruct (Hfresh v).
        -- destruct (Hno v0). split; [done|]. by left.
    + rewrite lookup_insert_ne by done.
      assert (∀ v', (a +:+ "." +:+ key, v') ≠ (a +:+ "." +:+ b, v0)) as Hhead.
      { intros v' Heq. pair_eq Heq Hq Hv.
        apply dot_app_inj in Hq as [_ ?]; done. }
      split.
      * intros [[_ Hin]|[Hv Hno]]; [left; split; [done|by right]|].
        right. split; [done|].
        intros v' [_ [Heq|Hin]%elem_of_cons]; [by destruct (Hhead v')|].
        by destruct (Hno v').
      * intros [[_ [Heq|Hin]]|[Hv Hno]]; [by destruct (Hhead v)|left; by split|].
        right. split; [done|]. intros v' [_ Hin]. destruct (Hno v'). split; [done|by right].
  - destruct (IH _ Hnd Hpos' i e) as (e' & He' & Hn & Hp & Hparams).
    { by rewrite list_lookup_alter_ne. }
    exists e'. split; [done|]. split; [done|]. split; [done|].
    apply (Hskip) with (e0 := e); [|done|done|done].
    intros key [Hns Hd] Heq. apply dot_app_inj in Heq as [-> _]; [|done..].
    assert (positions !! Extension.Prefix e = Some i) as Hi by (apply Hpos; eauto).
    congruence.
Qed.

Lemma parseExtensions_collect_length kvs (positions : gmap string nat) extensions :
  length (parseExtensions_collect kvs positions extensions) = length extensions.
Proof.
  revert extensions. induction kvs as [|[k v] rest IH]; intros extensions; [done|].
  cbn [parseExtensions_collect].
  destruct (strings_SplitN2 k dot) as [|a [|b [|? ?]]]; try apply IH.
  destruct (decide (a = "ns")); [apply IH|].
  destruct (positions !! a); [|apply IH]. by rewrite IH, length_alter.
Qed.

Lemma declared_by_empty rg (params : gmap string string) p ns :
  range_order rg → declared_by ∅ (rg 0%nat params) p ns ↔ declares params p ns.
Proof.
  intros Hrg. unfold declared_by, declares.
  rewrite lookup_empty, (visit_elem _ _ (range_order_visit rg 0 params Hrg)).
  split; [by intros [?|?] | by right].
Qed.

(** C7, amended: [parseExtensions] fails exactly when a reserved name is
    declared as a prefix by a key [ns.<prefix>] or one namespace value is
    declared for two different prefixes; one prefix cannot be declared for
    two values in a map, and the error for that case is never returned.
    Otherwise it returns one extension per declaration, and the parameters of
    an extension are the entries [<prefix>.<key>] of the map whose key, cut
    at its first dot, gives the declared prefix: a declared prefix with a dot
    in it collects nothing, and keys under other prefixes are ignored. *)
Theorem parseExtensions_spec rg (params : gmap string string) :
  range_order rg →
  match parseExtensions rg params with
  | Err err =>
      (∀ p, err ≠ ErrPrefixMultipleNamespaces p)
      ∧ ((∃ p ns, declares params p ns ∧ bannedPrefixes p = true)
         ∨ (∃ p1 p2 ns, p1 ≠ p2 ∧ declares params p1 ns ∧ declares params p2 ns))
  | Ok extensions =>
      (∀ p ns, declares params p ns → bannedPrefixes p = false)
      ∧ (∀ p1 p2 ns, declares params p1 ns → declares params p2 ns → p1 = p2)
      ∧ NoDup (Extension.Prefix <$> extensions)
      ∧ (∀ p ns, (∃ e, e ∈ extensions ∧ Extension.Prefix e = p
                       ∧ Extension.Namespace e = ns)
                 ↔ declares params p ns)
      ∧ (∀ e key v, e ∈ extensions →
           Extension.Params e !! key = Some v
           ↔ ¬ has_dot (Extension.Prefix e)
             ∧ params !! (Extension.Prefix e +:+ "." +:+ key) = Some v)
  end.
Proof.
  intros Hrg. unfold parseExtensions.
  pose proof (range_order_visit rg 0 params Hrg) as [Hnd0 Hel0].
  pose proof (parseExtensions_declare_spec (rg 0%nat params) ∅ ∅ Hnd0) as Hdecl.
  destruct (parseExtensions_declare (rg 0%nat params) ∅ ∅) as [prefixes|err].
  2:{ destruct Hdecl as (Hno & Hwhy); [done|done|]. split; [done|].
      destruct Hwhy as [(p & v & Hin & Hban)|(p1 & p2 & ns & Hne & H1 & H2)].
      - left. exists p, v. split; [by apply Hel0 | done].
      - right. exists p1, p2, ns. by rewrite <- !(declared_by_empty rg). }
  destruct Hdecl as (Hprefixes & Hban & Hinj); [done|done|].
  assert (∀ p ns, prefixes !! p = Some ns ↔ declares params p ns) as Hpd.
  { intros p ns. by rewrite Hprefixes, declared_by_empty. }
  pose proof (range_order_visit rg 1 prefixes Hrg) as [Hnd1 Hel1].
  set (pns := rg 1%nat prefixes) in *.
  destruct (parseExtensions_place_spec pns [] (replicate (size prefixes) (Extension.mk "" "" ∅))
              ∅ Hnd1) as (positions & Hplace & Hpositions).
  { rewrite length_replicate. unfold pns. by rewrite (visit_length rg 1 prefixes Hrg). }
  cbn [length app] in Hplace. rewrite Hplace.
  set (exts0 := declared_extension <$> pns) in *.
  assert (∀ p i, positions !! p = Some i
                 ↔ ∃ e, exts0 !! i = Some e ∧ Extension.Prefix e = p) as Hpos.
  { intros p i. rewrite Hpositions. unfold exts0. rewrite list_lookup_fmap. split.
    - intros [(j & ns & Hj & ->)|[_ Hempty]]; [|by rewrite lookup_empty in Hempty].
      simpl. rewrite Hj. by eexists.
    - intros (e & He & <-). left.
      destruct (pns !! i) as [[p ns]|] eqn:Hi; [|done].
      injection He as <-. by exists i, ns. }
  pose proof (range_order_visit rg 2 params Hrg) as [Hnd2 Hel2].
  set (exts := parseExtensions_collect (rg 2%nat params) positions exts0).
  assert (∀ i e, exts !! i = Some e →
            ∃ p ns, pns !! i = Some (p, ns) ∧ Extension.Prefix e = p
              ∧ Extension.Namespace e = ns
              ∧ ∀ key v, Extension.Params e !! key = Some v
                         ↔ collectable p ∧ params !! (p +:+ "." +:+ key) = Some v) as Hexts.
  { intros i e He.
    assert (i < length exts0)%nat as Hi.
    { apply lookup_lt_Some in He. unfold exts in He.
      by rewrite parseExtensions_collect_length in He. }
    apply lookup_lt_is_Some in Hi as [e0 He0].
    destruct (parseExtensions_collect_spec _ _ _ Hnd2 Hpos i e0 He0)
      as (e' & He' & Hn & Hp & Hparams).
    fold exts in He'. rewrite He in He'. injection He' as <-.
    unfold exts0 in He0. rewrite list_lookup_fmap in He0.
    destruct (pns !! i) as [[p ns]|] eqn:Hpn; [|done]. injection He0 as <-.
    exists p, ns. split; [done|]. split; [done|]. split; [done|].
    intros key v. rewrite Hparams. cbn [declared_extension Extension.Prefix Extension.Params fst].
    rewrite lookup_empty, Hel2. split; [|by left]. by intros [?|[? _]]. }
  assert (∀ i p ns, pns !! i = Some (p, ns) → ∃ e, exts !! i = Some e) as Hback.
  { intros i p ns Hi.
    destruct (parseExtensions_collect_spec _ _ _ Hnd2 Hpos i (declared_extension (p, ns)))
      as (e' & He' & _); [|by exists e'].
    unfold exts0. by rewrite list_lookup_fmap, Hi. }
  split; [|split; [|split; [|split]]].
  - intros p ns Hd. eapply Hban. by apply Hel0.
  - intros p1 p2 ns H1%Hpd H2%Hpd. by eapply Hinj.
  - assert (Extension.Prefix <$> exts = pns.*1) as ->; [|done].
    apply list_eq. intros i. rewrite !list_lookup_fmap.
    destruct (exts !! i) as [e|] eqn:He.
    + destruct (Hexts i e He) as (p & ns & -> & <- & _). done.
    + destruct (pns !! i) as [[p ns]|] eqn:Hi; [|done].
      destruct (Hback i p ns Hi) as [e He']. congruence.
  - intros p ns. rewrite <- Hpd, <- Hel1. split.
    + intros (e & [i He]%list_elem_of_lookup & <- & <-).
      destruct (Hexts i e He) as (p & ns & Hi & <- & <- & _).
      by eapply list_elem_of_lookup_2.
    + intros [i Hi]%list_elem_of_lookup.
      destruct (Hback i p ns Hi) as [e He]. exists e.
      split; [by eapply list_elem_of_lookup_2|].
      destruct (Hexts i e He) as (p' & ns' & Hi' & <- & <- & _).
      rewrite Hi in Hi'. by injection Hi' as <- <-.
  - intros e key v [i He]%list_elem_of_lookup.
    destruct (Hexts i e He) as (p & ns & Hi & <- & _ & Hparams).
    rewrite Hparams. unfold collectable. split; [by intros [[_ ?] ?]|].
    intros [Hd Hv]. split; [|done]. split; [|done]. intros Hns.
    assert (bannedPrefixes (Extension.Prefix e) = false) as Hb.
    { eapply Hban. apply Hel0, Hpd, Hel1. by eapply list_elem_of_lookup_2. }
    by rewrite Hns in Hb.
Qed.

Lemma example_range_order : range_order example_range.
Proof. intros i m. reflexivity. Qed.

Lemma parseExtensions_spec_witness :
  range_order example_range
  ∧ match parseExtensions example_range example_extension_params with
    | Err _ => False
    | Ok extensions =>
        Extension.Prefix <$> extensions = ["sreg"]
        ∧ ∀ e key v, e ∈ extensions →
            Extension.Params e !! key = Some v
            ↔ ¬ has_dot (Extension.Prefix e)
              ∧ example_extension_params !! (Extension.Prefix e +:+ "." +:+ key) = Some v
    end.
Proof.
  split; [exact example_range_order|].
  pose proof (parseExtensions_spec example_range example_extension_params
                example_range_order) as Hspec.
  destruct (parseExtensions example_range example_extension_params)
    as [extensions|err] eqn:Hparse.
  - destruct Hspec as (_ & _ & _ & _ & Hparams).
    split; [|exact Hparams].
    vm_compute in Hparse. injection Hparse as <-. reflexivity.
  - vm_compute in Hparse. discriminate Hparse.
Defined.

(** C7 as stated fails for a declared prefix with a dot in it: the field
    [a.b.c] belongs to the declared prefix [a.b], but its key is split at
    the first dot, so it is looked up under [a] and collected nowhere. *)
Lemma parseExtensions_dotted_prefix_counterexample :
  ¬ (∀ rg (params : gmap string string) extensions e key v,
       range_order rg →
       parseExtensions rg params = Ok extensions →
       e ∈ extensions →
       params !! (Extension.Prefix e +:+ "." +:+ key) = Some v →
       Extension.Params e !! key = Some v).
Proof.
  intros Hclaim.
  specialize (Hclaim example_range example_dotted_params
                [Extension.mk "http://example.org/ab" "a.b" ∅]
                (Extension.mk "http://example.org/ab" "a.b" ∅) "c" "v"
                example_range_order).
  assert (parseExtensions example_range example_dotted_params
          = Ok [Extension.mk "http://example.org/ab" "a.b" ∅]) as Hparse
    by (vm_compute; reflexivity).
  specialize (Hclaim Hparse).
  assert (Extension.mk "http://example.org/ab" "a.b" ∅
          ∈ [Extension.mk "http://example.org/ab" "a.b" ∅]) as Hin
    by (apply list_elem_of_singleton; reflexivity).
  specialize (Hclaim Hin).
  cbv beta iota delta [Extension.Prefix Extension.Params] in Hclaim.
  assert (example_dotted_params !! ("a.b" +:+ "." +:+ "c") = Some "v") as Hfield
    by (vm_compute; reflexivity).
  specialize (Hclaim Hfield). rewrite lookup_empty in Hclaim. discriminate Hclaim.
Qed.

(** ** The encoders on known vectors *)

Example base64_rfc4648 :
  to_string <$> (base64.EncodeToString <$>
                   (to_bytes <$> [""; "f"; "fo"; "foo"; "foob"; "fooba"; "foobar"]))
  = [""; "Zg=="; "Zm8="; "Zm9v"; "Zm9vYg=="; "Zm9vYmE="; "Zm9vYmFy"].
Proof. reflexivity. Qed.

Example base64_url_alphabet :
  to_string (base64.EncodeToString [ascii_of_nat 251; ascii_of_nat 255]) = "-_8=".
Proof. reflexivity. Qed.

Example ascii85_groups :
  to_string <$> (ascii85.Encode <$> [to_bytes "Man "; to_bytes "sure."; replicate 4 ascii85.zero])
  = ["9jqo^"; "F*2M7/c"; "z"].
Proof. reflexivity. Qed.

Example strings_Split_examples :
  strings_Split "" ","%char = [""]
  ∧ strings_Split "a,b,,c" ","%char = ["a"; "b"; ""; "c"]
  ∧ strings_SplitN2 "a.b.c" dot = ["a"; "b.c"]
  ∧ strings_Join ["a"; "b"; "c"] "," = "a,b,c".
Proof. repeat split; reflexivity. Qed.

Example ext_label_12 : ext_label 12 = "ext12".
Proof. reflexivity. Qed.

(** * Further properties *)

(** ** The HTTP form *)

Lemma string_app_cons c s r : String c s +:+ r = String c (s +:+ r).
Proof. reflexivity. Qed.

Lemma strings_CutPrefix_Some s prefix r :
  strings_CutPrefix s prefix = Some r ↔ s = prefix +:+ r.
Proof.
  revert s. induction prefix as [|c prefix IH].
  - intros s. change ("" +:+ r) with r. simpl. split; [by intros [= ->] | by intros ->].
  - intros [|d s']; rewrite string_app_cons; simpl; [done|].
    destruct (decide (c = d)) as [->|Hc].
    + rewrite IH. split; [by intros -> | by intros [= ->]].
    + split; [done|]. intros [= Hcd _]. done.
Qed.

Lemma strings_CutPrefix_app prefix r : strings_CutPrefix (prefix +:+ r) prefix = Some r.
Proof. by apply strings_CutPrefix_Some. Qed.

Lemma ParseHTTP_entry_lookup (p : gmap string string) k1 vs k :
  ParseHTTP_entry p (k1, vs) !! k
  = if decide (k1 = "openid." +:+ k) then
      match vs with x :: _ => Some x | [] => p !! k end
    else p !! k.
Proof.
  unfold ParseHTTP_entry, strings_HasPrefix, strings_TrimPrefix. cbn [fst snd].
  destruct (strings_CutPrefix k1 "openid.") as [r|] eqn:Hcut.
  - apply strings_CutPrefix_Some in Hcut. subst k1.
    rewrite bool_decide_eq_true_2 by (by eexists). simpl.
    destruct vs as [|x vs].
    + by case_decide.
    + rewrite lookup_insert. case_decide as Hr.
      * subst r. by rewrite decide_True.
      * rewrite decide_False; [done|]. intros Heq. apply Hr.
        by apply (inj (String.app "openid.")) in Heq.
  - rewrite bool_decide_eq_false_2 by (by intros [? ?]).
    rewrite decide_False; [done|]. intros ->.
    by rewrite strings_CutPrefix_app in Hcut.
Qed.

Lemma ParseHTTP_foldl kvs (p : gmap string string) k :
  NoDup kvs.*1 →
  foldl ParseHTTP_entry p kvs !! k
  = match (list_to_map kvs : Values) !! ("openid." +:+ k) with
    | Some (x :: _) => Some x
    | _ => p !! k
    end.
Proof.
  revert p. induction kvs as [|[k1 vs] kvs IH]; intros p Hnd.
  - simpl. by rewrite lookup_empty.
  - rewrite fmap_cons in Hnd. apply NoDup_cons in Hnd as [Hk1 Hnd].
    cbn [foldl list_to_map foldr fst snd]. rewrite (IH _ Hnd).
    rewrite ParseHTTP_entry_lookup, lookup_insert.
    destruct (decide (k1 = "openid." +:+ k)) as [->|Hne].
    + rewrite (not_elem_of_list_to_map_1 kvs ("openid." +:+ k)) by done. done.
    + done.
Qed.

(** X1: [ParseHTTP] keeps, under the name without the prefix [openid.],
    the first value of every key that has the prefix and at least one
    value, and nothing else, in whatever order the values are visited. *)
Theorem ParseHTTP_lookup order (v : Values) k :
  values_order order →
  ParseHTTP order v !! k
  = match v !! ("openid." +:+ k) with
    | Some (x :: _) => Some x
    | _ => None
    end.
Proof.
  intros Horder. unfold ParseHTTP.
  assert (NoDup (order v).*1) as Hnd.
  { rewrite (Horder v). apply NoDup_fst_map_to_list. }
  rewrite (ParseHTTP_foldl _ _ _ Hnd), lookup_empty.
  assert ((list_to_map (order v) : Values) = v) as ->; [|done].
  rewrite <- (list_to_map_to_list v) at 2.
  apply list_to_map_proper; [done|]. apply Horder.
Qed.

Lemma example_values_order_ok : values_order example_values_order.
Proof. intros v. reflexivity. Qed.

Lemma ParseHTTP_lookup_witness :
  values_order example_values_order
  ∧ ParseHTTP example_values_order example_values !! "mode" = Some "associate".
Proof.
  split; [exact example_values_order_ok|].
  exact (ParseHTTP_lookup example_values_order example_values "mode"
           example_values_order_ok).
Defined.

Lemma EncodeHTTP_foldl kvs (v : Values) key :
  NoDup kvs.*1 →
  foldl (λ v kv, Values_Set v ("openid." +:+ kv.1) kv.2) v kvs !! key
  = match strings_CutPrefix key "openid." with
    | Some k =>
        match (list_to_map kvs : gmap string string) !! k with
        | Some pv => Some [pv]
        | None => v !! key
        end
    | None => v !! key
    end.
Proof.
  revert v. induction kvs as [|[k1 pv] kvs IH]; intros v Hnd.
  - cbn [foldl list_to_map foldr].
    destruct (strings_CutPrefix key "openid."); [by rewrite lookup_empty|done].
  - rewrite fmap_cons in Hnd. apply NoDup_cons in Hnd as [Hk1 Hnd].
    cbn [foldl list_to_map foldr fst snd]. rewrite (IH _ Hnd).
    unfold Values_Set.
    destruct (strings_CutPrefix key "openid.") as [k|] eqn:Hcut.
    + apply strings_CutPrefix_Some in Hcut. subst key.
      rewrite (lookup_insert (list_to_map kvs)).
      destruct (decide (k1 = k)) as [->|Hne].
      * rewrite (not_elem_of_list_to_map_1 kvs k) by done.
        by rewrite lookup_insert_eq.
      * destruct (list_to_map kvs !! k); [done|].
        rewrite lookup_insert_ne; [done|]. intros Heq. apply Hne.
        by apply (inj (String.app "openid.")) in Heq.
    + rewrite lookup_insert_ne; [done|]. intros <-.
      by rewrite strings_CutPrefix_app in Hcut.
Qed.

(** X2: [EncodeHTTP] sets the key [openid.<k>] to the single value [p[k]]
    for every entry of [p] and leaves every other key of the values as it
    was, in whatever order the entries are visited. *)
Theorem EncodeHTTP_lookup rg (v : Values) (p : gmap string string) key :
  range_order rg →
  EncodeHTTP rg v p !! key
  = match strings_CutPrefix key "openid." with
    | Some k =>
        match p !! k with
        | Some pv => Some [pv]
        | None => v !! key
        end
    | None => v !! key
    end.
Proof.
  intros Hrg. unfold EncodeHTTP.
  assert (NoDup (rg 0%nat p).*1) as Hnd.
  { rewrite (Hrg 0%nat p). apply NoDup_fst_map_to_list. }
  rewrite (EncodeHTTP_foldl _ _ _ Hnd).
  assert ((list_to_map (rg 0%nat p) : gmap string string) = p) as ->; [|done].
  rewrite <- (list_to_map_to_list p) at 2.
  apply list_to_map_proper; [done|]. apply Hrg.
Qed.

Lemma EncodeHTTP_lookup_witness :
  range_order example_range
  ∧ EncodeHTTP example_range example_values example_message !! "openid.mode"
    = Some ["id_res"].
Proof.
  split; [exact example_range_order|].
  exact (EncodeHTTP_lookup example_range example_values example_message "openid.mode"
           example_range_order).
Defined.

(** X3: decoding what [EncodeHTTP] wrote gives the message back: the
    fields of [p], and besides them the fields the values held before.  On
    empty values the round trip is exact. *)
Theorem ParseHTTP_EncodeHTTP rg order (v : Values) (p : gmap string string) :
  range_order rg → values_order order →
  ParseHTTP order (EncodeHTTP rg v p) = p ∪ ParseHTTP order v
  ∧ ParseHTTP order (EncodeHTTP rg ∅ p) = p.
Proof.
  intros Hrg Horder.
  assert (∀ v0, ParseHTTP order (EncodeHTTP rg v0 p) = p ∪ ParseHTTP order v0) as Hgen.
  { intros v0. apply map_eq. intros k.
    rewrite (ParseHTTP_lookup order _ k Horder).
    rewrite (EncodeHTTP_lookup rg v0 p _ Hrg), strings_CutPrefix_app.
    rewrite lookup_union, (ParseHTTP_lookup order v0 k Horder).
    destruct (p !! k) as [pv|]; simpl.
    - by destruct (match v0 !! ("openid." +:+ k) with Some (x :: _) => Some x | _ => None end).
    - by rewrite (left_id_L None _). }
  split; [apply Hgen|]. rewrite Hgen.
  assert (ParseHTTP order ∅ = ∅) as ->.
  { apply map_eq. intros k. by rewrite (ParseHTTP_lookup order ∅ k Horder), !lookup_empty. }
  by rewrite (right_id_L ∅ (∪)).
Qed.

Lemma ParseHTTP_EncodeHTTP_witness :
  range_order example_range ∧ values_order example_values_order
  ∧ ParseHTTP example_values_order (EncodeHTTP example_range ∅ example_message)
    = example_message.
Proof.
  split; [exact example_range_order|]. split; [exact example_values_order_ok|].
  exact (proj2 (ParseHTTP_EncodeHTTP example_range example_values_order ∅ example_message
                  example_range_order example_values_order_ok)).
Defined.

(** ** The contract of the in-memory store *)

(** X4: [Add] stores the association under its endpoint and handle when
    nothing is stored there, after which [Get] returns it; when something is
    stored there it reports the duplicate and leaves the store as it is, so
    an association is never overwritten.  Other entries are not touched. *)
Theorem MemoryAssociationStore_Add_Get (a : Association.t) (s : MemoryAssociationStore.t) :
  match (MemoryAssociationStore.Get (Association.Endpoint a) (Association.Handle a) s).1 with
  | Some b => MemoryAssociationStore.Add a s = (Some ErrDuplicateAssociation, s)
  | None =>
      (MemoryAssociationStore.Add a s).1 = None
      ∧ MemoryAssociationStore.Get (Association.Endpoint a) (Association.Handle a)
          (MemoryAssociationStore.Add a s).2 = (Some a, None)
  end
  ∧ ∀ e h, (e, h) ≠ (Association.Endpoint a, Association.Handle a) →
      MemoryAssociationStore.Get e h (MemoryAssociationStore.Add a s).2
      = MemoryAssociationStore.Get e h s.
Proof.
  split; [|intros e h Hne; by apply MemoryAddFacts.Get_Add_ne].
  destruct (MemoryAddFacts.Add_cases a s) as [[Hadd [b Hg]]|[Hadd Hg]]; rewrite Hg; simpl.
  - done.
  - split; [done|]. by apply MemoryAddFacts.Get_Add_eq.
Qed.

(** X5: [Delete] never fails; afterwards nothing is stored under the
    endpoint and handle, every other entry is as before, and the handle can
    be added again.  Deleting what is absent changes nothing, so deleting
    twice is the same as deleting once. *)
Theorem MemoryAssociationStore_Delete_Get (endpoint handle : string)
    (s : MemoryAssociationStore.t) :
  let s' := (MemoryAssociationStore.Delete endpoint handle s).2 in
  (MemoryAssociationStore.Delete endpoint handle s).1 = None
  ∧ MemoryAssociationStore.Get endpoint handle s' = (None, None)
  ∧ (∀ e h, (e, h) ≠ (endpoint, handle) →
       MemoryAssociationStore.Get e h s' = MemoryAssociationStore.Get e h s)
  ∧ ((MemoryAssociationStore.Get endpoint handle s).1 = None → s' = s)
  ∧ (MemoryAssociationStore.Delete endpoint handle s').2 = s'
  ∧ ∀ a, Association.Endpoint a = endpoint → Association.Handle a = handle →
      (MemoryAssociationStore.Add a s').1 = None.
Proof.
  intros s'.
  assert (MemoryAssociationStore.Get endpoint handle s' = (None, None)) as Hgone
    by apply MemoryAssociationStoreFacts.Get_Delete_eq.
  split; [apply MemoryAssociationStoreFacts.Delete_no_error|].
  split; [done|].
  split; [intros e h Hne; by apply MemoryAssociationStoreFacts.Get_Delete_ne|].
  split; [|split].
  - intros Hnone. unfold s', MemoryAssociationStore.Delete.
    destruct (MemoryAssociationStoreFacts.Get_cases endpoint handle s) as [Hg|[b Hg]];
      rewrite Hg in *; [done|]. by simpl in Hnone.
  - unfold MemoryAssociationStore.Delete at 1. by rewrite Hgone.
  - intros a <- <-.
    destruct (MemoryAddFacts.Add_cases a s') as [[_ [b Hg]]|[Hadd _]]; [|done].
    rewrite Hgone in Hg. done.
Qed.

(** X6: in every state the store reaches from the new store by [Add] and
    [Delete], an association found under an endpoint and a handle carries
    that endpoint and that handle. *)
Theorem reachable_Get (s : MemoryAssociationStore.t) endpoint handle a :
  reachable s →
  MemoryAssociationStore.Get endpoint handle s = (Some a, None) →
  Association.Endpoint a = endpoint ∧ Association.Handle a = handle.
Proof.
  intros Hreach.
  assert (MemoryAssociationStore.wf s) as Hwf.
  { induction Hreach.
    - apply MemoryAssociationStoreFacts.wf_New.
    - by apply MemoryAssociationStoreFacts.wf_Add.
    - by apply MemoryAssociationStoreFacts.wf_Delete. }
  intros Hget.
  apply MemoryAssociationStoreFacts.Get_Some in Hget as (_ & assocs & He & Hh).
  by eapply Hwf.
Qed.

Lemma reachable_Get_witness :
  reachable example_store
  ∧ MemoryAssociationStore.Get "" "h1" example_store = (Some example_assoc, None)
  ∧ Association.Endpoint example_assoc = "" ∧ Association.Handle example_assoc = "h1".
Proof.
  assert (reachable example_store) as Hreach
    by apply reachable_Add, reachable_New.
  split; [exact Hreach|]. split; [reflexivity|].
  exact (reachable_Get example_store "" "h1" example_assoc Hreach eq_refl).
Defined.

(** ** Handles and nonces *)

Lemma ascii85_digits_length v : length (ascii85.digits v) = 5%nat.
Proof. reflexivity. Qed.

Lemma ascii85_Encode_length n src :
  length src = (4 * n)%nat →
  (n ≤ length (ascii85.Encode src) ≤ 5 * n)%nat.
Proof.
  revert src. induction n as [|n IH]; intros src Hlen.
  - destruct src; [simpl; lia|done].
  - destruct src as [|a [|b [|c [|d rest]]]]; simpl in Hlen; try lia.
    specialize (IH rest). cbn [ascii85.Encode]. rewrite length_app.
    destruct (decide (ascii85.word a b c d = 0%N)).
    + simpl. lia.
    + rewrite ascii85_digits_length. lia.
Qed.

Lemma to_string_length b : String.length (to_string b) = length b.
Proof. induction b as [|c b IH]; simpl; [done|]. by rewrite IH. Qed.

Section Handles.
Context {St : Type} `{AssociationStore St}.

Lemma saveAssociation_loop_handle n a (w : World St) :
  match saveAssociation_loop n a w with
  | ((None, a'), _) =>
      ∃ handle, length handle = 16%nat
        ∧ a' = with_Handle a (to_string (ascii85.Encode handle))
  | ((Some _, _), _) => True
  end.
Proof.
  revert a w. induction n as [|n IH]; intros a w; cbn [saveAssociation_loop]; [done|].
  destruct (rand_Read 16 (rand w)) as [[handle|err] r] eqn:Hr; [|done].
  apply rand_Read_Ok in Hr as [Hfill _]. apply rand_fill_length in Hfill.
  destruct (Add _ (store w)) as [[err|] s].
  - case_decide; [done|].
    specialize (IH (with_Handle a (to_string (ascii85.Encode handle)))
                   (with_store (with_rand w r) s)).
    destruct (saveAssociation_loop n _ _) as [[[err'|] a'] w']; [done|].
    destruct IH as (handle' & Hlen & ->). exists handle'. split; [done|]. by destruct a.
  - by exists handle.
Qed.

(** X7: a handle under which [saveAssociation] stores an association is
    the ascii85 text of 16 bytes: it is never empty and has at most 20
    bytes, the size of the buffer it is encoded into. *)
Theorem saveAssociation_handle_length a (w : World St) :
  match saveAssociation a w with
  | ((None, a'), _) =>
      (4 ≤ String.length (Association.Handle a') ≤ 20)%nat
      ∧ Association.Handle a' ≠ ""
      ∧ Association.Endpoint a' = Association.Endpoint a
      ∧ Association.Secret a' = Association.Secret a
      ∧ Association.Type_ a' = Association.Type_ a
      ∧ Association.Expires a' = Association.Expires a
  | ((Some _, _), _) => True
  end.
Proof.
  unfold saveAssociation. pose proof (saveAssociation_loop_handle 10 a w) as Hh.
  destruct (saveAssociation_loop 10 a w) as [[[err|] a'] w']; [done|].
  destruct Hh as (handle & Hlen & ->). cbn [with_Handle Association.Handle
    Association.Endpoint Association.Secret Association.Type_ Association.Expires].
  pose proof (ascii85_Encode_length 4 handle Hlen) as Hb.
  rewrite to_string_length. split; [lia|]. split; [|done].
  intros Hempty. apply (f_equal String.length) in Hempty.
  rewrite to_string_length in Hempty. simpl in Hempty. lia.
Qed.

Variable RFC3339 : Time → string.

(** X8: [getNonce] reads 16 random bytes and then the clock once; the
    nonce is the formatted time followed by 4 to 20 bytes of ascii85 text.
    When the random source fails the error is returned and neither the
    source nor the clock has moved.  The store and the response are not
    touched. *)
Theorem getNonce_spec (w : World St) :
  match getNonce RFC3339 w with
  | (Ok nonce, w') =>
      (∃ bytes, rand_fill (rand_src (rand w)) (rand_pos (rand w)) 16 = Ok bytes
         ∧ nonce = RFC3339 (clock_src (clock w) (clock_pos (clock w)))
                   +:+ to_string (ascii85.Encode bytes)
         ∧ (4 ≤ length (ascii85.Encode bytes) ≤ 20)%nat)
      ∧ rand w' = mkRand (rand_src (rand w)) (rand_pos (rand w) + 16)
      ∧ clock w' = mkClock (clock_src (clock w)) (S (clock_pos (clock w)))
      ∧ store w' = store w ∧ written w' = written w
  | (Err err, w') =>
      rand_fill (rand_src (rand w)) (rand_pos (rand w)) 16 = Err err ∧ w' = w
  end.
Proof.
  unfold getNonce.
  destruct (rand_Read 16 (rand w)) as [[bytes|err] r] eqn:Hr.
  - apply rand_Read_Ok in Hr as [Hfill ->]. cbn [time_Now].
    split; [|done]. exists bytes. split; [done|]. split; [done|].
    apply (ascii85_Encode_length 4). by eapply rand_fill_length.
  - apply rand_Read_Err in Hr as [Hfill ->]. split; [done|]. by destruct w.
Qed.
End Handles.

(** ** Associations handed out *)

Section Handout.
Implicit Types (w : World MemoryAssociationStore.t).

Lemma getAssociation_new_stored (a0 : option Association.t) w a w' :
  MemoryAssociationStore.wf (store w) →
  getAssociation_new a0 w = ((Some a, None), w') →
  MemoryAssociationStore.Get "" (Association.Handle a) (store w') = (Some a, None)
  ∧ Association.Handle a ≠ ""
  ∧ MemoryAssociationStore.wf (store w').
Proof.
  intros Hwf. unfold getAssociation_new.
  destruct (rand_Read 128 (rand w)) as [[secret|err] r]; [|by destruct a0].
  cbn [time_Now].
  set (a1 := Association.mk _ _ _ _ _). set (w1 := with_clock _ _).
  pose proof (saveAssociation_loop_memory 10 a1 w1) as Hm.
  pose proof (saveAssociation_loop_handle 10 a1 w1) as Hh.
  unfold saveAssociation in *.
  destruct (saveAssociation_loop 10 a1 w1) as [[[err|] a'] w2]; [done|].
  intros [= <- <-].
  destruct Hm as (_ & Hfree & Hadd & Hs & _).
  destruct Hh as (handle & Hlen & Ha').
  change (store w1) with (store w) in *. rewrite Hs.
  split; [|split; [|by apply MemoryAssociationStoreFacts.wf_Add]].
  - replace "" with (Association.Endpoint a') at 1 by (by rewrite Ha').
    by apply MemoryAddFacts.Get_Add_eq.
  - rewrite Ha'. cbn [with_Handle Association.Handle].
    intros Hempty. apply (f_equal String.length) in Hempty.
    rewrite to_string_length in Hempty.
    pose proof (ascii85_Encode_length 4 handle Hlen). simpl in Hempty. lia.
Qed.

Lemma getAssociation_Some_stored (requestHandle nonce : string) w a w' :
  MemoryAssociationStore.wf (store w) →
  getAssociation requestHandle nonce w = ((Some a, None), w') →
  MemoryAssociationStore.Get "" (Association.Handle a) (store w') = (Some a, None)
  ∧ Association.Handle a ≠ ""
  ∧ MemoryAssociationStore.wf (store w').
Proof.
  intros Hwf. unfold getAssociation.
  destruct (decide (requestHandle ≠ "")) as [Hne|_];
    [|by apply getAssociation_new_stored].
  cbn [Get Delete MemoryAssociationStore_AssociationStore].
  destruct (MemoryAssociationStoreFacts.Get_cases "" requestHandle (store w))
    as [Hg|[b Hg]]; rewrite Hg.
  - apply getAssociation_new_stored. by destruct w.
  - cbn [time_Now]. case_bool_decide.
    + intros [= <- <-]. cbn [store with_clock with_store].
      assert (Association.Handle b = requestHandle) as ->.
      { apply MemoryAssociationStoreFacts.Get_Some in Hg as (_ & assocs & He & Hh).
        by destruct (Hwf _ _ _ _ He Hh). }
      done.
    + destruct (MemoryAssociationStore.Delete "" requestHandle (store w)) as [e s] eqn:Hd.
      apply getAssociation_new_stored. cbn [store with_clock with_store].
      replace s with (MemoryAssociationStore.Delete "" requestHandle (store w)).2
        by (by rewrite Hd).
      by apply MemoryAssociationStoreFacts.wf_Delete.
Qed.

(** X9: an association [getAssociation] returns is in the store it leaves
    behind, under the empty endpoint and its own handle, which is not empty;
    and the store keeps every association under its own endpoint and
    handle. *)
Theorem getAssociation_stored (requestHandle nonce : string) w a w' :
  MemoryAssociationStore.wf (store w) →
  getAssociation requestHandle nonce w = ((Some a, None), w') →
  MemoryAssociationStore.Get "" (Association.Handle a) (store w') = (Some a, None)
  ∧ Association.Handle a ≠ ""
  ∧ MemoryAssociationStore.wf (store w').
Proof. apply getAssociation_Some_stored. Qed.

(** X10: an association handed out can be asked for again by its handle:
    as long as the store is the one left behind and the time read is
    strictly before its expiry, [getAssociation] returns that same
    association and changes nothing but the clock. *)
Theorem getAssociation_again (requestHandle nonce nonce' : string) w a w' w2 :
  MemoryAssociationStore.wf (store w) →
  getAssociation requestHandle nonce w = ((Some a, None), w') →
  store w2 = store w' →
  clock_src (clock w2) (clock_pos (clock w2)) < Association.Expires a →
  getAssociation (Association.Handle a) nonce' w2
  = ((Some a, None),
     with_clock w2 (mkClock (clock_src (clock w2)) (S (clock_pos (clock w2))))).
Proof.
  intros Hwf Hget Hstore Hnow.
  destruct (getAssociation_Some_stored _ _ _ _ _ Hwf Hget) as (Hstored & Hne & _).
  unfold getAssociation. rewrite decide_True by done.
  cbn [Get MemoryAssociationStore_AssociationStore]. rewrite Hstore, Hstored.
  cbn [time_Now]. rewrite bool_decide_eq_true_2 by done.
  do 2 f_equal. rewrite <- Hstore. by destruct w2.
Qed.
End Handout.

Lemma example_store_wf : MemoryAssociationStore.wf example_store.
Proof.
  apply MemoryAssociationStoreFacts.wf_Add, MemoryAssociationStoreFacts.wf_New.
Qed.

Lemma getAssociation_stored_witness :
  MemoryAssociationStore.wf (store example_world)
  ∧ MemoryAssociationStore.Get "" "h1" example_store = (Some example_assoc, None)
  ∧ Association.Handle example_assoc ≠ "".
Proof.
  split; [exact example_store_wf|].
  destruct (getAssociation_stored "h1" "nonce" example_world example_assoc
              (with_clock example_world (mkClock (clock_src (clock example_world)) 1))
              example_store_wf eq_refl) as (Hstored & Hne & _).
  split; [exact Hstored | exact Hne].
Defined.

Lemma getAssociation_again_witness :
  MemoryAssociationStore.wf (store example_world)
  ∧ getAssociation "h1" "second" (with_clock example_world
                                    (mkClock (clock_src (clock example_world)) 1))
    = ((Some example_assoc, None),
       with_clock example_world (mkClock (clock_src (clock example_world)) 2)).
Proof.
  split; [exact example_store_wf|].
  exact (getAssociation_again "h1" "nonce" "second" example_world example_assoc
           (with_clock example_world (mkClock (clock_src (clock example_world)) 1))
           (with_clock example_world (mkClock (clock_src (clock example_world)) 1))
           example_store_wf eq_refl eq_refl eq_refl).
Defined.

(** ** What a signature covers *)

Lemma signed_line_app (params : gmap string string) k rest :
  signed_line params k ++ rest
  = to_bytes k ++ ":"%char :: to_bytes (params @ k) ++ newline :: rest.
Proof.
  unfold signed_line, index. rewrite <- !(assoc_L (++)). reflexivity.
Qed.

Lemma signed_lines_inj (p1 p2 : gmap string string) signed :
  Forall (λ k, (newline ∉ to_bytes (p1 @ k)) ∧ (newline ∉ to_bytes (p2 @ k))) signed →
  concat (signed_line p1 <$> signed) = concat (signed_line p2 <$> signed) →
  Forall (λ k, p1 @ k = p2 @ k) signed.
Proof.
  induction signed as [|k signed IH]; intros Hnl Heq; [constructor|].
  apply Forall_cons in Hnl as [[Hn1 Hn2] Hnl].
  rewrite !fmap_cons in Heq. cbn [concat] in Heq. rewrite !signed_line_app in Heq.
  apply app_inv_head in Heq. injection Heq as Heq.
  pose proof (proj2 (cut_Some newline _ (to_bytes (p1 @ k))
                       (concat (signed_line p1 <$> signed))) (conj eq_refl Hn1)) as Hc1.
  rewrite Heq in Hc1.
  rewrite (proj2 (cut_Some newline _ (to_bytes (p2 @ k))
                    (concat (signed_line p2 <$> signed))) (conj eq_refl Hn2)) in Hc1.
  injection Hc1 as Hv Hrest. constructor.
  - by apply (inj to_bytes).
  - by apply IH.
Qed.

Lemma signed_lines_ext (p1 p2 : gmap string string) signed :
  Forall (λ k, p1 @ k = p2 @ k) signed →
  signed_line p1 <$> signed = signed_line p2 <$> signed.
Proof.
  intros Hsame. apply Forall_fmap_ext_1. eapply Forall_impl; [done|].
  intros k Hk. unfold signed_line. fold (p1 @ k). fold (p2 @ k). by rewrite Hk.
Qed.

(** X11: for a supported type and values without a newline, two parameter
    maps get the same signature under every MAC exactly when they agree on
    every signed field: the bytes that are signed determine the signed
    values. *)
Theorem sign_covers_signed_values (a : Association.t) (p1 p2 : gmap string string)
    (signed : list string) :
  Association.Type_ a = "HMAC-SHA1" ∨ Association.Type_ a = "HMAC-SHA256" →
  Forall (λ k, (newline ∉ to_bytes (p1 @ k)) ∧ (newline ∉ to_bytes (p2 @ k))) signed →
  (∀ hmac_Sum, sign hmac_Sum a p1 signed = sign hmac_Sum a p2 signed)
  ↔ Forall (λ k, p1 @ k = p2 @ k) signed.
Proof.
  intros Htype Hnl. split.
  - intros Hsame. apply (signed_lines_inj _ _ _ Hnl).
    specialize (Hsame (indicator_hmac (concat (signed_line p1 <$> signed)))).
    rewrite !sign_unfold in Hsame. unfold indicator_hmac in Hsame.
    destruct (decide (concat (signed_line p2 <$> signed)
                      = concat (signed_line p1 <$> signed))) as [Heq|Hne]; [done|].
    destruct (decide (concat (signed_line p1 <$> signed)
                      = concat (signed_line p1 <$> signed))) as [_|Hne']; [|done].
    exfalso. destruct Htype as [Ht|Ht]; rewrite Ht in Hsame.
    + destruct (decide ("HMAC-SHA1" = "HMAC-SHA1")) as [_|?]; [|done].
      discriminate Hsame.
    + destruct (decide ("HMAC-SHA256" = "HMAC-SHA1")) as [?|_]; [done|].
      destruct (decide ("HMAC-SHA256" = "HMAC-SHA256")) as [_|?]; [|done].
      discriminate Hsame.
  - intros Hsame hmac_Sum. rewrite !sign_unfold.
    by rewrite (signed_lines_ext _ _ _ Hsame).
Qed.

Lemma sign_covers_signed_values_witness :
  (Association.Type_ example_assoc = "HMAC-SHA1"
   ∨ Association.Type_ example_assoc = "HMAC-SHA256")
  ∧ ((∀ hmac_Sum, sign hmac_Sum example_assoc example_check_params ["mode"]
                  = sign hmac_Sum example_assoc example_bad_ns_params ["mode"])
     ↔ Forall (λ k, example_check_params @ k = example_bad_ns_params @ k) ["mode"]).
Proof.
  assert (Association.Type_ example_assoc = "HMAC-SHA1"
          ∨ Association.Type_ example_assoc = "HMAC-SHA256") as Ht by (by right).
  split; [exact Ht|].
  apply (sign_covers_signed_values example_assoc example_check_params
           example_bad_ns_params ["mode"] Ht).
  constructor; [|constructor]. split.
  - apply (bool_decide_unpack _). vm_compute. exact I.
  - apply (bool_decide_unpack _). vm_compute. exact I.
Defined.

(** X12: values are written without escaping, so a newline in a value
    can move content from one signed field to the next: the two maps below
    differ in both fields and get the same signature, whatever the MAC and
    the association. *)
Theorem sign_newline_shift hmac_Sum (a : Association.t) (k1 k2 v u t : string) :
  k1 ≠ k2 →
  sign hmac_Sum a (shifted_left k1 k2 v u t) [k1; k2]
  = sign hmac_Sum a (shifted_right k1 k2 v u t) [k1; k2]
  ∧ shifted_left k1 k2 v u t @ k1 ≠ shifted_right k1 k2 v u t @ k1.
Proof.
  intros Hne.
  assert (shifted_left k1 k2 v u t @ k1 = v +:+ String newline (k2 +:+ ":" +:+ u)) as Hl1.
  { unfold shifted_left, index. by rewrite lookup_insert_eq. }
  assert (shifted_left k1 k2 v u t @ k2 = t) as Hl2.
  { unfold shifted_left, index.
    by rewrite lookup_insert_ne, lookup_singleton_eq by done. }
  assert (shifted_right k1 k2 v u t @ k1 = v) as Hr1.
  { unfold shifted_right, index. by rewrite lookup_insert_eq. }
  assert (shifted_right k1 k2 v u t @ k2 = u +:+ String newline (k2 +:+ ":" +:+ t)) as Hr2.
  { unfold shifted_right, index.
    by rewrite lookup_insert_ne, lookup_singleton_eq by done. }
  split.
  - rewrite !sign_unfold.
    assert (concat (signed_line (shifted_left k1 k2 v u t) <$> [k1; k2])
            = concat (signed_line (shifted_right k1 k2 v u t) <$> [k1; k2])) as ->; [|done].
    cbn [fmap list_fmap concat].
    rewrite !signed_line_app, Hl1, Hl2, Hr1, Hr2.
    rewrite !to_bytes_app.
    change (to_bytes (String newline (k2 +:+ ":" +:+ u)))
      with (newline :: to_bytes (k2 +:+ ":" +:+ u)).
    change (to_bytes (String newline (k2 +:+ ":" +:+ t)))
      with (newline :: to_bytes (k2 +:+ ":" +:+ t)).
    rewrite !to_bytes_app. change (to_bytes ":") with [":"%char].
    repeat first [rewrite <- app_assoc | progress cbn [app]]. reflexivity.
  - rewrite Hl1, Hr1. intros Heq.
    apply (f_equal (λ s, length (to_bytes s))) in Heq. cbv beta in Heq.
    rewrite to_bytes_app, length_app in Heq.
    change (to_bytes (String newline (k2 +:+ ":" +:+ u)))
      with (newline :: to_bytes (k2 +:+ ":" +:+ u)) in Heq.
    cbn [length] in Heq. lia.
Qed.

Lemma sign_newline_shift_witness :
  "a" ≠ "b"
  ∧ sign example_hmac example_assoc (shifted_left "a" "b" "1" "2" "3") ["a"; "b"]
    = sign example_hmac example_assoc (shifted_right "a" "b" "1" "2" "3") ["a"; "b"].
Proof.
  assert ("a" ≠ "b") as Hne by done.
  split; [exact Hne|].
  exact (proj1 (sign_newline_shift example_hmac example_assoc "a" "b" "1" "2" "3" Hne)).
Defined.

(** ** From the assertion to its verification *)

Section SplitJoin.
Context {A : Type} `{EqDecision A}.

Lemma Split_no_sep (l : list A) sep : sep ∉ l → Split l sep = [l].
Proof.
  induction l as [|x l IH]; intros Hn; simpl; [done|].
  apply not_elem_of_cons in Hn as [Hx Hn].
  rewrite decide_False by done. by rewrite IH.
Qed.

Lemma Split_app (a b : list A) sep :
  sep ∉ a → Split (a ++ sep :: b) sep = a :: Split b sep.
Proof.
  induction a as [|x a IH]; intros Hn; simpl.
  - by rewrite decide_True.
  - apply not_elem_of_cons in Hn as [Hx Hn].
    rewrite decide_False by done. by rewrite IH.
Qed.
End SplitJoin.

Lemma strings_Split_Join (l : list string) :
  l ≠ [] → Forall (λ s, ","%char ∉ to_bytes s) l →
  strings_Split (strings_Join l ",") ","%char = l.
Proof.
  intros Hne Hl. unfold strings_Split.
  induction l as [|s l IH]; [done|]. apply Forall_cons in Hl as [Hs Hl].
  destruct l as [|s' l].
  - simpl. rewrite Split_no_sep by done. simpl. by rewrite to_string_to_bytes.
  - cbn [strings_Join]. rewrite !to_bytes_app.
    change (to_bytes ",") with [","%char]. cbn [app].
    rewrite Split_app by done. rewrite fmap_cons, to_string_to_bytes.
    f_equal. by apply IH.
Qed.

Section Verification.
Variable hmac_Sum : hashFunc → bytes → bytes → bytes.
Variable rg : nat → gmap string string → list (string * string).

(** The fields signed for an assertion, presented with their signature,
    are accepted once. *)
Lemma checkAuthentication_assertion (params : gmap string string) (resp : LoginResponse.t)
    (nonce : string) (assoc : Association.t) rparams signed sig
    (s : MemoryAssociationStore.t) :
  login_fields rg params resp nonce assoc = Some (rparams, signed) →
  sign hmac_Sum assoc rparams signed = Ok sig →
  Forall (λ k, ","%char ∉ to_bytes k) signed →
  MemoryAssociationStore.Get "" (Association.Handle assoc) s = (Some assoc, None) →
  let request := verification_request (<["sig" := sig]> rparams) in
  ∃ s', checkAuthentication hmac_Sum request s
        = (Ok {[ "ns" := Namespace; "is_valid" := "true" ]}, s')
    ∧ MemoryAssociationStore.Get "" (Association.Handle assoc) s' = (None, None)
    ∧ checkAuthentication hmac_Sum request s'
      = (Ok {[ "ns" := Namespace; "is_valid" := "false" ]}, s').
Proof.
  intros Hfields Hsign Hcomma Hget request.
  destruct (login_fields_spec rg params resp nonce assoc)
    as (rparams' & chosen & Hfields' & _ & _ & _ & Hsigned & _ & _ & _ & _ & Hhandle & _).
  cbv zeta in *. rewrite Hfields in Hfields'. injection Hfields' as <- Hlist.
  assert (Forall (λ k, k ≠ "mode" ∧ k ≠ "sig") signed) as Hnames.
  { rewrite Hlist. repeat (apply Forall_cons; split; [done|]).
    apply Forall_app. split;
      [destruct (decide (LoginResponse.ClaimedID resp ≠ "")); repeat constructor; done|].
    apply Forall_app. split;
      [destruct (decide (LoginResponse.Identity resp ≠ "")); repeat constructor; done|].
    apply (Forall_impl _ _ _ (extension_fields_has_dot _ _ _ _)).
    intros k Hk. split; intros ->; revert Hk; solve_dotless. }
  assert (signed ≠ []) as Hne by (by rewrite Hlist).
  assert (rparams !! "signed" = Some (strings_Join signed ",")) as Hjoin
    by (rewrite Hlist; exact Hsigned).
  clear Hsigned.
  assert (request @ "assoc_handle" = Association.Handle assoc) as Hrh.
  { unfold request, verification_request, index.
    by rewrite !lookup_insert_ne, Hhandle by done. }
  assert (request @ "signed" = strings_Join signed ",") as Hrs.
  { unfold request, verification_request, index.
    by rewrite !lookup_insert_ne, Hjoin by done. }
  assert (request @ "sig" = sig) as Hrsig.
  { unfold request, verification_request, index.
    by rewrite lookup_insert_ne, lookup_insert_eq by done. }
  assert (sign hmac_Sum assoc request signed = Ok sig) as Hsign'.
  { rewrite <- Hsign. apply sign_ext. eapply Forall_impl; [exact Hnames|].
    intros k [Hm Hs]. unfold request, verification_request. cbv beta.
    by rewrite !lookup_insert_ne by done. }
  assert (∀ s0, checkAuthentication hmac_Sum request s0
                = match (MemoryAssociationStore.Get "" (Association.Handle assoc) s0).1 with
                  | None => (Ok (is_valid "false"), s0)
                  | Some found =>
                      match sign hmac_Sum found request signed with
                      | Err err => (Err err, s0)
                      | Ok sig' =>
                          if decide (sig ≠ sig') then (Ok (is_valid "false"), s0)
                          else (Ok (is_valid "true"),
                                (MemoryAssociationStore.Delete ""
                                   (Association.Handle found) s0).2)
                      end
                  end) as Hcheck.
  { intros s0. unfold checkAuthentication.
    cbn [Get Delete MemoryAssociationStore_AssociationStore].
    rewrite Hrh, Hrs, Hrsig, (strings_Split_Join signed Hne Hcomma).
    destruct (MemoryAssociationStoreFacts.Get_cases "" (Association.Handle assoc) s0)
      as [Hg|[found Hg]]; rewrite Hg; cbn [fst]; [done|].
    destruct (sign hmac_Sum found request signed) as [sig'|err]; [|done].
    destruct (decide (sig ≠ sig')); [done|].
    by destruct (MemoryAssociationStore.Delete "" (Association.Handle found) s0). }
  exists (MemoryAssociationStore.Delete "" (Association.Handle assoc) s).2.
  assert (MemoryAssociationStore.Get "" (Association.Handle assoc)
            (MemoryAssociationStore.Delete "" (Association.Handle assoc) s).2
          = (None, None)) as Hgone
    by apply MemoryAssociationStoreFacts.Get_Delete_eq.
  split; [|split; [done|]].
  - rewrite Hcheck, Hget. cbn [fst]. rewrite Hsign'.
    by rewrite decide_False by (intros Hn; by apply Hn).
  - by rewrite Hcheck, Hgone.
Qed.

(** X13: the fields [login] signs and delivers pass [checkAuthentication]
    once.  When no signed field name contains a comma, the request made of
    the delivered fields with [mode=check_authentication] is answered
    [is_valid: true] by a store that holds the association under its
    handle; the association is deleted, and the same request is then
    answered [is_valid: false]. *)
Theorem assertion_verifies_once (params : gmap string string) (resp : LoginResponse.t)
    (nonce : string) (assoc : Association.t) rparams signed sig
    (s : MemoryAssociationStore.t) :
  login_fields rg params resp nonce assoc = Some (rparams, signed) →
  sign hmac_Sum assoc rparams signed = Ok sig →
  Forall (λ k, ","%char ∉ to_bytes k) signed →
  MemoryAssociationStore.Get "" (Association.Handle assoc) s = (Some assoc, None) →
  let request := verification_request (<["sig" := sig]> rparams) in
  ∃ s', checkAuthentication hmac_Sum request s
        = (Ok {[ "ns" := Namespace; "is_valid" := "true" ]}, s')
    ∧ MemoryAssociationStore.Get "" (Association.Handle assoc) s' = (None, None)
    ∧ checkAuthentication hmac_Sum request s'
      = (Ok {[ "ns" := Namespace; "is_valid" := "false" ]}, s').
Proof. apply checkAuthentication_assertion. Qed.

End Verification.

Lemma assertion_verifies_once_witness :
  ∃ s',
    checkAuthentication example_hmac
      (verification_request (<["sig" := example_sig]> example_assertion.1)) example_store
    = (Ok {[ "ns" := Namespace; "is_valid" := "true" ]}, s')
    ∧ checkAuthentication example_hmac
        (verification_request (<["sig" := example_sig]> example_assertion.1)) s'
      = (Ok {[ "ns" := Namespace; "is_valid" := "false" ]}, s').
Proof.
  destruct (assertion_verifies_once example_hmac example_range example_login_params
              example_response "n1" example_assoc example_assertion.1 example_assertion.2
              example_sig example_store) as (s' & Hfirst & _ & Hsecond).
  - vm_compute. reflexivity.
  - vm_compute. reflexivity.
  - apply (@bool_decide_unpack _ (Forall_dec _ _)). vm_compute. exact I.
  - vm_compute. reflexivity.
  - exists s'. split; [exact Hfirst|exact Hsecond].
Defined.

(** ** The key-value form read back *)

Lemma EncodeKeyValue_loop_lines (w : Buffer) kvs :
  EncodeKeyValue_loop w kvs
  = (w ++ concat ((λ kv, key_value_line kv ++ [newline]) <$> kvs), None).
Proof.
  revert w. induction kvs as [|[k v] kvs IH]; intros w.
  - simpl. by rewrite app_nil_r.
  - cbn [EncodeKeyValue_loop]. rewrite WriteKeyValuePair_Buffer, IH.
    rewrite fmap_cons. cbn [concat]. unfold key_value_line. cbn [fst snd].
    repeat first [rewrite <- app_assoc | progress cbn [app]]. done.
Qed.

Lemma Split_lines (lines : list bytes) :
  lines ≠ [] → Forall (λ l, newline ∉ l) lines →
  ∃ body, concat ((λ l, l ++ [newline]) <$> lines) = body ++ [newline]
          ∧ Split body newline = lines.
Proof.
  induction lines as [|l lines IH]; intros Hne Hl; [done|].
  apply Forall_cons in Hl as [Hl Hlines].
  destruct lines as [|l' lines].
  - exists l. split; [by rewrite fmap_cons; simpl; rewrite app_nil_r|].
    by apply Split_no_sep.
  - destruct (IH ltac:(done) Hlines) as (body & Hbody & Hsplit).
    exists (l ++ newline :: body). split.
    + rewrite fmap_cons. cbn [concat]. rewrite Hbody.
      by rewrite <- !(assoc_L (++)).
    + rewrite Split_app by done. by rewrite Hsplit.
Qed.

Lemma ParseKeyValue_loop_lines kvs (p : gmap string string) :
  Forall (λ kv, ":"%char ∉ to_bytes kv.1) kvs →
  ParseKeyValue_loop (key_value_line <$> kvs) p
  = Ok (foldl (λ m kv, <[kv.1 := kv.2]> m) p kvs).
Proof.
  revert p. induction kvs as [|[k v] kvs IH]; intros p Hk; [done|].
  apply Forall_cons in Hk as [Hk Hkvs].
  rewrite fmap_cons. cbn [ParseKeyValue_loop foldl].
  unfold key_value_line at 1. cbn [fst snd] in *.
  rewrite SplitN2_app by done. rewrite !to_string_to_bytes. by apply IH.
Qed.

Lemma foldl_insert_list_to_map (kvs : list (string * string)) (m : gmap string string) :
  NoDup kvs.*1 →
  foldl (λ m kv, <[kv.1 := kv.2]> m) m kvs = list_to_map kvs ∪ m.
Proof.
  revert m. induction kvs as [|[k v] kvs IH]; intros m Hnd.
  - simpl. by rewrite (left_id_L ∅ (∪)).
  - rewrite fmap_cons in Hnd. apply NoDup_cons in Hnd as [Hk Hnd].
    cbn [foldl list_to_map foldr fst snd]. rewrite (IH _ Hnd).
    rewrite <- insert_union_l. symmetry. apply insert_union_r.
    by apply not_elem_of_list_to_map_1.
Qed.

(** X14: without its final newline, what [EncodeKeyValue] writes for a
    map with at least one entry is read back by [ParseKeyValue] as that map,
    provided no key contains a colon or a newline and no value contains a
    newline; values may contain colons. *)
Theorem ParseKeyValue_EncodeKeyValue rg (p : gmap string string) :
  range_order rg → p ≠ ∅ →
  (∀ k v, p !! k = Some v →
     (":"%char ∉ to_bytes k) ∧ (newline ∉ to_bytes k) ∧ (newline ∉ to_bytes v)) →
  ∃ body, EncodeKeyValue rg ([] : Buffer) p = (body ++ [newline], None)
          ∧ ParseKeyValue body = Ok p.
Proof.
  intros Hrg Hne Hp. unfold EncodeKeyValue.
  rewrite EncodeKeyValue_loop_lines. cbn [app].
  pose proof (range_order_visit rg 0%nat p Hrg) as [Hnd Helem].
  assert (Forall (λ kv, (":"%char ∉ to_bytes kv.1) ∧ (newline ∉ key_value_line kv))
            (rg 0%nat p)) as Hkvs.
  { apply Forall_forall. intros [k v] Hkv. apply Helem, Hp in Hkv as (Hc & Hk & Hv).
    split; [done|]. unfold key_value_line. cbn [fst snd].
    rewrite elem_of_app, elem_of_cons. intros [?|[Heq|?]]; [done| |done].
    discriminate Heq. }
  destruct (Split_lines (key_value_line <$> rg 0%nat p)) as (body & Hbody & Hsplit).
  - intros Hnil. apply fmap_nil_inv in Hnil. apply Hne.
    apply map_empty. intros k. destruct (p !! k) as [v|] eqn:Hk; [|done].
    apply Helem in Hk. rewrite Hnil in Hk. by apply elem_of_nil in Hk.
  - apply Forall_fmap. eapply Forall_impl; [exact Hkvs|]. by intros kv [_ ?].
  - exists body. rewrite <- list_fmap_compose in Hbody. split; [by rewrite <- Hbody|].
    unfold ParseKeyValue. rewrite Hsplit, ParseKeyValue_loop_lines.
    + rewrite foldl_insert_list_to_map by done. rewrite (right_id_L ∅ (∪)).
      f_equal. rewrite <- (list_to_map_to_list p) at 2.
      apply list_to_map_proper; [done|apply Hrg].
    + eapply Forall_impl; [exact Hkvs|]. by intros kv [? _].
Qed.

Lemma ParseKeyValue_EncodeKeyValue_witness :
  ∃ body, EncodeKeyValue example_range ([] : Buffer) example_colon_message
          = (body ++ [newline], None)
          ∧ ParseKeyValue body = Ok example_colon_message.
Proof.
  apply (ParseKeyValue_EncodeKeyValue example_range example_colon_message).
  - exact example_range_order.
  - intros Hempty. apply (f_equal (λ m : gmap string string, m !! "mode")) in Hempty.
    vm_compute in Hempty. discriminate Hempty.
  - intros k v Hkv. apply elem_of_map_to_list in Hkv.
    assert (Forall (λ kv : string * string,
                      (":"%char ∉ to_bytes kv.1) ∧ (newline ∉ to_bytes kv.1)
                      ∧ (newline ∉ to_bytes kv.2))
                   (map_to_list example_colon_message)) as Hall.
    { apply (@bool_decide_unpack _ (Forall_dec _ _)). vm_compute. exact I. }
    rewrite Forall_forall in Hall. exact (Hall (k, v) Hkv).
Defined.

(** ** What a request cannot do *)

Section Returns.
Variable hmac_Sum : hashFunc → bytes → bytes → bytes.
Variable Quote : string → string.
Variable url_Parse_ok : string → bool.
Variable RFC3339 : Time → string.
Variable rg : nat → gmap string string → list (string * string).
Context {St : Type} `{AssociationStore St}.

Lemma getAssociation_new_not_nil a (w : World St) :
  (getAssociation_new a w).1 ≠ (None, None).
Proof.
  unfold getAssociation_new.
  destruct (rand_Read 128 (rand w)) as [[secret|err] r]; [|done].
  destruct (time_Now (clock w)) as [now c].
  by destruct (saveAssociation _ _) as [[[err|] a'] w'].
Qed.

Lemma getAssociation_not_nil requestHandle nonce (w : World St) :
  (getAssociation requestHandle nonce w).1 ≠ (None, None).
Proof.
  unfold getAssociation. case_decide; [|apply getAssociation_new_not_nil].
  destruct (Get "" requestHandle (store w)) as [[[a|] [err|]] s]; try done.
  - destruct (time_Now (clock w)) as [now c]. case_bool_decide; [done|].
    destruct (Delete "" requestHandle s) as [? s']. apply getAssociation_new_not_nil.
  - apply getAssociation_new_not_nil.
Qed.

Lemma login_id_res_returns params resp (w : World St) :
  (login_id_res hmac_Sum Quote url_Parse_ok RFC3339 rg params resp w).1 = Returned.
Proof.
  unfold login_id_res. case_decide; [done|].
  destruct (getNonce RFC3339 w) as [[nonce|err] w1]; [|done].
  pose proof (getAssociation_not_nil (params @ "assoc_handle") nonce w1) as Hnil.
  destruct (getAssociation _ nonce w1) as [[[assoc|] [err|]] w2]; try done.
  destruct (login_fields_spec rg params resp nonce assoc) as (rparams & chosen & Hf & _).
  cbv zeta in Hf. rewrite Hf.
  by destruct (sign hmac_Sum assoc rparams _).
Qed.

Lemma login_switch_returns h params req (w : World St) end_ :
  params @ "mode" = "checkid_immediate" ∨ params @ "mode" = "checkid_setup" →
  login_switch Quote url_Parse_ok h params req w = inr end_ → end_.1 = Returned.
Proof.
  intros Hmode. unfold login_switch.
  destruct (decide (params @ "mode" = "checkid_immediate")).
  { destruct (call_Login h false req w) as [[resp err] w1].
    destruct (failure err); [by intros [= <-]|].
    destruct resp; [done|by intros [= <-]]. }
  destruct (decide (params @ "mode" = "checkid_setup")); [|by destruct Hmode].
  destruct (call_Login h true req w) as [[resp err] w1].
  destruct (failure err); [by intros [= <-]|].
  destruct resp; [done|]. by destruct err; intros [= <-].
Qed.

(** X15: [ServeHTTP] returns for every request, whatever the store and
    the collaborator answer: the panic of [login] on an unexpected mode is
    not reachable from the dispatcher, [getAssociation] never returns
    neither an association nor an error, so the handle of the association
    can be read, and the search for an extension prefix comes to an end. *)
Theorem ServeHTTP_returns h params (w : World St) :
  (ServeHTTP hmac_Sum Quote url_Parse_ok RFC3339 rg h params w).1 = Returned.
Proof.
  unfold ServeHTTP.
  set (w0 := if decide (params @ "ns" = Namespace) then w else _).
  destruct (decide (params @ "mode" = "associate")); [done|].
  destruct (decide (params @ "mode" = "checkid_immediate"
                    ∨ params @ "mode" = "checkid_setup")) as [Hmode|_].
  - unfold login. destruct (parseLoginRequest rg params) as [req|err]; [|done].
    destruct (login_switch Quote url_Parse_ok h params req w0) as [[resp w1]|end_] eqn:Hs.
    + apply login_id_res_returns.
    + by apply (login_switch_returns h params req w0).
  - destruct (decide (params @ "mode" = "check_authentication")); [|done].
    by destruct (checkAuthentication hmac_Sum params (store w0)).
Qed.

(** X16: when the collaborator gives no response, [login] reads neither
    the random source nor the clock nor the store: what it leaves behind is
    the state the collaborator left, with at most one message added.  An
    error other than [ErrUnauthenticated] is reported; otherwise
    [checkid_immediate] answers [setup_needed], and [checkid_setup] answers
    [cancel] after [ErrUnauthenticated] and writes nothing when there was no
    error.  A handler without collaborator behaves as one that gives no
    response and no error. *)
Theorem login_declined h params req (w : World St) err w1 :
  parseLoginRequest rg params = Ok req →
  params @ "mode" = "checkid_immediate" ∨ params @ "mode" = "checkid_setup" →
  call_Login h (bool_decide (params @ "mode" = "checkid_setup")) req w
  = ((None, err), w1) →
  let to := indirect url_Parse_ok (params @ "return_to") in
  login hmac_Sum Quote url_Parse_ok RFC3339 rg h params w
  = (Returned,
     match err with
     | Some e =>
         if decide (e = ErrUnauthenticated) then
           respond Quote to
             (Ok {[ "ns" := Namespace;
                    "mode" := if decide (params @ "mode" = "checkid_setup")
                              then "cancel" else "setup_needed" ]}) w1
         else respond Quote to (Err e) w1
     | None =>
         if decide (params @ "mode" = "checkid_setup") then w1
         else respond Quote to
                (Ok {[ "ns" := Namespace; "mode" := "setup_needed" ]}) w1
     end)
  ∧ (Login h = None → err = None ∧ w1 = w).
Proof.
  intros Hreq Hmode Hcall to. split.
  - unfold login, login_switch. rewrite Hreq. fold to.
    destruct (decide (params @ "mode" = "checkid_immediate")) as [Himm|Himm];
      destruct (decide (params @ "mode" = "checkid_setup")) as [Hsetup|Hsetup];
      try (by rewrite Himm in Hsetup); try (by destruct Hmode).
    + rewrite bool_decide_eq_false_2 in Hcall by done. rewrite Hcall.
      destruct err as [e|]; [|done]. unfold failure.
      by destruct (decide (e ≠ ErrUnauthenticated)) as [Hne|Heq%dec_stable];
        [rewrite decide_False|rewrite decide_True].
    + rewrite bool_decide_eq_true_2 in Hcall by done. rewrite Hcall.
      destruct err as [e|]; [|done]. unfold failure.
      by destruct (decide (e ≠ ErrUnauthenticated)) as [Hne|Heq%dec_stable];
        [rewrite decide_False|rewrite decide_True].
  - intros Hnone. unfold call_Login in Hcall. rewrite Hnone in Hcall.
    by injection Hcall as <- <-.
Qed.

(** X17: an [associate] request in the protocol's namespace is always
    refused: the answer is the direct response with status 400 that names
    the session type and carries [error-code: unsupported-type], also when
    the request has a [return_to]; nothing is stored and nothing else is
    written. *)
Theorem ServeHTTP_associate h params (w : World St) :
  params @ "ns" = Namespace → params @ "mode" = "associate" →
  ServeHTTP hmac_Sum Quote url_Parse_ok RFC3339 rg h params w
  = (Returned,
     write w (Direct 400
       {[ "ns" := Namespace; "mode" := "error";
          "error" := "session type " +:+ Quote (params @ "session_type")
                     +:+ " not supported";
          "error-code" := "unsupported-type" ]})).
Proof.
  intros Hns Hmode. unfold ServeHTTP.
  rewrite (decide_True (P := params @ "ns" = Namespace)) by done.
  rewrite (decide_True (P := params @ "mode" = "associate")) by done.
  unfold associate, direct, respond, makeError. cbn [errorParams Error].
  reflexivity.
Qed.

(** X18: the optional fields of an assertion.  [claimed_id] and
    [identity] are present exactly when the response has them non-empty;
    [invalidate_handle] is present exactly when the request named a handle
    and the association used has another one, it then holds the handle of
    the request, and it is never among the signed fields. *)
Theorem login_fields_optional params resp nonce assoc rparams signed :
  login_fields rg params resp nonce assoc = Some (rparams, signed) →
  rparams !! "claimed_id"
  = (if decide (LoginResponse.ClaimedID resp ≠ "")
     then Some (LoginResponse.ClaimedID resp) else None)
  ∧ rparams !! "identity"
    = (if decide (LoginResponse.Identity resp ≠ "")
       then Some (LoginResponse.Identity resp) else None)
  ∧ rparams !! "invalidate_handle"
    = (if decide (params @ "assoc_handle" ≠ ""
                  ∧ params @ "assoc_handle" ≠ Association.Handle assoc)
       then Some (params @ "assoc_handle") else None)
  ∧ "invalidate_handle" ∉ signed.
Proof.
  intros Hfields.
  destruct (login_fields_spec rg params resp nonce assoc)
    as (rparams' & chosen & Hfields' & _).
  cbv zeta in Hfields'. rewrite Hfields in Hfields'. injection Hfields' as _ Hsigned.
  assert ("invalidate_handle" ∉ signed) as Hnot.
  { rewrite Hsigned. intros Hin.
    repeat (apply elem_of_cons in Hin as [Hin|Hin]; [discriminate Hin|]).
    apply elem_of_app in Hin as [Hin|Hin].
    { destruct (decide (LoginResponse.ClaimedID resp ≠ ""));
        [apply list_elem_of_singleton in Hin; discriminate Hin|by apply elem_of_nil in Hin]. }
    apply elem_of_app in Hin as [Hin|Hin].
    { destruct (decide (LoginResponse.Identity resp ≠ ""));
        [apply list_elem_of_singleton in Hin; discriminate Hin|by apply elem_of_nil in Hin]. }
    pose proof (extension_fields_has_dot (λ n, rg (3 + n)) 0 chosen
                  (LoginResponse.Extensions resp)) as Hdots.
    rewrite Forall_forall in Hdots. apply Hdots in Hin. revert Hin. solve_dotless. }
  clear Hsigned. unfold login_fields in Hfields.
  destruct (decide (LoginResponse.ClaimedID resp ≠ "")) as [Hc|Hc];
    destruct (decide (LoginResponse.Identity resp ≠ "")) as [Hi|Hi];
    destruct (decide (params @ "assoc_handle" ≠ ""
                      ∧ params @ "assoc_handle" ≠ Association.Handle assoc)) as [Hh|Hh];
    match type of Hfields with
    | context [encodeExtensions ?r ?p ?e] =>
        destruct (encodeExtensions_spec r p e) as (p' & ch & Henc & _ & Hkeep);
        rewrite Henc in Hfields; injection Hfields as <- _
    end;
    (split_and!; [| | |exact Hnot]);
    (rewrite lookup_insert_ne by done);
    (rewrite Hkeep by solve_dotless); reflexivity.
Qed.
End Returns.

Lemma login_declined_witness :
  login example_hmac id (λ _, true) (λ _, "2026-01-01T00:00:00Z") example_range
        (mkHandler None) example_login_params example_world
  = (Returned, example_world).
Proof.
  refine (proj1 (login_declined example_hmac id (λ _, true) (λ _, "2026-01-01T00:00:00Z")
                   example_range (mkHandler None) example_login_params
                   (LoginRequest.mk "" "" "https://rp.example/cb" "" [])
                   example_world None example_world _ _ _)).
  - vm_compute. reflexivity.
  - right. reflexivity.
  - reflexivity.
Defined.

Lemma ServeHTTP_associate_witness :
  ServeHTTP example_hmac id (λ _, true) (λ _, "2026-01-01T00:00:00Z") example_range
            (mkHandler None) example_associate_params example_world
  = (Returned,
     write example_world (Direct 400
       {[ "ns" := Namespace; "mode" := "error";
          "error" := "session type DH-SHA256 not supported";
          "error-code" := "unsupported-type" ]})).
Proof.
  apply (ServeHTTP_associate example_hmac id (λ _, true) (λ _, "2026-01-01T00:00:00Z")
           example_range (mkHandler None) example_associate_params example_world).
  - reflexivity.
  - reflexivity.
Defined.

Lemma login_fields_optional_witness :
  example_assertion.1 !! "claimed_id" = Some "https://example.org/u1"
  ∧ example_assertion.1 !! "identity" = None
  ∧ example_assertion.1 !! "invalidate_handle" = None
  ∧ "invalidate_handle" ∉ example_assertion.2.
Proof.
  apply (login_fields_optional example_range example_login_params example_response "n1"
           example_assoc example_assertion.1 example_assertion.2).
  vm_compute. reflexivity.
Defined.

(** ** Extensions written and read back *)

Lemma extension_entry_has_dot p ext key v : extension_entry p ext key v → has_dot key.
Proof. intros [[-> _]|(k & -> & _)]; [apply has_dot_ns|apply has_dot_field]. Qed.

Lemma plain_prefix_not_ns p : plain_prefix p → p ≠ "ns".
Proof. by intros [Hb _] ->. Qed.

Lemma plain_prefix_ns_key p q k : plain_prefix p → "ns." +:+ q ≠ p +:+ "." +:+ k.
Proof.
  intros Hp Hk. rewrite <- ns_key_eq in Hk.
  apply dot_app_inj in Hk as [Heq _]; [|apply not_has_dot_ns|apply Hp].
  apply plain_prefix_not_ns in Hp. by apply Hp.
Qed.

Lemma extension_entry_prefix p q ext1 ext2 key v1 v2 :
  plain_prefix p → plain_prefix q →
  extension_entry p ext1 key v1 → extension_entry q ext2 key v2 → p = q.
Proof.
  intros Hp Hq [[-> _]|(k1 & -> & _)] [[Hk _]|(k2 & Hk & _)].
  - by apply ns_key_inj in Hk.
  - rewrite <- ns_key_eq in Hk.
    apply dot_app_inj in Hk as [<- _]; [|apply not_has_dot_ns|apply Hq].
    by apply plain_prefix_not_ns in Hq.
  - rewrite <- ns_key_eq in Hk.
    apply dot_app_inj in Hk as [-> _]; [|apply Hp|apply not_has_dot_ns].
    by apply plain_prefix_not_ns in Hp.
  - by apply dot_app_inj in Hk as [-> _]; [|apply Hp|apply Hq].
Qed.

Lemma extension_entry_value p ext key v1 v2 :
  plain_prefix p →
  extension_entry p ext key v1 → extension_entry p ext key v2 → v1 = v2.
Proof.
  intros Hp [[-> ->]|(k1 & -> & H1)] [[Hk ->]|(k2 & Hk & H2)].
  - done.
  - rewrite <- ns_key_eq in Hk.
    apply dot_app_inj in Hk as [<- _]; [|apply not_has_dot_ns|apply Hp].
    by apply plain_prefix_not_ns in Hp.
  - rewrite <- ns_key_eq in Hk.
    apply dot_app_inj in Hk as [-> _]; [|apply Hp|apply not_has_dot_ns].
    by apply plain_prefix_not_ns in Hp.
  - apply dot_app_inj in Hk as [_ <-]; [|apply Hp|apply Hp]. congruence.
Qed.

Lemma field_key_inj p k1 k2 : p +:+ "." +:+ k1 = p +:+ "." +:+ k2 → k1 = k2.
Proof. intros Hk. by apply (inj (String.app p)), (inj (String.app ".")) in Hk. Qed.

Lemma encodeExtensions_fields_lookup p kvs (m : gmap string string) key v :
  NoDup kvs.*1 →
  foldl (λ m kv, <[p +:+ "." +:+ kv.1 := kv.2]> m) m kvs !! key = Some v
  ↔ (∃ k, key = p +:+ "." +:+ k ∧ (k, v) ∈ kvs)
    ∨ ((∀ k v', key = p +:+ "." +:+ k → (k, v') ∉ kvs) ∧ m !! key = Some v).
Proof.
  revert m. induction kvs as [|[k1 v1] kvs IH]; intros m Hnd.
  - simpl. split; [intros Hm; right; split; [|done]|].
    + intros k v' _. apply not_elem_of_nil.
    + intros [(k & _ & Hin)|[_ Hm]]; [by apply elem_of_nil in Hin|done].
  - rewrite fmap_cons in Hnd. apply NoDup_cons in Hnd as [Hk1 Hnd].
    cbn [foldl fst snd] in *. rewrite (IH _ Hnd). clear IH. split.
    + intros [(k & -> & Hin)|[Hnot Hm]].
      * left. exists k. split; [done|]. by right.
      * rewrite lookup_insert in Hm. case_decide as Hkey.
        -- injection Hm as <-. left. exists k1. split; [done|]. by left.
        -- right. split; [|done]. intros k v' -> [Heq|Hin]%elem_of_cons.
           ++ by injection Heq as -> ->.
           ++ by eapply Hnot.
    + intros [(k & -> & [Heq|Hin]%elem_of_cons)|[Hnot Hm]].
      * injection Heq as -> ->. right. split; [|by rewrite lookup_insert_eq].
        intros k v' Hk Hin. apply field_key_inj in Hk as <-.
        apply Hk1. by apply (list_elem_of_fmap_2 fst _ (k1, v')).
      * left. by exists k.
      * right. split.
        -- intros k v' -> Hin. apply (Hnot k v' eq_refl). by right.
        -- rewrite lookup_insert_ne; [done|]. intros <-.
           apply (Hnot k1 v1 eq_refl). by left.
Qed.

Lemma encodeExtensions_extension_lookup p ext kvs (m : gmap string string) key v :
  visit (Extension.Params ext) kvs → plain_prefix p →
  foldl (λ m kv, <[p +:+ "." +:+ kv.1 := kv.2]> m)
        (<["ns." +:+ p := Extension.Namespace ext]> m) kvs !! key = Some v
  ↔ extension_entry p ext key v
    ∨ ((∀ v', ¬ extension_entry p ext key v') ∧ m !! key = Some v).
Proof.
  intros [Hnd Helem] Hp. rewrite (encodeExtensions_fields_lookup p kvs _ key v Hnd).
  assert (∀ k, "ns." +:+ p ≠ p +:+ "." +:+ k) as Hns.
  { intros k Hk. rewrite <- ns_key_eq in Hk.
    apply dot_app_inj in Hk as [<- _]; [|apply not_has_dot_ns|apply Hp].
    by apply plain_prefix_not_ns in Hp. }
  unfold extension_entry. split.
  - intros [(k & -> & Hin)|[Hnot Hm]].
    + left. right. exists k. by rewrite <- Helem.
    + rewrite lookup_insert in Hm. case_decide as Hkey.
      * injection Hm as <-. left. by left.
      * right. split; [|done]. intros v' [[-> _]|(k & -> & Hk)]; [done|].
        apply Helem in Hk. by eapply Hnot.
  - intros [[[-> ->]|(k & -> & Hk)]|[Hnot Hm]].
    + right. split; [by intros k v' Hk%Hns|by rewrite lookup_insert_eq].
    + left. exists k. by rewrite Helem.
    + right. split.
      * intros k v' -> Hin%Helem. apply (Hnot v'). right. by exists k.
      * rewrite lookup_insert_ne; [done|]. intros <-. apply (Hnot (Extension.Namespace ext)).
        by left.
Qed.

Lemma encodeExtensions_loop_entries rg extensions n st0 st :
  range_order rg →
  encodeExtensions_loop rg n extensions st0 = Some st →
  ∃ new, enc_chosen st = enc_chosen st0 ++ new
    ∧ length new = length extensions
    ∧ (NoDup new → Forall plain_prefix new →
       ∀ key v, enc_params st !! key = Some v ↔
         (∃ p ext, (p, ext) ∈ zip new extensions ∧ extension_entry p ext key v)
         ∨ ((∀ p ext v', (p, ext) ∈ zip new extensions → ¬ extension_entry p ext key v')
            ∧ enc_params st0 !! key = Some v)).
Proof.
  intros Hrg. revert n st0.
  induction extensions as [|ext extensions IH]; intros n st0; cbn [encodeExtensions_loop].
  - intros [= <-]. exists []. rewrite app_nil_r. split; [done|]. split; [done|].
    intros _ _ key v. simpl. split; [intros Hk; right; split; [|done]|].
    + intros p ext v' Hin. by apply elem_of_nil in Hin.
    + intros [(p & ext & Hin & _)|[_ Hk]]; [by apply elem_of_nil in Hin|done].
  - destruct (encodeExtensions_prefix _ _ _ _) as [[p i]|]; [|done].
    rewrite encodeExtensions_param_foldl. intros Hloop.
    destruct (IH _ _ Hloop) as (new & Hchosen & Hlen & Hentries). clear IH.
    cbn [enc_chosen enc_params] in *.
    exists (p :: new). split; [by rewrite Hchosen, <- (assoc_L (++))|].
    split; [by rewrite !length_cons, Hlen|].
    intros [Hp Hnd]%NoDup_cons [Hplain Hplains]%Forall_cons key v.
    rewrite (Hentries Hnd Hplains key v). clear Hentries.
    rewrite (encodeExtensions_extension_lookup p ext _ _ key v
               (range_order_visit rg n _ Hrg) Hplain).
    cbn [zip zip_with].
    assert (∀ q e, (q, e) ∈ zip new extensions → plain_prefix q ∧ q ≠ p) as Hother.
    { intros q e Hin. apply elem_of_zip_l in Hin.
      rewrite Forall_forall in Hplains. split; [by apply Hplains|]. by intros ->. }
    split.
    + intros [(q & e & Hin & He)|[Hnot [Hent|[Hnot' Hm]]]].
      * left. exists q, e. split; [by right|done].
      * left. exists p, ext. split; [by left|done].
      * right. split; [|done]. intros q e v' [Heq|Hin]%elem_of_cons.
        -- injection Heq as -> ->. apply Hnot'.
        -- by eapply Hnot.
    + intros [(q & e & [Heq|Hin]%elem_of_cons & He)|[Hnot Hm]].
      * injection Heq as -> ->. right. split; [|by left].
        intros q e v' Hin He'. destruct (Hother q e Hin) as [Hq Hne].
        apply Hne. symmetry. by eapply extension_entry_prefix.
      * left. by exists q, e.
      * right. split.
        -- intros q e v' Hin. apply Hnot. by right.
        -- right. split; [|done]. intros v'. apply Hnot. by left.
Qed.

Lemma prefix_choices_declared earlier extensions chosen :
  prefix_choices earlier extensions chosen →
  Forall (λ e, bannedPrefixes (Extension.Prefix e) = false) extensions →
  NoDup (earlier ++ (Extension.Prefix <$> extensions)) →
  chosen = Extension.Prefix <$> extensions.
Proof.
  revert earlier chosen.
  induction extensions as [|ext extensions IH]; intros earlier [|p chosen]; simpl;
    try done.
  intros [(_ & _ & Hchoice) Hrest] [Hban Hbans]%Forall_cons Hnd.
  rewrite Hban in Hchoice. cbn [orb] in Hchoice.
  rewrite bool_decide_eq_false_2 in Hchoice.
  - subst p. f_equal. apply (IH (earlier ++ [Extension.Prefix ext])); [done|done|].
    by rewrite <- (assoc_L (++)).
  - apply NoDup_app in Hnd as (_ & Hnot & _). intros Hin. apply (Hnot _ Hin). by left.
Qed.

Lemma elem_of_zip_fmap {A B} (f : A → B) (l : list A) (y : B) (x : A) :
  (y, x) ∈ zip (f <$> l) l ↔ x ∈ l ∧ y = f x.
Proof.
  induction l as [|a l IH]; simpl.
  - split; [by intros ?%elem_of_nil|by intros [?%elem_of_nil _]].
  - rewrite !elem_of_cons, IH. split.
    + intros [[= -> ->]|[? ->]]; [by split; [left|]|by split; [right|]].
    + intros [[->|?] ->]; [by left|by right].
Qed.

Lemma parseExtensions_members rg (params : gmap string string) :
  range_order rg →
  (∀ p ns, declares params p ns → bannedPrefixes p = false) →
  (∀ p1 p2 ns, declares params p1 ns → declares params p2 ns → p1 = p2) →
  ∃ extensions, parseExtensions rg params = Ok extensions
    ∧ NoDup (Extension.Prefix <$> extensions)
    ∧ (∀ p ns, declares params p ns →
         ∃ e, e ∈ extensions ∧ Extension.Prefix e = p ∧ Extension.Namespace e = ns)
    ∧ (∀ e, e ∈ extensions →
         declares params (Extension.Prefix e) (Extension.Namespace e)
         ∧ ∀ key v, Extension.Params e !! key = Some v
                    ↔ collectable (Extension.Prefix e)
                      ∧ params !! (Extension.Prefix e +:+ "." +:+ key) = Some v).
Proof.
  intros Hrg Hban Hinj. unfold parseExtensions.
  pose proof (range_order_visit rg 0 params Hrg) as [Hnd0 Hel0].
  pose proof (parseExtensions_declare_spec (rg 0%nat params) ∅ ∅ Hnd0) as Hdecl.
  destruct (parseExtensions_declare (rg 0%nat params) ∅ ∅) as [prefixes|err].
  2:{ exfalso. destruct Hdecl as (_ & Hwhy); [done|done|].
      destruct Hwhy as [(p & v & Hin & Hb)|(p1 & p2 & ns & Hne & H1 & H2)].
      - apply Hel0 in Hin. apply Hban in Hin. by rewrite Hin in Hb.
      - rewrite (declared_by_empty rg) in H1, H2 by done. by apply Hne, (Hinj p1 p2 ns). }
  destruct Hdecl as (Hprefixes & _ & _); [done|done|].
  assert (∀ p ns, prefixes !! p = Some ns ↔ declares params p ns) as Hpd.
  { intros p ns. by rewrite Hprefixes, declared_by_empty. }
  pose proof (range_order_visit rg 1 prefixes Hrg) as [Hnd1 Hel1].
  set (pns := rg 1%nat prefixes) in *.
  destruct (parseExtensions_place_spec pns [] (replicate (size prefixes) (Extension.mk "" "" ∅))
              ∅ Hnd1) as (positions & Hplace & Hpositions).
  { rewrite length_replicate. unfold pns. by rewrite (visit_length rg 1 prefixes Hrg). }
  cbn [length app] in Hplace. rewrite Hplace.
  set (exts0 := declared_extension <$> pns) in *.
  assert (∀ p i, positions !! p = Some i
                 ↔ ∃ e, exts0 !! i = Some e ∧ Extension.Prefix e = p) as Hpos.
  { intros p i. rewrite Hpositions. unfold exts0. rewrite list_lookup_fmap. split.
    - intros [(j & ns & Hj & ->)|[_ Hempty]]; [|by rewrite lookup_empty in Hempty].
      simpl. rewrite Hj. by eexists.
    - intros (e & He & <-). left.
      destruct (pns !! i) as [[p ns]|] eqn:Hi; [|done].
      injection He as <-. by exists i, ns. }
  pose proof (range_order_visit rg 2 params Hrg) as [Hnd2 Hel2].
  set (exts := parseExtensions_collect (rg 2%nat params) positions exts0).
  assert (∀ i e, exts !! i = Some e →
            ∃ p ns, pns !! i = Some (p, ns) ∧ Extension.Prefix e = p
              ∧ Extension.Namespace e = ns
              ∧ ∀ key v, Extension.Params e !! key = Some v
                         ↔ collectable p ∧ params !! (p +:+ "." +:+ key) = Some v) as Hexts.
  { intros i e He.
    assert (i < length exts0)%nat as Hi.
    { apply lookup_lt_Some in He. unfold exts in He.
      by rewrite parseExtensions_collect_length in He. }
    apply lookup_lt_is_Some in Hi as [e0 He0].
    destruct (parseExtensions_collect_spec _ _ _ Hnd2 Hpos i e0 He0)
      as (e' & He' & Hn & Hp & Hparams).
    fold exts in He'. rewrite He in He'. injection He' as <-.
    unfold exts0 in He0. rewrite list_lookup_fmap in He0.
    destruct (pns !! i) as [[p ns]|] eqn:Hpn; [|done]. injection He0 as <-.
    exists p, ns. split; [done|]. split; [done|]. split; [done|].
    intros key v. rewrite Hparams. cbn [declared_extension Extension.Prefix Extension.Params fst].
    rewrite lookup_empty, Hel2. split; [|by left]. by intros [?|[? _]]. }
  assert (∀ i p ns, pns !! i = Some (p, ns) → ∃ e, exts !! i = Some e) as Hback.
  { intros i p ns Hi.
    destruct (parseExtensions_collect_spec _ _ _ Hnd2 Hpos i (declared_extension (p, ns)))
      as (e' & He' & _); [|by exists e'].
    unfold exts0. by rewrite list_lookup_fmap, Hi. }
  exists exts. split; [done|]. split; [|split].
  - assert (Extension.Prefix <$> exts = pns.*1) as ->; [|done].
    apply list_eq. intros i. rewrite !list_lookup_fmap.
    destruct (exts !! i) as [e|] eqn:He.
    + destruct (Hexts i e He) as (p & ns & -> & <- & _). done.
    + destruct (pns !! i) as [[p ns]|] eqn:Hi; [|done].
      destruct (Hback i p ns Hi) as [e He']. congruence.
  - intros p ns. rewrite <- Hpd, <- Hel1.
    intros [i Hi]%list_elem_of_lookup.
    destruct (Hback i p ns Hi) as [e He]. exists e.
    split; [by eapply list_elem_of_lookup_2|].
    destruct (Hexts i e He) as (p' & ns' & Hi' & <- & <- & _).
    rewrite Hi in Hi'. by injection Hi' as <- <-.
  - intros e [i He]%list_elem_of_lookup.
    destruct (Hexts i e He) as (p & ns & Hi & <- & <- & Hparams).
    split; [|done]. apply Hpd, Hel1. by eapply list_elem_of_lookup_2.
Qed.

Lemma Extension_eq (e1 e2 : Extension.t) :
  Extension.Namespace e1 = Extension.Namespace e2 →
  Extension.Prefix e1 = Extension.Prefix e2 →
  Extension.Params e1 = Extension.Params e2 → e1 = e2.
Proof. destruct e1, e2. simpl. by intros -> -> ->. Qed.

Lemma NoDup_fmap_eq {A B} (f : A → B) (l : list A) x y :
  NoDup (f <$> l) → x ∈ l → y ∈ l → f x = f y → x = y.
Proof.
  intros Hnd [i Hi]%list_elem_of_lookup [j Hj]%list_elem_of_lookup Hf.
  assert (i = j) as ->; [|congruence].
  apply (NoDup_lookup (f <$> l) i j (f x)); [done| |].
  - by rewrite list_lookup_fmap, Hi.
  - by rewrite list_lookup_fmap, Hj, Hf.
Qed.

(** X19: extensions written by [encodeExtensions] are read back by
    [parseExtensions].  When the extensions have different namespaces and
    different prefixes, none of them reserved or containing a dot, and the
    map they are written into has no key with a dot, [parseExtensions]
    succeeds on the map written and returns these extensions, each with its
    namespace, its prefix and its parameters, in some order. *)
Theorem parseExtensions_encodeExtensions rge rgp (params : gmap string string)
    (extensions : list Extension.t) params' signed :
  range_order rge → range_order rgp →
  (∀ key, is_Some (params !! key) → ¬ has_dot key) →
  NoDup (Extension.Namespace <$> extensions) →
  NoDup (Extension.Prefix <$> extensions) →
  Forall (λ e, plain_prefix (Extension.Prefix e)) extensions →
  encodeExtensions rge params extensions = Some (params', signed) →
  ∃ extensions', parseExtensions rgp params' = Ok extensions'
                 ∧ extensions' ≡ₚ extensions.
Proof.
  intros Hrge Hrgp Hparams Hns Hprefixes Hplain. unfold encodeExtensions.
  destruct (encodeExtensions_loop rge 0 extensions (mkEncoding 0 ∅ params [] []))
    as [st|] eqn:Hloop; [|done].
  intros [= <- _].
  destruct (encodeExtensions_loop_entries rge extensions 0 _ st Hrge Hloop)
    as (new & Hchosen & _ & Hentries).
  destruct (encodeExtensions_loop_spec rge extensions 0 (mkEncoding 0 ∅ params [] []))
    as (st' & new' & Hloop' & Hchosen' & Hchoices & _).
  { intros s. simpl. split; [by intros ?%elem_of_empty|by intros ?%elem_of_nil]. }
  { simpl. intros; lia. }
  rewrite Hloop in Hloop'. injection Hloop' as <-.
  cbn [enc_chosen enc_params app] in *. rewrite Hchosen in Hchosen'. subst new'.
  apply prefix_choices_declared in Hchoices;
    [|by eapply Forall_impl; [exact Hplain|intros e []]|done].
  rewrite Hchoices in Hentries. specialize (Hentries Hprefixes). rewrite Forall_fmap in Hentries.
  specialize (Hentries Hplain).
  assert (∀ key v, enc_params st !! key = Some v ↔
            (∃ ext, ext ∈ extensions ∧ extension_entry (Extension.Prefix ext) ext key v)
            ∨ (¬ has_dot key ∧ params !! key = Some v)) as Hlookup.
  { intros key v. rewrite Hentries. split.
    - intros [(p & ext & [Hin ->]%elem_of_zip_fmap & He)|[_ Hm]].
      + left. by exists ext.
      + right. split; [|done]. apply Hparams. by exists v.
    - intros [(ext & Hin & He)|[Hdot Hm]].
      + left. exists (Extension.Prefix ext), ext. by rewrite elem_of_zip_fmap.
      + right. split; [|done]. intros p ext v' _ He. by apply extension_entry_has_dot in He. }
  clear Hentries.
  assert (∀ e, e ∈ extensions → plain_prefix (Extension.Prefix e)) as Hplain'
    by (by apply Forall_forall).
  assert (∀ p ns, declares (enc_params st) p ns
                  ↔ ∃ ext, ext ∈ extensions ∧ Extension.Prefix ext = p
                           ∧ Extension.Namespace ext = ns) as Hdeclares.
  { intros p ns. unfold declares. rewrite Hlookup. split.
    - intros [(ext & Hin & [[Hk ->]|(k & Hk & _)])|[Hdot _]].
      + exists ext. by apply ns_key_inj in Hk as ->.
      + by apply plain_prefix_ns_key in Hk; [|apply Hplain'].
      + destruct Hdot. apply has_dot_ns.
    - intros (ext & Hin & <- & <-). left. exists ext. split; [done|]. by left. }
  assert (∀ ext key v, ext ∈ extensions →
            enc_params st !! (Extension.Prefix ext +:+ "." +:+ key) = Some v
            ↔ Extension.Params ext !! key = Some v) as Hfields.
  { intros ext key v Hin. rewrite Hlookup. split.
    - intros [(ext2 & Hin2 & He)|[Hdot _]]; [|destruct Hdot; apply has_dot_field].
      assert (extension_entry (Extension.Prefix ext) ext
                (Extension.Prefix ext +:+ "." +:+ key)
                (default "" (Extension.Params ext !! key))
              ∨ Extension.Params ext !! key = None) as [He'|Hnone].
      { destruct (Extension.Params ext !! key) as [v'|] eqn:Hk; [left|by right].
        right. by exists key. }
      + pose proof (extension_entry_prefix _ _ _ _ _ _ _ (Hplain' _ Hin2) (Hplain' _ Hin)
                      He He') as Hp.
        apply (NoDup_fmap_eq Extension.Prefix extensions ext2 ext Hprefixes Hin2 Hin) in Hp.
        subst ext2. destruct He as [[Hk _]|(k & Hk & Hv)].
        * symmetry in Hk. by apply plain_prefix_ns_key in Hk; [|apply Hplain'].
        * by apply field_key_inj in Hk as ->.
      + destruct He as [[Hk _]|(k & Hk & Hv)].
        * symmetry in Hk. by apply plain_prefix_ns_key in Hk; [|apply Hplain'].
        * pose proof (Hplain' _ Hin) as [_ Hd1]. pose proof (Hplain' _ Hin2) as [_ Hd2].
          apply dot_app_inj in Hk as [Hp <-]; [|done|done].
          apply (NoDup_fmap_eq Extension.Prefix extensions ext ext2 Hprefixes Hin Hin2) in Hp.
          by subst ext2.
    - intros Hk. left. exists ext. split; [done|]. right. by exists key. }
  destruct (parseExtensions_members rgp (enc_params st) Hrgp) as (exts' & Hparse & Hnd' & Hall & Hmem).
  { intros p ns (ext & Hin & <- & _)%Hdeclares. apply (Hplain' ext Hin). }
  { intros p1 p2 ns (e1 & Hin1 & <- & Hn1)%Hdeclares (e2 & Hin2 & <- & Hn2)%Hdeclares.
    f_equal. apply (NoDup_fmap_eq Extension.Namespace extensions e1 e2 Hns Hin1 Hin2).
    congruence. }
  exists exts'. split; [done|].
  assert (∀ e' ext, e' ∈ exts' → ext ∈ extensions →
            Extension.Prefix e' = Extension.Prefix ext →
            Extension.Namespace e' = Extension.Namespace ext → e' = ext) as Hsame.
  { intros e' ext Hin' Hin Hp Hn. apply Extension_eq; [done|done|].
    apply map_eq. intros key. apply option_eq. intros v.
    destruct (Hmem e' Hin') as [_ Hparams']. rewrite Hparams', Hp, Hfields by done.
    split; [by intros [_ ?]|]. intros Hk. split; [|done].
    split; [by apply plain_prefix_not_ns, Hplain'|by apply Hplain']. }
  apply NoDup_Permutation.
  - by apply NoDup_fmap_1 in Hnd'.
  - by apply NoDup_fmap_1 in Hprefixes.
  - intros e. split.
    + intros Hin'. destruct (Hmem e Hin') as [(ext & Hin & Hp & Hn)%Hdeclares _].
      by rewrite (Hsame e ext Hin' Hin).
    + intros Hin.
      destruct (Hall (Extension.Prefix e) (Extension.Namespace e)) as (e' & Hin' & Hp & Hn).
      { apply Hdeclares. by exists e. }
      by rewrite <- (Hsame e' e Hin' Hin).
Qed.

Lemma parseExtensions_encodeExtensions_witness :
  ∃ extensions', parseExtensions example_range example_encoded.1 = Ok extensions'
                 ∧ extensions' ≡ₚ example_extensions.
Proof.
  apply (parseExtensions_encodeExtensions example_range example_range ∅
           example_extensions example_encoded.1 example_encoded.2).
  - exact example_range_order.
  - exact example_range_order.
  - intros key [v Hv]. rewrite lookup_empty in Hv. discriminate Hv.
  - apply (@bool_decide_unpack _ (NoDup_dec _)). vm_compute. exact I.
  - apply (@bool_decide_unpack _ (NoDup_dec _)). vm_compute. exact I.
  - repeat constructor; solve_dotless.
  - vm_compute. reflexivity.
Defined.

(** ** From the response of the collaborator to the verification *)

Lemma pretty_N_char_comma d : pretty_N_char d ≠ ","%char.
Proof. unfold pretty_N_char. by repeat case_match. Qed.

Lemma pretty_N_go_comma_free x s : comma_free s → comma_free (pretty_N_go x s).
Proof.
  revert s. induction (N.lt_wf_0 x) as [x _ IH]; intros s Hs.
  assert (x = 0 ∨ 0 < x)%N as [->|Hx] by lia; [by rewrite pretty_N_go_0|].
  rewrite pretty_N_go_step by done. apply IH.
  - apply N.div_lt; lia.
  - unfold comma_free, to_bytes. cbn [String.list_ascii_of_string].
    intros [Hc|Hin]%elem_of_cons; [|done]. by eapply pretty_N_char_comma.
Qed.

Lemma ext_label_comma_free i : comma_free (ext_label i).
Proof.
  unfold comma_free, ext_label. rewrite to_bytes_app. intros [Hin|Hin]%elem_of_app.
  - revert Hin. cbv [to_bytes String.list_ascii_of_string]. intros Hin.
    repeat (apply elem_of_cons in Hin as [Hin|Hin]; [discriminate Hin|]).
    by apply not_elem_of_nil in Hin.
  - revert Hin. unfold pretty, pretty_nat, pretty, pretty_N.
    case_decide; [|apply pretty_N_go_comma_free, not_elem_of_nil].
    cbv [to_bytes String.list_ascii_of_string]. intros Hin.
    repeat (apply elem_of_cons in Hin as [Hin|Hin]; [discriminate Hin|]).
    by apply not_elem_of_nil in Hin.
Qed.

Lemma prefix_choices_comma_free earlier extensions chosen :
  prefix_choices earlier extensions chosen →
  Forall (λ e, comma_free (Extension.Prefix e)) extensions →
  Forall comma_free chosen.
Proof.
  revert earlier chosen.
  induction extensions as [|ext extensions IH]; intros earlier [|p chosen]; simpl;
    try done.
  intros [(_ & _ & Hchoice) Hrest] [Hext Hexts]%Forall_cons.
  apply Forall_cons. split; [|by eapply IH].
  destruct (bannedPrefixes _ || bool_decide _).
  - destruct Hchoice as (n & -> & _). apply ext_label_comma_free.
  - by subst p.
Qed.

Lemma extension_fields_comma_free rg n chosen extensions :
  range_order rg →
  Forall comma_free chosen →
  Forall (λ e, ∀ k, is_Some (Extension.Params e !! k) → comma_free k) extensions →
  Forall comma_free (extension_fields rg n chosen extensions).
Proof.
  intros Hrg. revert n extensions.
  induction chosen as [|p chosen IH]; intros n [|ext extensions]; simpl; try done.
  intros [Hp Hchosen]%Forall_cons [Hext Hexts]%Forall_cons.
  apply Forall_app. split; [|by apply IH].
  apply Forall_fmap, Forall_forall. intros [k v] Hkv. unfold compose. cbn [fst].
  apply (visit_elem _ _ (range_order_visit rg n _ Hrg)) in Hkv.
  unfold comma_free. rewrite to_bytes_dot_app.
  intros [Hin|[Hc|Hin]%elem_of_cons]%elem_of_app; [done|discriminate Hc|].
  by apply (Hext k); [eexists|].
Qed.

Section Assertion.
Variable hmac_Sum : hashFunc → bytes → bytes → bytes.
Variable Quote : string → string.
Variable url_Parse_ok : string → bool.
Variable RFC3339 : Time → string.
Variable rg : nat → gmap string string → list (string * string).

Section Written.
Context {St : Type} `{AssociationStore St}.

Lemma getNonce_store_written (w : World St) :
  store (getNonce RFC3339 w).2 = store w ∧ written (getNonce RFC3339 w).2 = written w.
Proof.
  unfold getNonce. destruct (rand_Read 16 (rand w)) as [[nonce|err] r]; [|done].
  by destruct (time_Now (clock w)).
Qed.

Lemma saveAssociation_loop_written n a (w : World St) :
  written (saveAssociation_loop n a w).2 = written w.
Proof.
  revert a w. induction n as [|n IH]; intros a w; [done|].
  cbn [saveAssociation_loop].
  destruct (rand_Read 16 (rand w)) as [[handle|err] r]; [|done].
  destruct (Add _ (store w)) as [[err|] s]; [|done].
  case_decide; [done|]. by rewrite IH.
Qed.

Lemma getAssociation_new_written a (w : World St) :
  written (getAssociation_new a w).2 = written w.
Proof.
  unfold getAssociation_new, saveAssociation.
  destruct (rand_Read 128 (rand w)) as [[secret|err] r]; [|done].
  destruct (time_Now (clock w)) as [now c].
  pose proof (saveAssociation_loop_written 10
                (Association.mk "" "" secret hmacSHA256 (now + Minute))
                (with_clock (with_rand w r) c)) as Hw.
  by destruct (saveAssociation_loop _ _ _) as [[[err|] a'] w'].
Qed.

Lemma getAssociation_written requestHandle nonce (w : World St) :
  written (getAssociation requestHandle nonce w).2 = written w.
Proof.
  unfold getAssociation. case_decide; [|apply getAssociation_new_written].
  destruct (Get "" requestHandle (store w)) as [[[a|] [err|]] s]; try done.
  - destruct (time_Now (clock w)) as [now c]. case_bool_decide; [done|].
    destruct (Delete "" requestHandle s) as [? s'].
    by rewrite getAssociation_new_written.
  - by rewrite getAssociation_new_written.
Qed.
End Written.

Lemma login_fields_comma_free params resp nonce assoc rparams signed :
  range_order rg →
  Forall extension_comma_free (LoginResponse.Extensions resp) →
  login_fields rg params resp nonce assoc = Some (rparams, signed) →
  Forall comma_free signed.
Proof.
  intros Hrg Hexts Hfields.
  destruct (login_fields_spec rg params resp nonce assoc)
    as (rparams' & chosen & Hfields' & Hchoices & _).
  cbv zeta in Hfields'. rewrite Hfields in Hfields'. injection Hfields' as _ ->.
  assert (∀ s, s ∈ ["op_endpoint"; "return_to"; "response_nonce"; "assoc_handle";
                    "claimed_id"; "identity"] → comma_free s) as Hbase.
  { intros s Hin. unfold comma_free.
    repeat (apply elem_of_cons in Hin as [->|Hin];
            [cbv [to_bytes String.list_ascii_of_string]; intros Hc;
             repeat (apply elem_of_cons in Hc as [Hc|Hc]; [discriminate Hc|]);
             by apply not_elem_of_nil in Hc|]).
    by apply elem_of_nil in Hin. }
  repeat (apply Forall_cons; split; [apply Hbase; set_solver|]).
  apply Forall_app. split.
  { destruct (decide (LoginResponse.ClaimedID resp ≠ "")); [|done].
    apply Forall_singleton, Hbase. set_solver. }
  apply Forall_app. split.
  { destruct (decide (LoginResponse.Identity resp ≠ "")); [|done].
    apply Forall_singleton, Hbase. set_solver. }
  apply extension_fields_comma_free.
  - intros i m. apply Hrg.
  - eapply prefix_choices_comma_free; [exact Hchoices|].
    eapply Forall_impl; [exact Hexts|]. by intros e [? _].
  - eapply Forall_impl; [exact Hexts|]. by intros e [_ ?].
Qed.

(** X20: what [login] does with the response of the collaborator, from
    the nonce to the delivery, fits [checkAuthentication].  On the
    in-memory store, when the request has a [return_to] and no extension
    name contains a comma, one message is delivered; if it is not an error
    it is the assertion, the association that signed it is in the store
    [login] leaves behind, and the verification request made of its fields
    is answered [is_valid: true] by that store, once. *)
Theorem login_id_res_verifies (params : gmap string string) (resp : LoginResponse.t)
    (w : World MemoryAssociationStore.t) :
  range_order rg →
  MemoryAssociationStore.wf (store w) →
  params @ "return_to" ≠ "" →
  Forall extension_comma_free (LoginResponse.Extensions resp) →
  ∃ res w1,
    login_id_res hmac_Sum Quote url_Parse_ok RFC3339 rg params resp w
    = (Returned, respond Quote (indirect url_Parse_ok (params @ "return_to")) res w1)
    ∧ written w1 = written w
    ∧ match res with
      | Err _ => True
      | Ok fields =>
          fields !! "mode" = Some "id_res"
          ∧ ∃ s', checkAuthentication hmac_Sum (verification_request fields) (store w1)
                  = (Ok {[ "ns" := Namespace; "is_valid" := "true" ]}, s')
               ∧ checkAuthentication hmac_Sum (verification_request fields) s'
                 = (Ok {[ "ns" := Namespace; "is_valid" := "false" ]}, s')
      end.
Proof.
  intros Hrg Hwf Hto Hexts. unfold login_id_res.
  rewrite decide_False by done.
  pose proof (getNonce_store_written w) as Hnonce.
  destruct (getNonce RFC3339 w) as [[nonce|err] w1]; destruct Hnonce as [Hs1 Hw1];
    [|by exists (Err err), w1].
  pose proof (getAssociation_not_nil (params @ "assoc_handle") nonce w1) as Hnil.
  pose proof (getAssociation_written (params @ "assoc_handle") nonce w1) as Hw2.
  destruct (getAssociation (params @ "assoc_handle") nonce w1)
    as [[[assoc|] [err|]] w2] eqn:Hassoc; cbn [fst snd] in *; try done.
  1,3: exists (Err err), w2; split; [done|]; split; [congruence|done].
  destruct (getAssociation_Some_stored _ _ _ _ _ ltac:(by rewrite Hs1) Hassoc)
    as (Hget & _ & _).
  destruct (login_fields_spec rg params resp nonce assoc)
    as (rparams & chosen & Hfields & _ & _ & Hmode & _).
  cbv zeta in Hfields. rewrite Hfields.
  destruct (sign hmac_Sum assoc rparams _) as [sig|err] eqn:Hsign.
  2:{ exists (Err err), w2. split; [done|]. split; [congruence|done]. }
  exists (Ok (<["sig" := sig]> rparams)), w2. split; [done|]. split; [congruence|].
  split; [by rewrite lookup_insert_ne|].
  destruct (checkAuthentication_assertion hmac_Sum rg params resp nonce assoc rparams _ sig
              (store w2) Hfields Hsign) as (s' & Hfirst & _ & Hsecond); [|done|].
  - by eapply login_fields_comma_free.
  - by exists s'.
Qed.
End Assertion.

Lemma login_id_res_verifies_witness :
  ∃ res w1,
    login_id_res example_hmac id (λ _, true) (λ _, "2026-01-01T00:00:00Z") example_range
                 example_login_params example_response example_world
    = (Returned,
       respond id (indirect (λ _, true) (example_login_params @ "return_to")) res w1)
    ∧ written w1 = written example_world
    ∧ match res with
      | Err _ => True
      | Ok fields =>
          fields !! "mode" = Some "id_res"
          ∧ ∃ s', checkAuthentication example_hmac (verification_request fields) (store w1)
                  = (Ok {[ "ns" := Namespace; "is_valid" := "true" ]}, s')
               ∧ checkAuthentication example_hmac (verification_request fields) s'
                 = (Ok {[ "ns" := Namespace; "is_valid" := "false" ]}, s')
      end.
Proof.
  apply (login_id_res_verifies example_hmac id (λ _, true) (λ _, "2026-01-01T00:00:00Z")
           example_range example_login_params example_response example_world).
  - exact example_range_order.
  - exact example_store_wf.
  - vm_compute. discriminate.
  - repeat constructor.
    + unfold comma_free. vm_compute. intros Hin.
      repeat (apply elem_of_cons in Hin as [Hin|Hin]; [discriminate Hin|]).
      by apply not_elem_of_nil in Hin.
    + intros k [v Hk]. cbn [example_response LoginResponse.Extensions Extension.Params] in Hk.
      apply lookup_singleton_Some in Hk as [<- _].
      unfold comma_free. vm_compute. intros Hin.
      repeat (apply elem_of_cons in Hin as [Hin|Hin]; [discriminate Hin|]).
      by apply not_elem_of_nil in Hin.
Defined.

(** ** Requests with declarations that cannot be read *)

Lemma parseExtensions_rejects rg (params : gmap string string) :
  range_order rg →
  (∃ p ns, declares params p ns ∧ bannedPrefixes p = true)
  ∨ (∃ p1 p2 ns, p1 ≠ p2 ∧ declares params p1 ns ∧ declares params p2 ns) →
  ∃ err, parseExtensions rg params = Err err.
Proof.
  intros Hrg Hbad. unfold parseExtensions.
  pose proof (range_order_visit rg 0 params Hrg) as [Hnd0 Hel0].
  pose proof (parseExtensions_declare_spec (rg 0%nat params) ∅ ∅ Hnd0) as Hdecl.
  destruct (parseExtensions_declare (rg 0%nat params) ∅ ∅) as [prefixes|err];
    [exfalso|by exists err].
  destruct Hdecl as (Hprefixes & Hban & Hinj); [done|done|].
  destruct Hbad as [(p & ns & Hd & Hb)|(p1 & p2 & ns & Hne & H1 & H2)].
  - apply Hel0 in Hd. apply Hban in Hd. by rewrite Hd in Hb.
  - apply Hne, (Hinj p1 p2 ns); apply Hprefixes; by rewrite declared_by_empty.
Qed.

Section Rejected.
Variable hmac_Sum : hashFunc → bytes → bytes → bytes.
Variable Quote : string → string.
Variable url_Parse_ok : string → bool.
Variable RFC3339 : Time → string.
Variable rg : nat → gmap string string → list (string * string).
Context {St : Type} `{AssociationStore St}.

(** X21: a login request whose extension declarations cannot be read, a
    reserved prefix declared or one namespace declared under two prefixes,
    is answered with an error and nothing else happens: the collaborator is
    not consulted, no nonce and no association is made, the store is not
    touched. *)
Theorem ServeHTTP_rejects_declarations h params (w : World St) :
  range_order rg →
  params @ "ns" = Namespace →
  params @ "mode" = "checkid_immediate" ∨ params @ "mode" = "checkid_setup" →
  (∃ p ns, declares params p ns ∧ bannedPrefixes p = true)
  ∨ (∃ p1 p2 ns, p1 ≠ p2 ∧ declares params p1 ns ∧ declares params p2 ns) →
  ∃ err,
    ServeHTTP hmac_Sum Quote url_Parse_ok RFC3339 rg h params w
    = (Returned,
       respond Quote (indirect url_Parse_ok (params @ "return_to")) (Err err) w).
Proof.
  intros Hrg Hns Hmode Hbad.
  destruct (parseExtensions_rejects rg params Hrg Hbad) as [err Herr].
  exists err. unfold ServeHTTP.
  rewrite (decide_True (P := params @ "ns" = Namespace)) by done.
  rewrite decide_False by (by destruct Hmode as [-> | ->]).
  rewrite decide_True by done.
  unfold login, parseLoginRequest. by rewrite Herr.
Qed.
End Rejected.

Lemma ServeHTTP_rejects_declarations_witness :
  ∃ err,
    ServeHTTP example_hmac id (λ _, true) (λ _, "2026-01-01T00:00:00Z") example_range
              example_handler example_reserved_params example_world
    = (Returned,
       respond id (indirect (λ _, true) (example_reserved_params @ "return_to"))
               (Err err) example_world).
Proof.
  apply (ServeHTTP_rejects_declarations example_hmac id (λ _, true)
           (λ _, "2026-01-01T00:00:00Z") example_range example_handler
           example_reserved_params example_world).
  - exact example_range_order.
  - reflexivity.
  - right. reflexivity.
  - left. exists "mode", "http://example.org/ext". split; reflexivity.
Defined.

(** ** What the signature does not cover *)






Section Unsigned.
Variable hmac_Sum : hashFunc → bytes → bytes → bytes.
Variable rg : nat → gmap string string → list (string * string).


End Unsigned.

